(** * Tracewrap: the trace recorder and the instrumentation engine

    A shallow embedding of two Go packages of [mwiater/tracewrap]:

    - package [tracer]: the run-time recorder (the global call stack, the
      aggregate list of completed records, the id counter, the
      execution-frequency map) and its DOT serializer;
    - package [instrument] (file [pkg/instrument/ast.go]): the rewriting of
      one function declaration, i.e. the statements injected in front of
      the body and the rewriting of [return] statements.

    Integers of fixed width are [Z] with the wrap-around written out, Go
    maps are [gmap], slices are lists with the last element as the end of
    the slice.  What the recorder reads from its environment (the clock,
    the memory statistics, the system load) is an argument of the
    operation that reads it.

    The file has the definitions first: the two packages (modules
    [Tracer] and [Instrument]), then the notions the properties are
    stated with (module [Spec]: the invariant of the ids, the rewriting
    relation, the order of the deferred calls, the values a rewritten
    return yields).  The properties follow, and at the end their
    instances on concrete runs and functions. *)

From Stdlib Require Import ZArith Lia String Ascii List.
From stdpp Require Import base list strings gmap pretty sorting.

#[local] Open Scope Z_scope.

(** ** Package [tracer]: data model and operations *)

Module Tracer.

(** [int64] arithmetic wraps around. *)
Definition min_int64 : Z := - 2 ^ 63.
Definition max_int64 : Z := 2 ^ 63 - 1.
Definition wrap_int64 (z : Z) : Z := (z + 2 ^ 63) mod 2 ^ 64 - 2 ^ 63.

(** [uint64] subtraction, as in [top.MemAfter - top.MemBefore]. *)
Definition sub_uint64 (a b : Z) : Z := (a - b) mod 2 ^ 64.

(** [time.Time] is an instant in nanoseconds; [t.Sub(u)] is the
    difference, saturated to the range of [time.Duration] (an [int64]). *)
Definition time_Sub (t u : Z) : Z := Z.max min_int64 (Z.min max_int64 (t - u)).

(** A [float64] is only stored and printed by the recorder: it is held as
    its bit pattern. *)
Definition float64 : Type := Z.

Section Model.

(** The dynamic type behind Go's [interface{}] arguments, and the
    rendering [fmt.Sprintf("%+v", v)] of such a value. *)
Context {value : Type}.
Variable fmt_v : value -> string.

(** [type TraceRecord struct].  [PanicValue] is an [interface{}]: [None]
    is the nil interface. *)
Record TraceRecord : Type := {
  UniqueID : Z;
  FunctionName : string;
  CallerID : Z;
  EntryTime : Z;
  ExitTime : Z;
  Duration : Z;
  Params : gmap string string;
  ReturnValues : list string;
  MemBefore : Z;
  MemAfter : Z;
  MemDiff : Z;
  PanicValue : option value;
  StackTrace : string;
  GoroutinesDelta : Z;
  ThreadsDelta : Z;
  GCCountDelta : Z;
  HeapAllocDelta : Z;
  HeapFreeDelta : Z;
  NetUsageDelta : Z;
  DiskUsageDelta : Z;
  SystemCPULoad : float64;
  SystemMemUsage : Z
}.

(** [top.Params[k] = v]: the record with its parameter map replaced. *)
Definition set_Params (p : gmap string string) (r : TraceRecord) : TraceRecord :=
  {| UniqueID := UniqueID r; FunctionName := FunctionName r;
     CallerID := CallerID r; EntryTime := EntryTime r;
     ExitTime := ExitTime r; Duration := Duration r; Params := p;
     ReturnValues := ReturnValues r; MemBefore := MemBefore r;
     MemAfter := MemAfter r; MemDiff := MemDiff r;
     PanicValue := PanicValue r; StackTrace := StackTrace r;
     GoroutinesDelta := GoroutinesDelta r; ThreadsDelta := ThreadsDelta r;
     GCCountDelta := GCCountDelta r; HeapAllocDelta := HeapAllocDelta r;
     HeapFreeDelta := HeapFreeDelta r; NetUsageDelta := NetUsageDelta r;
     DiskUsageDelta := DiskUsageDelta r; SystemCPULoad := SystemCPULoad r;
     SystemMemUsage := SystemMemUsage r |}.

(** [top.ReturnValues = append(...)]: the record with its return list replaced. *)
Definition set_ReturnValues (l : list string) (r : TraceRecord) : TraceRecord :=
  {| UniqueID := UniqueID r; FunctionName := FunctionName r;
     CallerID := CallerID r; EntryTime := EntryTime r;
     ExitTime := ExitTime r; Duration := Duration r; Params := Params r;
     ReturnValues := l; MemBefore := MemBefore r; MemAfter := MemAfter r;
     MemDiff := MemDiff r; PanicValue := PanicValue r;
     StackTrace := StackTrace r; GoroutinesDelta := GoroutinesDelta r;
     ThreadsDelta := ThreadsDelta r; GCCountDelta := GCCountDelta r;
     HeapAllocDelta := HeapAllocDelta r; HeapFreeDelta := HeapFreeDelta r;
     NetUsageDelta := NetUsageDelta r; DiskUsageDelta := DiskUsageDelta r;
     SystemCPULoad := SystemCPULoad r; SystemMemUsage := SystemMemUsage r |}.

(** [top.PanicValue = panicValue; top.StackTrace = stack]. *)
Definition set_Panic (v : option value) (stack : string) (r : TraceRecord) : TraceRecord :=
  {| UniqueID := UniqueID r; FunctionName := FunctionName r;
     CallerID := CallerID r; EntryTime := EntryTime r;
     ExitTime := ExitTime r; Duration := Duration r; Params := Params r;
     ReturnValues := ReturnValues r; MemBefore := MemBefore r;
     MemAfter := MemAfter r; MemDiff := MemDiff r; PanicValue := v;
     StackTrace := stack; GoroutinesDelta := GoroutinesDelta r;
     ThreadsDelta := ThreadsDelta r; GCCountDelta := GCCountDelta r;
     HeapAllocDelta := HeapAllocDelta r; HeapFreeDelta := HeapFreeDelta r;
     NetUsageDelta := NetUsageDelta r; DiskUsageDelta := DiskUsageDelta r;
     SystemCPULoad := SystemCPULoad r; SystemMemUsage := SystemMemUsage r |}.

(** [top.GoroutinesDelta = delta]. *)
Definition set_GoroutinesDelta (delta : Z) (r : TraceRecord) : TraceRecord :=
  {| UniqueID := UniqueID r; FunctionName := FunctionName r;
     CallerID := CallerID r; EntryTime := EntryTime r;
     ExitTime := ExitTime r; Duration := Duration r; Params := Params r;
     ReturnValues := ReturnValues r; MemBefore := MemBefore r;
     MemAfter := MemAfter r; MemDiff := MemDiff r;
     PanicValue := PanicValue r; StackTrace := StackTrace r;
     GoroutinesDelta := delta; ThreadsDelta := ThreadsDelta r;
     GCCountDelta := GCCountDelta r; HeapAllocDelta := HeapAllocDelta r;
     HeapFreeDelta := HeapFreeDelta r; NetUsageDelta := NetUsageDelta r;
     DiskUsageDelta := DiskUsageDelta r; SystemCPULoad := SystemCPULoad r;
     SystemMemUsage := SystemMemUsage r |}.

(** [top.ThreadsDelta = delta]. *)
Definition set_ThreadsDelta (delta : Z) (r : TraceRecord) : TraceRecord :=
  {| UniqueID := UniqueID r; FunctionName := FunctionName r;
     CallerID := CallerID r; EntryTime := EntryTime r;
     ExitTime := ExitTime r; Duration := Duration r; Params := Params r;
     ReturnValues := ReturnValues r; MemBefore := MemBefore r;
     MemAfter := MemAfter r; MemDiff := MemDiff r;
     PanicValue := PanicValue r; StackTrace := StackTrace r;
     GoroutinesDelta := GoroutinesDelta r; ThreadsDelta := delta;
     GCCountDelta := GCCountDelta r; HeapAllocDelta := HeapAllocDelta r;
     HeapFreeDelta := HeapFreeDelta r; NetUsageDelta := NetUsageDelta r;
     DiskUsageDelta := DiskUsageDelta r; SystemCPULoad := SystemCPULoad r;
     SystemMemUsage := SystemMemUsage r |}.

(** [top.GCCountDelta = delta]. *)
Definition set_GCCountDelta (delta : Z) (r : TraceRecord) : TraceRecord :=
  {| UniqueID := UniqueID r; FunctionName := FunctionName r;
     CallerID := CallerID r; EntryTime := EntryTime r;
     ExitTime := ExitTime r; Duration := Duration r; Params := Params r;
     ReturnValues := ReturnValues r; MemBefore := MemBefore r;
     MemAfter := MemAfter r; MemDiff := MemDiff r;
     PanicValue := PanicValue r; StackTrace := StackTrace r;
     GoroutinesDelta := GoroutinesDelta r; ThreadsDelta := ThreadsDelta r;
     GCCountDelta := delta; HeapAllocDelta := HeapAllocDelta r;
     HeapFreeDelta := HeapFreeDelta r; NetUsageDelta := NetUsageDelta r;
     DiskUsageDelta := DiskUsageDelta r; SystemCPULoad := SystemCPULoad r;
     SystemMemUsage := SystemMemUsage r |}.

(** [top.HeapAllocDelta = heapAllocDelta; top.HeapFreeDelta = heapFreeDelta]. *)
Definition set_Heap (heapAllocDelta heapFreeDelta : Z) (r : TraceRecord) : TraceRecord :=
  {| UniqueID := UniqueID r; FunctionName := FunctionName r;
     CallerID := CallerID r; EntryTime := EntryTime r;
     ExitTime := ExitTime r; Duration := Duration r; Params := Params r;
     ReturnValues := ReturnValues r; MemBefore := MemBefore r;
     MemAfter := MemAfter r; MemDiff := MemDiff r;
     PanicValue := PanicValue r; StackTrace := StackTrace r;
     GoroutinesDelta := GoroutinesDelta r; ThreadsDelta := ThreadsDelta r;
     GCCountDelta := GCCountDelta r; HeapAllocDelta := heapAllocDelta;
     HeapFreeDelta := heapFreeDelta; NetUsageDelta := NetUsageDelta r;
     DiskUsageDelta := DiskUsageDelta r; SystemCPULoad := SystemCPULoad r;
     SystemMemUsage := SystemMemUsage r |}.

(** [top.NetUsageDelta = netUsageDelta; top.DiskUsageDelta = diskUsageDelta]. *)
Definition set_IO (netUsageDelta diskUsageDelta : Z) (r : TraceRecord) : TraceRecord :=
  {| UniqueID := UniqueID r; FunctionName := FunctionName r;
     CallerID := CallerID r; EntryTime := EntryTime r;
     ExitTime := ExitTime r; Duration := Duration r; Params := Params r;
     ReturnValues := ReturnValues r; MemBefore := MemBefore r;
     MemAfter := MemAfter r; MemDiff := MemDiff r;
     PanicValue := PanicValue r; StackTrace := StackTrace r;
     GoroutinesDelta := GoroutinesDelta r; ThreadsDelta := ThreadsDelta r;
     GCCountDelta := GCCountDelta r; HeapAllocDelta := HeapAllocDelta r;
     HeapFreeDelta := HeapFreeDelta r; NetUsageDelta := netUsageDelta;
     DiskUsageDelta := diskUsageDelta; SystemCPULoad := SystemCPULoad r;
     SystemMemUsage := SystemMemUsage r |}.


(** The six assignments of [RecordExit] on the popped record, in the
    order of the source. *)
Definition finalize (now memAfter : Z) (load : float64) (sysMem : Z)
    (r : TraceRecord) : TraceRecord :=
  let exitTime := now in
  let duration := time_Sub exitTime (EntryTime r) in
  let memDiff :=
    if decide (MemBefore r < memAfter) then sub_uint64 memAfter (MemBefore r)
    else 0 in
  {| UniqueID := UniqueID r; FunctionName := FunctionName r;
     CallerID := CallerID r; EntryTime := EntryTime r;
     ExitTime := exitTime; Duration := duration; Params := Params r;
     ReturnValues := ReturnValues r; MemBefore := MemBefore r;
     MemAfter := memAfter; MemDiff := memDiff;
     PanicValue := PanicValue r; StackTrace := StackTrace r;
     GoroutinesDelta := GoroutinesDelta r; ThreadsDelta := ThreadsDelta r;
     GCCountDelta := GCCountDelta r; HeapAllocDelta := HeapAllocDelta r;
     HeapFreeDelta := HeapFreeDelta r; NetUsageDelta := NetUsageDelta r;
     DiskUsageDelta := DiskUsageDelta r; SystemCPULoad := load;
     SystemMemUsage := sysMem |}.

(** What the logger prints, one constructor per format string. *)
Inductive LogLine : Type :=
| LogEntering (functionName : string) (id : Z)
| LogParameter (paramName : string) (v : value)
| LogReturning (functionName : string) (returns : list value)
| LogExiting (functionName : string) (id duration memDiff : Z)
| LogTotalRecords (n : nat)
| LogSystem (load : float64) (sysMem : Z)
| LogPanic (functionName : string) (v : value) (stack : string)
| LogGoroutines (functionName : string) (delta : Z)
| LogThreads (functionName : string) (delta : Z)
| LogGC (functionName : string) (delta : Z)
| LogHeap (functionName : string) (heapAllocDelta heapFreeDelta : Z)
| LogIO (functionName : string) (netUsageDelta diskUsageDelta : Z)
| LogCalls (functionName : string) (count : Z)
| LogResourceUsage (functionName : string) (cpuTimeDiff heapAllocDiff : Z)
| LogGeneratingDOT (n : nat)
| LogCallGraphWritten (outputFile : string).

(** The package-level variables.  The mutex [mu] is not a field: every
    operation below is one critical section, so a run of the program is a
    sequence of operations.  [callStack] and [traceRecords] hold pointers
    in Go; a record is created once, sits on the stack until it is popped
    and is appended to [traceRecords] after the pop, so no record is
    reachable from two places and the records are held by value.
    [logged] is what the logger has printed; a line is added with the
    operation that prints it. *)
Record Recorder : Type := {
  traceRecords : list TraceRecord;
  callStack : list TraceRecord;
  uniqueID : Z;
  execFrequency : gmap string Z;
  logged : list LogLine
}.

(** The state at program start. *)
Definition initial : Recorder :=
  {| traceRecords := []; callStack := []; uniqueID := 0;
     execFrequency := ∅; logged := [] |}.

(** Everything the recorder stores, the log output left out. *)
Definition stored (s : Recorder)
    : list TraceRecord * list TraceRecord * Z * gmap string Z :=
  (traceRecords s, callStack s, uniqueID s, execFrequency s).

Definition println (line : LogLine) (s : Recorder) : Recorder :=
  {| traceRecords := traceRecords s; callStack := callStack s;
     uniqueID := uniqueID s; execFrequency := execFrequency s;
     logged := logged s ++ [line] |}.

Definition set_callStack (st : list TraceRecord) (s : Recorder) : Recorder :=
  {| traceRecords := traceRecords s; callStack := st;
     uniqueID := uniqueID s; execFrequency := execFrequency s;
     logged := logged s |}.

(** [callStack[len(callStack)-1]] and [callStack[:len(callStack)-1]]. *)
Definition top_of (st : list TraceRecord) : option TraceRecord := last st.
Definition pop_of (st : list TraceRecord) : list TraceRecord := removelast st.

(** [if len(callStack) > 0 { top := callStack[len(callStack)-1]; <update top> }]:
    the update goes through the pointer, so the stack sees it. *)
Definition on_top (f : TraceRecord -> TraceRecord) (s : Recorder) : Recorder :=
  match top_of (callStack s) with
  | Some top => set_callStack (pop_of (callStack s) ++ [f top]) s
  | None => s
  end.

(** [func RecordEntry(functionName string)], with [time.Now()] and
    [readMem()] as [now] and [mem]. *)
Definition RecordEntry (functionName : string) (now mem : Z) (s : Recorder)
    : Recorder :=
  let id := wrap_int64 (uniqueID s + 1) in
  let callerID :=
    match top_of (callStack s) with
    | Some top => UniqueID top
    | None => 0
    end in
  let record :=
    {| UniqueID := id; FunctionName := functionName; CallerID := callerID;
       EntryTime := now; ExitTime := 0; Duration := 0; Params := ∅;
       ReturnValues := []; MemBefore := mem; MemAfter := 0; MemDiff := 0;
       PanicValue := None; StackTrace := EmptyString; GoroutinesDelta := 0;
       ThreadsDelta := 0; GCCountDelta := 0; HeapAllocDelta := 0;
       HeapFreeDelta := 0; NetUsageDelta := 0; DiskUsageDelta := 0;
       SystemCPULoad := 0; SystemMemUsage := 0 |} in
  {| traceRecords := traceRecords s; callStack := callStack s ++ [record];
     uniqueID := id; execFrequency := execFrequency s;
     logged := logged s ++ [LogEntering functionName id] |}.

(** [func RecordParam(paramName string, value interface{})]. *)
Definition RecordParam (paramName : string) (v : value) (s : Recorder)
    : Recorder :=
  println (LogParameter paramName v)
    (on_top (fun top => set_Params (<[paramName := fmt_v v]> (Params top)) top) s).

(** [func RecordReturn(functionName string, returns ...interface{})]. *)
Definition RecordReturn (functionName : string) (returns : list value)
    (s : Recorder) : Recorder :=
  println (LogReturning functionName returns)
    (on_top (fun top =>
       fold_left (fun t ret => set_ReturnValues (ReturnValues t ++ [fmt_v ret]) t)
                 returns top) s).

(** [func RecordExit(functionName string, startTime time.Time)], with
    [time.Now()], [readMem()], [GetSystemCPULoad()] and
    [GetSystemMemUsage()] as [now], [memAfter], [load] and [sysMem]. *)
Definition RecordExit (functionName : string) (startTime : Z)
    (now memAfter : Z) (load : float64) (sysMem : Z) (s : Recorder)
    : Recorder :=
  match top_of (callStack s) with
  | Some top0 =>
      let top := finalize now memAfter load sysMem top0 in
      let records := traceRecords s ++ [top] in
      {| traceRecords := records; callStack := pop_of (callStack s);
         uniqueID := uniqueID s; execFrequency := execFrequency s;
         logged := logged s ++
           [LogExiting functionName (UniqueID top) (Duration top) (MemDiff top);
            LogTotalRecords (length records);
            LogSystem (SystemCPULoad top) (SystemMemUsage top)] |}
  | None => s
  end.

(** [func RecordPanic(functionName string, panicValue interface{}, stack string)]. *)
Definition RecordPanic (functionName : string) (panicValue : value)
    (stack : string) (s : Recorder) : Recorder :=
  println (LogPanic functionName panicValue stack)
    (on_top (set_Panic (Some panicValue) stack) s).

Definition RecordGoroutineUsage (functionName : string) (delta : Z)
    (s : Recorder) : Recorder :=
  println (LogGoroutines functionName delta) (on_top (set_GoroutinesDelta delta) s).

Definition RecordThreadUsage (functionName : string) (delta : Z)
    (s : Recorder) : Recorder :=
  println (LogThreads functionName delta) (on_top (set_ThreadsDelta delta) s).

Definition RecordGCActivity (functionName : string) (delta : Z)
    (s : Recorder) : Recorder :=
  println (LogGC functionName delta) (on_top (set_GCCountDelta delta) s).

Definition RecordHeapUsage (functionName : string)
    (heapAllocDelta heapFreeDelta : Z) (s : Recorder) : Recorder :=
  println (LogHeap functionName heapAllocDelta heapFreeDelta)
    (on_top (set_Heap heapAllocDelta heapFreeDelta) s).

Definition RecordIOUsage (functionName : string)
    (netUsageDelta diskUsageDelta : Z) (s : Recorder) : Recorder :=
  println (LogIO functionName netUsageDelta diskUsageDelta)
    (on_top (set_IO netUsageDelta diskUsageDelta) s).

(** [func RecordExecutionFrequency(functionName string)]: a missing key
    reads as 0, the counter is an [int]. *)
Definition RecordExecutionFrequency (functionName : string) (s : Recorder)
    : Recorder :=
  let count := wrap_int64 (default 0 (execFrequency s !! functionName) + 1) in
  {| traceRecords := traceRecords s; callStack := callStack s;
     uniqueID := uniqueID s;
     execFrequency := <[functionName := count]> (execFrequency s);
     logged := logged s ++ [LogCalls functionName count] |}.

(** [func RecordResourceUsage(functionName string, cpuTimeDiff time.Duration, heapAllocDiff int64)]. *)
Definition RecordResourceUsage (functionName : string)
    (cpuTimeDiff heapAllocDiff : Z) (s : Recorder) : Recorder :=
  println (LogResourceUsage functionName cpuTimeDiff heapAllocDiff) s.

(** The serialized graph, one constructor per line format written to the
    string builder. *)
Inductive DotLine : Type :=
| DotOpen
| DotNodeStyle
| DotNode (id : Z) (label : string)
| DotEdge (callerID id : Z)
| DotClose.

(** The label of a node is built from the record's name, id, duration,
    memory difference, system figures, parameters and return values; the
    parameters are visited in Go's map iteration order and the numbers
    are printed by [fmt].  The label text is a parameter of the model. *)
Variable nodeLabel : TraceRecord -> string.

(** The text [DumpCallGraphDOT] builds: two header lines, the first loop
    over [traceRecords] (one node per record), the second loop (one edge
    per record with [rec.CallerID != 0]), the closing line. *)
Definition dotText (records : list TraceRecord) : list DotLine :=
  [DotOpen; DotNodeStyle]
  ++ map (fun rec => DotNode (UniqueID rec) (nodeLabel rec)) records
  ++ flat_map (fun rec =>
       if decide (CallerID rec <> 0)
       then [DotEdge (CallerID rec) (UniqueID rec)] else []) records
  ++ [DotClose].

(** [func DumpCallGraphDOT(outputFile string) error].  [writeOk] tells
    whether [os.WriteFile] succeeded; the result is the text handed to
    [os.WriteFile], whether an error is returned, and the recorder. *)
Definition DumpCallGraphDOT (outputFile : string) (writeOk : bool)
    (s : Recorder) : list DotLine * bool * Recorder :=
  let s1 := println (LogGeneratingDOT (length (traceRecords s))) s in
  let text := dotText (traceRecords s) in
  if writeOk then (text, false, println (LogCallGraphWritten outputFile) s1)
  else (text, true, s1).

(** The node ids and the edges of a serialized graph, in file order. *)
Definition dot_nodes (text : list DotLine) : list Z :=
  flat_map (fun l => match l with DotNode id _ => [id] | _ => [] end) text.

Definition dot_edges (text : list DotLine) : list (Z * Z) :=
  flat_map (fun l => match l with DotEdge c id => [(c, id)] | _ => [] end) text.

(** One call into the recorder, with the environment readings of that
    call.  A run of an instrumented program, whatever the interleaving of
    its goroutines, is a list of such calls. *)
Inductive Op : Type :=
| OpEntry (functionName : string) (now mem : Z)
| OpParam (paramName : string) (v : value)
| OpReturn (functionName : string) (returns : list value)
| OpExit (functionName : string) (startTime now memAfter : Z)
         (load : float64) (sysMem : Z)
| OpPanic (functionName : string) (panicValue : value) (stack : string)
| OpGoroutineUsage (functionName : string) (delta : Z)
| OpThreadUsage (functionName : string) (delta : Z)
| OpGCActivity (functionName : string) (delta : Z)
| OpHeapUsage (functionName : string) (heapAllocDelta heapFreeDelta : Z)
| OpIOUsage (functionName : string) (netUsageDelta diskUsageDelta : Z)
| OpExecutionFrequency (functionName : string)
| OpResourceUsage (functionName : string) (cpuTimeDiff heapAllocDiff : Z)
| OpDumpCallGraphDOT (outputFile : string) (writeOk : bool).

Definition step (s : Recorder) (op : Op) : Recorder :=
  match op with
  | OpEntry fn now mem => RecordEntry fn now mem s
  | OpParam name v => RecordParam name v s
  | OpReturn fn returns => RecordReturn fn returns s
  | OpExit fn startTime now memAfter load sysMem =>
      RecordExit fn startTime now memAfter load sysMem s
  | OpPanic fn v stack => RecordPanic fn v stack s
  | OpGoroutineUsage fn delta => RecordGoroutineUsage fn delta s
  | OpThreadUsage fn delta => RecordThreadUsage fn delta s
  | OpGCActivity fn delta => RecordGCActivity fn delta s
  | OpHeapUsage fn a f => RecordHeapUsage fn a f s
  | OpIOUsage fn n d => RecordIOUsage fn n d s
  | OpExecutionFrequency fn => RecordExecutionFrequency fn s
  | OpResourceUsage fn cpu heap => RecordResourceUsage fn cpu heap s
  | OpDumpCallGraphDOT outputFile writeOk =>
      snd (DumpCallGraphDOT outputFile writeOk s)
  end.

Definition run (ops : list Op) (s : Recorder) : Recorder :=
  fold_left step ops s.

(** The exported function an operation calls. *)
Definition op_name (op : Op) : string :=
  match op with
  | OpEntry _ _ _ => "RecordEntry"
  | OpParam _ _ => "RecordParam"
  | OpReturn _ _ => "RecordReturn"
  | OpExit _ _ _ _ _ _ => "RecordExit"
  | OpPanic _ _ _ => "RecordPanic"
  | OpGoroutineUsage _ _ => "RecordGoroutineUsage"
  | OpThreadUsage _ _ => "RecordThreadUsage"
  | OpGCActivity _ _ => "RecordGCActivity"
  | OpHeapUsage _ _ _ => "RecordHeapUsage"
  | OpIOUsage _ _ _ => "RecordIOUsage"
  | OpExecutionFrequency _ => "RecordExecutionFrequency"
  | OpResourceUsage _ _ _ => "RecordResourceUsage"
  | OpDumpCallGraphDOT _ _ => "DumpCallGraphDOT"
  end.

(** The number of [RecordEntry] calls of a run. *)
Fixpoint entries (ops : list Op) : nat :=
  match ops with
  | [] => 0%nat
  | OpEntry _ _ _ :: ops' => S (entries ops')
  | _ :: ops' => entries ops'
  end.

(** A run in which no activation is entered while another one is on the
    stack; [depth] is the length of the call stack. *)
Fixpoint flat (depth : nat) (ops : list Op) : bool :=
  match ops with
  | [] => true
  | OpEntry _ _ _ :: ops' => Nat.eqb depth 0 && flat 1 ops'
  | OpExit _ _ _ _ _ _ :: ops' => flat (Nat.pred depth) ops'
  | _ :: ops' => flat depth ops'
  end.

End Model.

Arguments TraceRecord : clear implicits.
Arguments Recorder : clear implicits.
Arguments LogLine : clear implicits.
Arguments Op : clear implicits.

End Tracer.

(** ** Package [instrument]: the syntax tree and the rewrite *)

Module Instrument.

#[local] Open Scope string_scope.

(** The tokens of [go/token] the engine writes, and any other one. *)
Inductive token : Type :=
| DEFINE | ASSIGN | NEQ | SUB | AND | STRING | INT | VAR | IMPORT
| OtherToken (text : string).

(** The nodes of [go/ast] a function body is made of.  A block is the
    list of its statements ([BlockStmt.List]); the [Body] of an [if], a
    [for], a [switch] and the like is such a list.  The types are nested
    through [list] and [option]; the induction principle used below is
    [stmt_rect'], stated with the theorems. *)
#[local] Unset Elimination Schemes.
Inductive expr : Type :=
| Ident (name : string)
| BasicLit (kind : token) (value : string)
| CompositeLit (ty : expr) (elts : list expr)
| FuncLit (params : list field) (body : list stmt)
| ParenExpr (x : expr)
| SelectorExpr (x : expr) (sel : string)
| IndexExpr (x index : expr)
| TypeAssertExpr (x : expr) (ty : option expr)
| CallExpr (fn : expr) (args : list expr)
| StarExpr (x : expr)
| UnaryExpr (op : token) (x : expr)
| BinaryExpr (x : expr) (op : token) (y : expr)
with stmt : Type :=
| DeclStmt (tok : token) (specs : list spec)
| EmptyStmt
| LabeledStmt (label : string) (s : stmt)
| ExprStmt (x : expr)
| SendStmt (chan val : expr)
| IncDecStmt (x : expr) (tok : token)
| AssignStmt (lhs : list expr) (tok : token) (rhs : list expr)
| GoStmt (call : expr)
| DeferStmt (call : expr)
| ReturnStmt (results : list expr)
| BranchStmt (tok : token) (label : option string)
| BlockStmt (l : list stmt)
| IfStmt (init : option stmt) (cond : expr) (body : list stmt)
         (els : option stmt)
| CaseClause (l : list expr) (body : list stmt)
| SwitchStmt (init : option stmt) (tag : option expr) (body : list stmt)
| TypeSwitchStmt (init : option stmt) (assign : stmt) (body : list stmt)
| CommClause (comm : option stmt) (body : list stmt)
| SelectStmt (body : list stmt)
| ForStmt (init : option stmt) (cond : option expr) (post : option stmt)
          (body : list stmt)
| RangeStmt (key val : option expr) (tok : token) (x : expr)
            (body : list stmt)
with field : Type :=
| Field (names : list string) (ty : expr)
with spec : Type :=
| ValueSpec (names : list string) (ty : option expr) (values : list expr).
#[local] Set Elimination Schemes.

Definition field_names (f : field) : list string :=
  match f with Field names _ => names end.

(** [ast.FuncDecl]: [Recv] and [Body] may be nil, so may [Type.Params]. *)
Record FuncDecl : Type := {
  Name : string;
  Recv : option (list field);
  Params : option (list field);
  Results : option (list field);
  Body : option (list stmt)
}.

(** The double quote that opens and closes a string literal. *)
Definition quote : string := String "034"%char EmptyString.

Definition quoted (s : string) : string := quote ++ s ++ quote.

(** A call [tracer.<sel>(args...)]. *)
Definition tracerCall (sel : string) (args : list expr) : expr :=
  CallExpr (SelectorExpr (Ident "tracer") sel) args.

Definition runtimeCall (sel : string) (args : list expr) : expr :=
  CallExpr (SelectorExpr (Ident "runtime") sel) args.

(** *** The statements [instrumentFile] builds for one function

    [fnNameLit] is the quoted name of the function. *)

Definition recoverStmt (fnNameLit : string) : stmt :=
  DeferStmt (CallExpr
    (FuncLit []
       [ AssignStmt [Ident "r"] DEFINE [CallExpr (Ident "recover") []];
         IfStmt None (BinaryExpr (Ident "r") NEQ (Ident "nil"))
           [ ExprStmt (tracerCall "RecordPanic"
               [ BasicLit STRING fnNameLit;
                 Ident "r";
                 CallExpr (Ident "string")
                   [CallExpr (SelectorExpr (Ident "debug") "Stack") []] ]);
             ExprStmt (CallExpr (Ident "panic") [Ident "r"]) ]
           None ])
    []).

Definition startTimeDecl : stmt :=
  AssignStmt [Ident "__tracewrap_startTime"] DEFINE
    [CallExpr (SelectorExpr (Ident "time") "Now") []].

Definition startCPUTimeDecl : stmt :=
  AssignStmt [Ident "__tracewrap_startCPUTime"] DEFINE
    [tracerCall "GetProcessCPUTime" []].

Definition deferExit (fnNameLit : string) : stmt :=
  DeferStmt (tracerCall "RecordExit"
    [BasicLit STRING fnNameLit; Ident "__tracewrap_startTime"]).

Definition recordEntryCall (fnNameLit : string) : stmt :=
  ExprStmt (tracerCall "RecordEntry" [BasicLit STRING fnNameLit]).

(** One [tracer.RecordParam] call per declared parameter name, in
    declaration order. *)
Definition paramLog (name : string) : stmt :=
  ExprStmt (tracerCall "RecordParam"
    [ BasicLit STRING (quoted name);
      CallExpr (Ident "fmt.Sprintf")
        [BasicLit STRING (quoted "%+v"); Ident name] ]).

Definition paramLogs (params : option (list field)) : list stmt :=
  match params with
  | Some l => flat_map (fun f => map paramLog (field_names f)) l
  | None => []
  end.

Definition dumpCallGraphStmt : stmt :=
  ExprStmt (tracerCall "DumpCallGraphDOT"
    [BasicLit STRING (quoted "tracewrap/callgraph.dot")]).

Definition startGoroutinesDecl : stmt :=
  AssignStmt [Ident "__tracewrap_startGoroutines"] DEFINE
    [runtimeCall "NumGoroutine" []].

Definition startThreadsDecl : stmt :=
  AssignStmt [Ident "__tracewrap_startThreads"] DEFINE
    [runtimeCall "NumCgoCall" []].

Definition memStatsBeforeDecl : stmt :=
  DeclStmt VAR
    [ValueSpec ["__tracewrap_memStatsBefore"]
       (Some (SelectorExpr (Ident "runtime") "MemStats")) []].

Definition readMemStatsBefore : stmt :=
  ExprStmt (runtimeCall "ReadMemStats"
    [UnaryExpr AND (Ident "__tracewrap_memStatsBefore")]).

Definition startNetUsageDecl : stmt :=
  AssignStmt [Ident "__tracewrap_startNetUsage"] DEFINE
    [tracerCall "GetNetworkUsage" []].

Definition startDiskUsageDecl : stmt :=
  AssignStmt [Ident "__tracewrap_startDiskUsage"] DEFINE
    [tracerCall "GetDiskUsage" []].

(** [int64(__tracewrap_memStatsAfter.HeapAlloc) - int64(__tracewrap_memStatsBefore.HeapAlloc)]. *)
Definition heapAllocDiffExpr : expr :=
  BinaryExpr
    (CallExpr (Ident "int64")
       [SelectorExpr (Ident "__tracewrap_memStatsAfter") "HeapAlloc"])
    SUB
    (CallExpr (Ident "int64")
       [SelectorExpr (Ident "__tracewrap_memStatsBefore") "HeapAlloc"]).

Definition zeroLit : expr := BasicLit INT "0".

Definition newDefer (fnNameLit : string) : stmt :=
  DeferStmt (CallExpr
    (FuncLit []
       [ DeclStmt VAR
           [ ValueSpec ["__tracewrap_endCPUTime"]
               (Some (SelectorExpr (Ident "time") "Duration")) [zeroLit];
             ValueSpec ["__tracewrap_cpuTimeDiff"]
               (Some (SelectorExpr (Ident "time") "Duration")) [zeroLit];
             ValueSpec ["__tracewrap_memStatsAfter"]
               (Some (SelectorExpr (Ident "runtime") "MemStats"))
               [CompositeLit (SelectorExpr (Ident "runtime") "MemStats") []];
             ValueSpec ["__tracewrap_endGoroutines"] (Some (Ident "int"))
               [zeroLit];
             ValueSpec ["__tracewrap_endThreads"] (Some (Ident "int64"))
               [zeroLit];
             ValueSpec ["__tracewrap_endNetUsage"] (Some (Ident "int64"))
               [zeroLit];
             ValueSpec ["__tracewrap_endDiskUsage"] (Some (Ident "int64"))
               [zeroLit] ];
         AssignStmt [Ident "__tracewrap_endCPUTime"] ASSIGN
           [tracerCall "GetProcessCPUTime" []];
         AssignStmt [Ident "__tracewrap_cpuTimeDiff"] ASSIGN
           [BinaryExpr (Ident "__tracewrap_endCPUTime") SUB
              (Ident "__tracewrap_startCPUTime")];
         ExprStmt (runtimeCall "ReadMemStats"
           [UnaryExpr AND (Ident "__tracewrap_memStatsAfter")]);
         ExprStmt (tracerCall "RecordResourceUsage"
           [ BasicLit STRING fnNameLit;
             Ident "__tracewrap_cpuTimeDiff";
             heapAllocDiffExpr ]);
         AssignStmt [Ident "__tracewrap_endGoroutines"] ASSIGN
           [runtimeCall "NumGoroutine" []];
         ExprStmt (tracerCall "RecordGoroutineUsage"
           [ BasicLit STRING fnNameLit;
             BinaryExpr (Ident "__tracewrap_endGoroutines") SUB
               (Ident "__tracewrap_startGoroutines") ]);
         AssignStmt [Ident "__tracewrap_endThreads"] ASSIGN
           [runtimeCall "NumCgoCall" []];
         ExprStmt (tracerCall "RecordThreadUsage"
           [ BasicLit STRING fnNameLit;
             BinaryExpr (Ident "__tracewrap_endThreads") SUB
               (Ident "__tracewrap_startThreads") ]);
         AssignStmt [Ident "__tracewrap_memStatsAfter"] ASSIGN
           [CompositeLit (Ident "runtime.MemStats") []];
         ExprStmt (runtimeCall "ReadMemStats"
           [UnaryExpr AND (Ident "__tracewrap_memStatsAfter")]);
         ExprStmt (tracerCall "RecordGCActivity"
           [ BasicLit STRING fnNameLit;
             BinaryExpr
               (SelectorExpr (Ident "__tracewrap_memStatsAfter") "NumGC") SUB
               (SelectorExpr (Ident "__tracewrap_memStatsBefore") "NumGC") ]);
         ExprStmt (tracerCall "RecordHeapUsage"
           [ BasicLit STRING fnNameLit; heapAllocDiffExpr; zeroLit ]);
         AssignStmt [Ident "__tracewrap_endNetUsage"] ASSIGN
           [tracerCall "GetNetworkUsage" []];
         AssignStmt [Ident "__tracewrap_endDiskUsage"] ASSIGN
           [tracerCall "GetDiskUsage" []];
         ExprStmt (tracerCall "RecordIOUsage"
           [ BasicLit STRING fnNameLit;
             BinaryExpr (Ident "__tracewrap_endNetUsage") SUB
               (Ident "__tracewrap_startNetUsage");
             BinaryExpr (Ident "__tracewrap_endDiskUsage") SUB
               (Ident "__tracewrap_startDiskUsage") ]);
         ExprStmt (tracerCall "RecordExecutionFrequency"
           [BasicLit STRING fnNameLit]) ])
    []).

(** [newStmts], before the parameter logs are appended. *)
Definition newStmts (fnNameLit : string) : list stmt :=
  [ recoverStmt fnNameLit;
    startTimeDecl;
    startCPUTimeDecl;
    startGoroutinesDecl;
    startThreadsDecl;
    memStatsBeforeDecl;
    readMemStatsBefore;
    startNetUsageDecl;
    startDiskUsageDecl;
    deferExit fnNameLit;
    newDefer fnNameLit;
    recordEntryCall fnNameLit ].

(** *** The rewriting of return statements *)

(** The temporary [fmt.Sprintf("_ret%d", i)]. *)
Definition retName (i : nat) : string := "_ret" ++ pretty i.

(** [func transformReturnStmt(ret *ast.ReturnStmt, functionName string) ast.Stmt],
    on the results of [ret]. *)
Definition transformReturnStmt (results : list expr) (functionName : string)
    : stmt :=
  let assignments :=
    imap (fun i e => AssignStmt [Ident (retName i)] DEFINE [e]) results in
  let newIdents := imap (fun i _ => Ident (retName i)) results in
  let recordCall :=
    ExprStmt (tracerCall "RecordReturn"
      (BasicLit STRING (quoted functionName) :: newIdents)) in
  let newReturn := ReturnStmt newIdents in
  BlockStmt (assignments ++ [recordCall; newReturn]).

(** The loop over [s.Results] in the [*ast.ReturnStmt] case of
    [transformReturnsInStmt]: it returns the statement as it is at the
    first result that is a call expression or the identifier [nil]. *)
Fixpoint keepsReturn (results : list expr) : bool :=
  match results with
  | [] => false
  | CallExpr _ _ :: _ => true
  | Ident name :: rest => if String.eqb name "nil" then true else keepsReturn rest
  | _ :: rest => keepsReturn rest
  end.

(** [func transformReturnsInStmt(stmt ast.Stmt, functionName string) ast.Stmt];
    the blocks are rewritten by [transformReturnsInBlock], which maps it
    over [block.List]. *)
Fixpoint transformReturnsInStmt (s : stmt) (functionName : string) {struct s}
    : stmt :=
  match s with
  | BlockStmt l =>
      BlockStmt (List.map (fun x => transformReturnsInStmt x functionName) l)
  | IfStmt init cond body els =>
      IfStmt init cond
        (List.map (fun x => transformReturnsInStmt x functionName) body)
        (match els with
         | Some e => Some (transformReturnsInStmt e functionName)
         | None => None
         end)
  | ForStmt init cond post body =>
      ForStmt init cond post
        (List.map (fun x => transformReturnsInStmt x functionName) body)
  | ReturnStmt results =>
      if keepsReturn results then s
      else transformReturnStmt results functionName
  | _ => s
  end.

(** [func transformReturnsInBlock(block *ast.BlockStmt, functionName string) *ast.BlockStmt]. *)
Definition transformReturnsInBlock (block : list stmt) (functionName : string)
    : list stmt :=
  List.map (fun x => transformReturnsInStmt x functionName) block.

(** *** One function declaration

    The body of the loop over [f.Decls] in [instrumentFile]. *)
Definition instrumentFuncDecl (fn : FuncDecl) : FuncDecl :=
  match Body fn with
  | Some body =>
      if String.eqb (Name fn) "init" then fn
      else
        let fnNameLit := quoted (Name fn) in
        let body1 :=
          if String.eqb (Name fn) "main" && bool_decide (Recv fn = None)
          then (body ++ [dumpCallGraphStmt])%list else body in
        let body2 :=
          ((newStmts fnNameLit ++ paramLogs (Params fn)) ++ body1)%list in
        {| Name := Name fn; Recv := Recv fn; Params := Params fn;
           Results := Results fn;
           Body := Some (transformReturnsInBlock body2 (Name fn)) |}
  | None => fn
  end.

(** A top-level declaration: a function, or a general declaration
    (imports, types, variables), which the loop passes over. *)
Inductive Decl : Type :=
| FuncD (fn : FuncDecl)
| GenD (tok : token) (specs : list spec).

Definition instrumentDecls (decls : list Decl) : list Decl :=
  List.map (fun d =>
    match d with
    | FuncD fn => FuncD (instrumentFuncDecl fn)
    | GenD _ _ => d
    end) decls.

(** *** Deferred calls

    Go runs the deferred calls of an activation in the reverse of the
    order in which their [defer] statements were executed.  The stack of
    pending deferred calls has the most recent one first. *)

(** Executing a [defer] statement pushes its call; the other statements
    of a list without control flow leave the pending calls as they are. *)
Definition registerDefers (l : list stmt) (pending : list expr) : list expr :=
  fold_left (fun p s =>
    match s with
    | DeferStmt call => call :: p
    | _ => p
    end) l pending.

(** A statement that neither branches nor leaves the function. *)
Definition straightLine (s : stmt) : bool :=
  match s with
  | DeclStmt _ _ | ExprStmt _ | AssignStmt _ _ _ | DeferStmt _ => true
  | _ => false
  end.

(** The function of package [tracer] an expression calls, if it is such
    a call. *)
Definition tracerSel (e : expr) : option string :=
  match e with
  | CallExpr (SelectorExpr (Ident pkg) sel) _ =>
      if String.eqb pkg "tracer" then Some sel else None
  | _ => None
  end.

(** The recorder calls a statement makes as expression statements, in
    program order, those under an [if] included. *)
Fixpoint recorderCalls (s : stmt) : list string :=
  match s with
  | ExprStmt e => match tracerSel e with Some sel => [sel] | None => [] end
  | IfStmt _ _ body _ => flat_map recorderCalls body
  | BlockStmt l => flat_map recorderCalls l
  | _ => []
  end.

(** The recorder calls of a deferred call: the call itself, or those of
    the body of the function literal it calls. *)
Definition deferredRecorderCalls (call : expr) : list string :=
  match call with
  | CallExpr (FuncLit _ body) _ => flat_map recorderCalls body
  | _ => match tracerSel call with Some sel => [sel] | None => [] end
  end.

End Instrument.


(** ** Go's [strings] functions the two packages call *)

Module GoStrings.

#[local] Open Scope string_scope.

Definition backslash : ascii := "092"%char.
Definition dquote : ascii := "034"%char.
Definition slash : ascii := "047"%char.
Definition dot : ascii := "046"%char.

(** [strings.ReplaceAll(s, old, new)] for an [old] of one byte, the only
    use in the sources: every such byte is replaced. *)
Fixpoint ReplaceAll (s : string) (old : ascii) (new : string) : string :=
  match s with
  | EmptyString => EmptyString
  | String c rest =>
      if Ascii.eqb c old then new ++ ReplaceAll rest old new
      else String c (ReplaceAll rest old new)
  end.

(** [strings.HasPrefix(s, prefix)]. *)
Definition HasPrefix (s pre : string) : bool := String.prefix pre s.

(** [strings.HasSuffix(s, suffix)]:
    [len(s) >= len(suffix) && s[len(s)-len(suffix):] == suffix]. *)
Definition HasSuffix (s suffix : string) : bool :=
  (String.length suffix <=? String.length s)%nat
  && String.eqb
       (substring (String.length s - String.length suffix)
          (String.length suffix) s)
       suffix.

(** [strings.Contains(s, substr)]. *)
Fixpoint Contains (s substr : string) : bool :=
  String.prefix substr s
  || match s with
     | String _ rest => Contains rest substr
     | EmptyString => false
     end.

(** [strings.Trim(s, cutset)] for a cutset of one byte: the leading and
    the trailing bytes equal to it are removed. *)
Fixpoint TrimLeft (s : string) (c : ascii) : string :=
  match s with
  | String x rest => if Ascii.eqb x c then TrimLeft rest c else s
  | EmptyString => EmptyString
  end.

Fixpoint TrimRight (s : string) (c : ascii) : string :=
  match s with
  | EmptyString => EmptyString
  | String x rest =>
      match TrimRight rest c with
      | EmptyString => if Ascii.eqb x c then EmptyString
                       else String x EmptyString
      | r => String x r
      end
  end.

Definition Trim (s : string) (c : ascii) : string := TrimRight (TrimLeft s c) c.

(** [s[:n]] for [0 <= n <= len(s)]. *)
Definition sliceTo (s : string) (n : Z) : string := substring 0 (Z.to_nat n) s.

(** [len(s)], an [int]. *)
Definition len (s : string) : Z := Z.of_nat (String.length s).

End GoStrings.

(** ** Package [tracer]: the text of a node label

    The pieces of the label [DumpCallGraphDOT] writes for the parameters
    and the return values of a record. *)

Module TracerLabel.
Import GoStrings.

#[local] Open Scope string_scope.

(** [func min(a, b int) int]. *)
Definition min (a b : Z) : Z := if (a <? b)%Z then a else b.

Definition maxlabelLength : Z := 40.

(** The two nested calls of [strings.ReplaceAll] on the value:
    backslashes are doubled, then a backslash is put in front of every
    double quote. *)
Definition escapedValue (v : string) : string :=
  ReplaceAll
    (ReplaceAll v backslash (String backslash (String backslash EmptyString)))
    dquote (String backslash (String dquote EmptyString)).

(** [escapedValue[:min(len(escapedValue), maxlabelLength)]]. *)
Definition shownValue (v : string) : string :=
  sliceTo (escapedValue v) (min (len (escapedValue v)) maxlabelLength).

End TracerLabel.

(** ** Package [instrument], file [parse.go]: the graph written from a log *)

Module LogGraph.
Import GoStrings.

#[local] Open Scope string_scope.

(** [type TraceRecord struct] of [parse.go]: the fields are the texts
    found in the log. *)
Record TraceRecord : Type := {
  ID : string;
  FuncName : string;
  Duration : string;
  MemDiff : string;
  SysLoad : string;
  SysMem : string;
  Params : list string;
  Returns : list string
}.

(** [func concatenateAndTruncateString(stringSlice []string, length int) string].
    [None] is the run-time panic of the slice expression
    [concatenatedString[:length]] for a negative [length]. *)
Definition concatenateAndTruncateString (stringSlice : list string)
    (length : Z) : option string :=
  let concatenatedString := String.concat EmptyString stringSlice in
  if (length <? len concatenatedString)%Z then
    if (length <? 0)%Z then None else Some (sliceTo concatenatedString length)
  else Some concatenatedString.

(** The lines written to [callgraph.dot]. *)
Inductive Line : Type :=
| Open
| NodeStyle
| Node (id label : string)
| Edge (mainID id : string)
| Close.

(** The label of a record that is not [main]. *)
Definition label (rec : TraceRecord) : option string :=
  let label0 :=
    FuncName rec ++ String backslash "nID: " ++ ID rec
    ++ String backslash "nDuration: " ++ Duration rec
    ++ String backslash "nMemDiff: " ++ MemDiff rec
    ++ " bytes" ++ String backslash "nSysLoad: " ++ SysLoad rec
    ++ ", SysMem: " ++ SysMem rec ++ " bytes" in
  match
    (if (0 <? Z.of_nat (List.length (Params rec)))%Z
     then match concatenateAndTruncateString (Params rec) 20 with
          | Some paramsString =>
              Some (label0 ++ String backslash "nParams:" ++ paramsString
                    ++ String backslash "n")
          | None => None
          end
     else Some label0)
  with
  | Some label1 =>
      Some (if (0 <? Z.of_nat (List.length (Returns rec)))%Z
            then fold_left (fun l r => l ++ String backslash "n  " ++ r)
                   (Returns rec) (label1 ++ String backslash "nReturns:")
            else label1)
  | None => None
  end.

(** The first loop over [records]: [mainID] is overwritten by every
    record named [main], which gets no node; every other record gets
    one.  The result is the last [mainID] and the node lines. *)
Fixpoint nodeLoop (records : list TraceRecord) (mainID : string)
    : option (string * list Line) :=
  match records with
  | [] => Some (mainID, [])
  | rec :: rest =>
      if String.eqb (FuncName rec) "main" then nodeLoop rest (ID rec)
      else
        match label rec with
        | Some l =>
            match nodeLoop rest mainID with
            | Some (m, lines) => Some (m, Node (ID rec) l :: lines)
            | None => None
            end
        | None => None
        end
  end.

(** The second loop, run when [mainID] is not the empty string. *)
Definition edgeLoop (records : list TraceRecord) (mainID : string)
    : list Line :=
  flat_map (fun rec =>
    if String.eqb (FuncName rec) "main" then []
    else [Edge mainID (ID rec)]) records.

(** The part of [ParseLogAndGenerateCallGraph] after the scan of the
    log: from the records to the lines of the graph. *)
Definition writeCallGraph (records : list TraceRecord) : option (list Line) :=
  match nodeLoop records EmptyString with
  | Some (mainID, nodes) =>
      Some ([Open; NodeStyle] ++ nodes
            ++ (if String.eqb mainID EmptyString then []
                else edgeLoop records mainID)
            ++ [Close])%list
  | None => None
  end.

Definition nodesOf (lines : list Line) : list string :=
  flat_map (fun l => match l with Node id _ => [id] | _ => [] end) lines.

Definition edgesOf (lines : list Line) : list (string * string) :=
  flat_map (fun l => match l with Edge m id => [(m, id)] | _ => [] end) lines.

End LogGraph.

(** ** Package [instrument]: one file

    [instrumentFile] between the parser and the printer: the imports it
    ensures, the import paths it replaces, the functions it instruments
    and the declaration it adds to a [main.go]. *)

Module InstrumentFile.
Import GoStrings Instrument.

#[local] Open Scope string_scope.

(** [ast.ImportSpec]: the local name, if any, and [Path.Value], the
    quoted path ([None] for a nil [Path]). *)
Record ImportSpec : Type := {
  ImportName : option string;
  PathValue : option string
}.

(** An import specification inside a declaration.  [f.Imports] and the
    import declarations hold pointers to the same [ImportSpec] objects:
    a specification the parser made is its position in [f.Imports]; one
    that [ensureImport] made is in no list but the declaration's. *)
Inductive ImportRef : Type :=
| Parsed (i : nat)
| Added (pathValue : string).

(** A top-level declaration: [GenDecl] with [Tok == token.IMPORT], any
    other [GenDecl], or a [FuncDecl]. *)
Inductive FileDecl : Type :=
| ImportDecl (specs : list ImportRef)
| OtherGenDecl (tok : token) (specs : list spec)
| FuncDeclD (fn : FuncDecl).

(** [ast.File]: [f.Imports] and [f.Decls]. *)
Record File : Type := {
  Imports : list ImportSpec;
  Decls : list FileDecl
}.

(** The loop over [f.Imports] in [ensureImport]. *)
Definition found (pkg : string) (f : File) : bool :=
  existsb (fun imp =>
    match PathValue imp with
    | Some v => String.eqb v (quoted pkg)
    | None => false
    end) (Imports f).

(** The loop over [f.Decls] in [ensureImport]: the new specification is
    appended to the first import declaration, if there is one. *)
Fixpoint appendToImportDecl (newImport : ImportRef) (decls : list FileDecl)
    : option (list FileDecl) :=
  match decls with
  | [] => None
  | ImportDecl specs :: rest =>
      Some (ImportDecl (specs ++ [newImport])%list :: rest)
  | d :: rest =>
      match appendToImportDecl newImport rest with
      | Some rest' => Some (d :: rest')
      | None => None
      end
  end.

(** The closure [ensureImport] of [instrumentFile]. *)
Definition ensureImport (pkg : string) (f : File) : File :=
  if found pkg f then f
  else
    let newImport := Added (quoted pkg) in
    match appendToImportDecl newImport (Decls f) with
    | Some decls => {| Imports := Imports f; Decls := decls |}
    | None =>
        {| Imports := Imports f;
           Decls := ImportDecl [newImport] :: Decls f |}
    end.

(** The loop that replaces the import paths containing [ghost/tracer]
    by [DynamicTracerImport]; it goes over [f.Imports]. *)
Definition replaceGhostImports (dynamicTracerImport : string) (f : File)
    : File :=
  {| Imports :=
       List.map (fun imp =>
         match PathValue imp with
         | Some v =>
             if Contains v "ghost/tracer"
             then {| ImportName := ImportName imp;
                     PathValue := Some dynamicTracerImport |}
             else imp
         | None => imp
         end) (Imports f);
     Decls := Decls f |}.

(** [var _dummy = fmt.Sprintf(...)] applied to the empty string literal,
    which is written as two quotes. *)
Definition dummyDecl : FileDecl :=
  OtherGenDecl VAR
    [ValueSpec ["_dummy"] None
       [CallExpr (SelectorExpr (Ident "fmt") "Sprintf")
          [BasicLit STRING (quoted EmptyString)]]].

(** The value [SetDynamicTracerImport] gives to [DynamicTracerImport]. *)
Definition tracerImport : string :=
  quoted "github.com/mwiater/tracewrap/pkg/tracer".

(** [instrumentFile] on the parsed file: [dynamicTracerImport] is the
    package variable [DynamicTracerImport] at the time of the call. *)
Definition instrumentAST (dynamicTracerImport filePath : string) (f : File)
    : File :=
  let f := ensureImport "time" f in
  let f := ensureImport "fmt" f in
  let f := ensureImport "runtime/debug" f in
  let f := ensureImport "runtime" f in
  let tracerPkg := Trim dynamicTracerImport dquote in
  let f := ensureImport tracerPkg f in
  let f := replaceGhostImports dynamicTracerImport f in
  let decls :=
    List.map (fun decl =>
      match decl with
      | FuncDeclD fn => FuncDeclD (instrumentFuncDecl fn)
      | _ => decl
      end) (Decls f) in
  {| Imports := Imports f;
     Decls := if HasSuffix filePath "main.go"
              then (decls ++ [dummyDecl])%list else decls |}.

(** The path value of a specification of a declaration, through the
    shared objects. *)
Definition resolve (f : File) (ref : ImportRef) : option string :=
  match ref with
  | Parsed i =>
      match nth_error (Imports f) i with
      | Some imp => PathValue imp
      | None => None
      end
  | Added v => Some v
  end.

Definition importRefs (decls : list FileDecl) : list ImportRef :=
  flat_map (fun d =>
    match d with ImportDecl specs => specs | _ => [] end) decls.

(** The import paths the printer writes, in file order. *)
Definition importPaths (f : File) : list (option string) :=
  List.map (resolve f) (importRefs (Decls f)).

End InstrumentFile.

(** ** Package [instrument]: the walk over the workspace *)

Module Workspace.
Import GoStrings.

#[local] Open Scope string_scope.

(** A directory tree; the children of a directory are in the order in
    which [filepath.Walk] visits them (by name). *)
#[local] Unset Elimination Schemes.
Inductive entry : Type :=
| FileEntry (name : string)
| DirEntry (name : string) (children : list entry).
#[local] Set Elimination Schemes.

Definition entryName (e : entry) : string :=
  match e with FileEntry n => n | DirEntry n _ => n end.

Definition isDir (e : entry) : bool :=
  match e with FileEntry _ => false | DirEntry _ _ => true end.

(** [filepath.Ext(path)]: the text from the last dot of the last
    element of the path, empty when that element has no dot. *)
Fixpoint extScan (reversed : list ascii) (suffix : string) : string :=
  match reversed with
  | [] => EmptyString
  | c :: rest =>
      if Ascii.eqb c slash then EmptyString
      else if Ascii.eqb c dot then String c suffix
      else extScan rest (String c suffix)
  end.

Definition Ext (path : string) : string :=
  extScan (rev (list_ascii_of_string path)) EmptyString.

(** [filepath.Join(path, name)] for a clean path and a plain name. *)
Definition joinPath (path name : string) : string :=
  path ++ String slash name.

(** [filepath.Rel(workspace, path)] for the paths of the walk: [.] for
    the root, and below it the names from the root down. *)
Definition joinRel (rel name : string) : string :=
  if String.eqb rel "." then name else rel ++ String slash name.

(** What the callback of the walk returns: nil, [filepath.SkipDir], or
    an error. *)
Inductive walkError : Type :=
| PatternError (pattern : string)
| InstrumentError (path cause : string).

Inductive action : Type :=
| Proceed
| SkipDir
| Abort (err : walkError).

Section Walk.

(** [filepath.Match(pattern, name)]: whether the name matches, [None]
    for a malformed pattern. *)
Variable matchPattern : string -> string -> option bool.

(** [instrumentFile(path)]: the error, [None] for nil. *)
Variable instrumentFile : string -> option string.

(** [cfg.Instrumentation.Exclude]. *)
Variable exclude : list string.

(** The loop over the exclude patterns for one file. *)
Inductive verdict : Type :=
| Eligible
| Excluded
| BadPattern (pattern : string).

Fixpoint checkExclude (patterns : list string) (rel : string) : verdict :=
  match patterns with
  | [] => Eligible
  | pattern :: rest =>
      match matchPattern pattern rel with
      | None => BadPattern pattern
      | Some true => Excluded
      | Some false => checkExclude rest rel
      end
  end.

(** The function passed to [filepath.Walk] by [InstrumentWorkspace], for
    an entry that could be read: what it returns, and the files it has
    instrumented. *)
Definition visit (path rel : string) (dir : bool) : action * list string :=
  if HasPrefix rel "tracer" then
    (if dir then SkipDir else Proceed, [])
  else if negb dir && String.eqb (Ext path) ".go" then
    match checkExclude exclude rel with
    | BadPattern pattern => (Abort (PatternError pattern), [])
    | Excluded => (Proceed, [])
    | Eligible =>
        match instrumentFile path with
        | Some cause => (Abort (InstrumentError path cause), [])
        | None => (Proceed, [path])
        end
    end
  else (Proceed, []).

(** [filepath.Walk]: the function is called on a directory before its
    children; [SkipDir] from a directory skips its children, [SkipDir]
    from a file skips the rest of its directory, an error ends the walk. *)
Fixpoint walk (path rel : string) (e : entry) {struct e}
    : action * list string :=
  match e with
  | FileEntry _ => visit path rel false
  | DirEntry _ children =>
      match visit path rel true with
      | (Proceed, done) =>
          let fix walkChildren (l : list entry) : action * list string :=
            match l with
            | [] => (Proceed, [])
            | c :: rest =>
                match walk (joinPath path (entryName c))
                           (joinRel rel (entryName c)) c with
                | (Proceed, d) =>
                    let (a, d') := walkChildren rest in (a, (d ++ d')%list)
                | (SkipDir, d) =>
                    if isDir c
                    then let (a, d') := walkChildren rest in
                         (a, (d ++ d')%list)
                    else (SkipDir, d)
                | (Abort err, d) => (Abort err, d)
                end
            end in
          let (a, d') := walkChildren children in (a, (done ++ d')%list)
      | other => other
      end
  end.

(** [func InstrumentWorkspace(workspace string, cfg config.Config) error]
    on the tree [root] at [workspace]: the error returned, and the files
    instrumented. *)
Definition InstrumentWorkspace (workspace : string) (root : entry)
    : option walkError * list string :=
  match walk workspace "." root with
  | (Abort err, done) => (Some err, done)
  | (_, done) => (None, done)
  end.

End Walk.

End Workspace.

(** * Notions the properties are stated with *)

Module Spec.
Import Tracer.

Section Ids.

Context {value : Type}.

(** The unique id and the caller id of a record. *)
Definition idc (r : TraceRecord value) : Z * Z := (UniqueID r, CallerID r).

(** The records a state holds: those in flight and the completed ones. *)
Definition held (s : Recorder value) : list (TraceRecord value) :=
  callStack s ++ traceRecords s.

(** A list of ids that strictly increases from left to right. *)
Definition increasing (l : list Z) : Prop := StronglySorted Z.lt l.

(** The caller id of a record is present when it is not 0, the zero value
    of the field: the JSON tag is [omitempty] and [DumpCallGraphDOT]
    tests [rec.CallerID != 0]. *)
Definition hasCaller (r : TraceRecord value) : Prop := CallerID r <> 0.

(** The invariant of the id counter [n], the stack [st] and the aggregate
    list [ag], each record given by its id and caller id: ids lie in
    [1..n] and are pairwise distinct, the stack increases from bottom to
    top, and a caller id that is present is smaller than the record's own
    id and is the id of a held record. *)
Record ids_ok (n : Z) (st ag : list (Z * Z)) : Prop := {
  ok_counter : 0 <= n;
  ok_range : Forall (fun p => 1 <= p.1 <= n) (st ++ ag);
  ok_nodup : NoDup ((st ++ ag).*1);
  ok_stack : increasing (st.*1);
  ok_caller :
    Forall (fun p => p.2 = 0 \/ (p.2 < p.1 /\ p.2 ∈ (st ++ ag).*1)) (st ++ ag)
}.

Definition consistent (s : Recorder value) : Prop :=
  ids_ok (uniqueID s) (idc <$> callStack s) (idc <$> traceRecords s).

(** The stack holds at most one record and the ids of the aggregate
    list followed by the stack increase. *)
Definition flat_ok (s : Recorder value) : Prop :=
  (length (callStack s) <= 1)%nat /\
  increasing (UniqueID <$> traceRecords s ++ callStack s).

End Ids.

(** The order of the aggregate list, each record given by its id and
    its caller id, in append order, for the ids [st] on the stack: a
    caller id that is present is the id of a record on the stack or of
    a record further on in the list.  A record is appended when it
    exits, which is before the record of its caller exits. *)
Fixpoint callersAfter (st : list Z) (ag : list (Z * Z)) : Prop :=
  match ag with
  | [] => True
  | p :: ag' => (p.2 = 0 \/ p.2 ∈ st \/ p.2 ∈ ag'.*1) /\ callersAfter st ag'
  end.

Section Unwinding.

Context {value : Type}.

(** The figures the deferred blocks of one activation pass to the
    recorder, and the readings [RecordExit] takes. *)
Record ExitReadings : Type := {
  cpuTimeDiff : Z;
  heapAllocDiff : Z;
  goroutinesDelta : Z;
  threadsDelta : Z;
  gcRuns : Z;
  heapAllocDiff' : Z;
  netDelta : Z;
  diskDelta : Z;
  startTime : Z;
  exitNow : Z;
  memAfter : Z;
  load : float64;
  sysMem : Z
}.

(** The recorder calls of one activation of an instrumented function
    [fn] when it leaves, with no other goroutine in between: the block
    of resource figures, the deferred [RecordExit], and, when the
    activation unwinds with the value [v] and [recover()] returns it, the
    [RecordPanic] of the recovery block with the captured stack text. *)
Definition unwindOps (fn : string) (e : ExitReadings)
    (fault : option (value * string)) : list (Op value) :=
  [ OpResourceUsage fn (cpuTimeDiff e) (heapAllocDiff e);
    OpGoroutineUsage fn (goroutinesDelta e);
    OpThreadUsage fn (threadsDelta e);
    OpGCActivity fn (gcRuns e);
    OpHeapUsage fn (heapAllocDiff' e) 0;
    OpIOUsage fn (netDelta e) (diskDelta e);
    OpExecutionFrequency fn;
    OpExit fn (startTime e) (exitNow e) (memAfter e) (load e) (sysMem e) ]
  ++ match fault with
     | Some (v, stack) => [OpPanic fn v stack]
     | None => []
     end.

End Unwinding.

Section Rewrite.

Import Instrument.

(** A result expression that makes the engine leave a return as it is. *)
Definition callOrNil (e : expr) : Prop :=
  (exists fn args, e = CallExpr fn args) \/ e = Ident "nil".

(** The temporaries [_ret0], ..., [_ret(n-1)]. *)
Definition temps (n : nat) : list expr :=
  (fun i => Ident (retName i)) <$> seq 0 n.

(** The block a return statement is replaced with: each result bound to
    its temporary, the return-record call with the function name and
    the temporaries, the return of the temporaries. *)
Definition recordedReturn (functionName : string) (results : list expr)
    : stmt :=
  let ts := temps (length results) in
  BlockStmt
    (zip_with (fun t e => AssignStmt [t] DEFINE [e]) ts results
     ++ [ ExprStmt (CallExpr (SelectorExpr (Ident "tracer") "RecordReturn")
                      (BasicLit STRING (quoted functionName) :: ts));
          ReturnStmt ts ]).

(** A return statement occurs in [s], under statements of any kind.
    The statements inside a function literal belong to that function
    and are not looked at: a return there is not a return of [s]. *)
Fixpoint hasReturn (s : stmt) : bool :=
  match s with
  | ReturnStmt _ => true
  | LabeledStmt _ s1 => hasReturn s1
  | BlockStmt l => existsb hasReturn l
  | IfStmt init _ body els =>
      match init with Some i => hasReturn i | None => false end
      || existsb hasReturn body
      || match els with Some e => hasReturn e | None => false end
  | CaseClause _ body => existsb hasReturn body
  | SwitchStmt init _ body =>
      match init with Some i => hasReturn i | None => false end
      || existsb hasReturn body
  | TypeSwitchStmt init assign body =>
      match init with Some i => hasReturn i | None => false end
      || hasReturn assign || existsb hasReturn body
  | CommClause comm body =>
      match comm with Some c => hasReturn c | None => false end
      || existsb hasReturn body
  | SelectStmt body => existsb hasReturn body
  | ForStmt init _ post body =>
      match init with Some i => hasReturn i | None => false end
      || match post with Some p => hasReturn p | None => false end
      || existsb hasReturn body
  | RangeStmt _ _ _ _ body => existsb hasReturn body
  | DeclStmt _ _ | EmptyStmt | ExprStmt _ | SendStmt _ _ | IncDecStmt _ _
  | AssignStmt _ _ _ | GoStmt _ | DeferStmt _ | BranchStmt _ _ => false
  end.

(** A statement that is neither a block, an [if], a three-clause [for]
    nor a return: the [default] case of [transformReturnsInStmt]. *)
Definition other (s : stmt) : bool :=
  match s with
  | BlockStmt _ | IfStmt _ _ _ _ | ForStmt _ _ _ _ | ReturnStmt _ => false
  | _ => true
  end.

(** A statement whose return statements are nested through blocks,
    [if]/[else] and three-clause [for] statements only: no return
    statement occurs inside a statement of another kind (a [range]
    loop, a [switch], a [select], a labeled statement), nor in the
    initialization of an [if] or in the initialization and the post
    statement of a [for].  Statements of every kind may occur, as long
    as those hold no return. *)
Fixpoint covered (s : stmt) : bool :=
  match s with
  | BlockStmt l => forallb covered l
  | IfStmt init _ body els =>
      negb (match init with Some i => hasReturn i | None => false end)
      && forallb covered body
      && match els with Some e => covered e | None => true end
  | ForStmt init _ post body =>
      negb (match init with Some i => hasReturn i | None => false end)
      && negb (match post with Some p => hasReturn p | None => false end)
      && forallb covered body
  | ReturnStmt _ => true
  | _ => negb (hasReturn s)
  end.

(** The rewriting of the returns of a covered statement: a return with a
    call or [nil] among its results stays, any other return becomes its
    recording block, the blocks, [if] and [for] statements around them
    keep their shape, and a statement of another kind, which holds no
    return, stays as it is. *)
#[local] Unset Elimination Schemes.
Inductive Rewritten (functionName : string) : stmt -> stmt -> Prop :=
| RwKept results :
    Exists callOrNil results ->
    Rewritten functionName (ReturnStmt results) (ReturnStmt results)
| RwRecorded results :
    Forall (fun e => ~ callOrNil e) results ->
    Rewritten functionName (ReturnStmt results)
      (recordedReturn functionName results)
| RwBlock l l' :
    Forall2 (Rewritten functionName) l l' ->
    Rewritten functionName (BlockStmt l) (BlockStmt l')
| RwIf init cond body body' els els' :
    Forall2 (Rewritten functionName) body body' ->
    option_Forall2 (Rewritten functionName) els els' ->
    Rewritten functionName (IfStmt init cond body els)
      (IfStmt init cond body' els')
| RwFor init cond post body body' :
    Forall2 (Rewritten functionName) body body' ->
    Rewritten functionName (ForStmt init cond post body)
      (ForStmt init cond post body')
| RwOther s :
    other s = true ->
    hasReturn s = false ->
    Rewritten functionName s s.
#[local] Set Elimination Schemes.

End Rewrite.

(** The values a rewritten return statement returns.  The statements
    [transformReturnStmt] emits are short variable declarations, one
    call into the recorder and a return; this is their meaning in Go,
    over any evaluation of expressions. *)
Section Meaning.

Import Instrument.

(** [V] are the values of the program, [W] the state expressions read
    and change (memory, channels, output). *)
Context {V W : Type}.

(** The evaluation of an expression with the variables in scope: its
    value and the state after it, if it has a value. *)
Variable evalExpr : W -> gmap string V -> expr -> option (V * W).

(** The operands of a list are evaluated from left to right. *)
Fixpoint evalResults (w : W) (vars : gmap string V) (results : list expr)
    : option (list V * W) :=
  match results with
  | [] => Some ([], w)
  | e :: rest =>
      match evalExpr w vars e with
      | Some (v, w1) =>
          match evalResults w1 vars rest with
          | Some (vs, w2) => Some (v :: vs, w2)
          | None => None
          end
      | None => None
      end
  end.

(** A list of statements that ends in a return: [x := e] evaluates [e]
    and declares [x] in the block, in front of any outer variable of the
    same name; a call into package [tracer] changes the recorder only;
    [return] evaluates its results. *)
Fixpoint returnedBy (w : W) (vars : gmap string V) (l : list stmt)
    : option (list V * W) :=
  match l with
  | AssignStmt [Ident x] DEFINE [e] :: l' =>
      match evalExpr w vars e with
      | Some (v, w1) => returnedBy w1 (<[x := v]> vars) l'
      | None => None
      end
  | ExprStmt call :: l' =>
      match tracerSel call with
      | Some _ => returnedBy w vars l'
      | None => None
      end
  | ReturnStmt results :: _ => evalResults w vars results
  | _ => None
  end.

(** The values returned by a return statement, or by the block it was
    rewritten to. *)
Definition returned (w : W) (vars : gmap string V) (s : stmt)
    : option (list V * W) :=
  match s with
  | ReturnStmt results => evalResults w vars results
  | BlockStmt l => returnedBy w vars l
  | _ => None
  end.

End Meaning.

Section Occurrence.

Import Instrument.

(** Whether the identifier [x] may be read by an expression; a function
    literal may read any identifier. *)
Fixpoint occurs (x : string) (e : expr) : bool :=
  match e with
  | Ident y => String.eqb x y
  | BasicLit _ _ => false
  | CompositeLit ty elts => occurs x ty || existsb (occurs x) elts
  | FuncLit _ _ => true
  | ParenExpr e1 | StarExpr e1 | UnaryExpr _ e1 | SelectorExpr e1 _ =>
      occurs x e1
  | IndexExpr e1 e2 | BinaryExpr e1 _ e2 => occurs x e1 || occurs x e2
  | TypeAssertExpr e1 ty =>
      occurs x e1 || match ty with Some t => occurs x t | None => false end
  | CallExpr fn args => occurs x fn || existsb (occurs x) args
  end.

(** An evaluation of integer expressions without effects: variables,
    parentheses and subtraction. *)
Fixpoint intValue (vars : gmap string Z) (e : expr) : option Z :=
  match e with
  | Ident x => vars !! x
  | ParenExpr e1 => intValue vars e1
  | BinaryExpr e1 SUB e2 =>
      match intValue vars e1, intValue vars e2 with
      | Some a, Some b => Some (a - b)
      | _, _ => None
      end
  | _ => None
  end.

Definition intEval (w : unit) (vars : gmap string Z) (e : expr)
    : option (Z * unit) :=
  match intValue vars e with Some v => Some (v, w) | None => None end.

End Occurrence.

(** Concrete records, runs and functions the properties are tried on.
    Values are strings, rendered as they are. *)
Section Samples.

Definition sampleLabel (r : TraceRecord string) : string := FunctionName r.

Definition sampleRun (ops : list (Op string)) : Recorder string :=
  run id sampleLabel ops initial.

(** [main] calls [f], [f] returns, [main] returns. *)
Definition nestedRun : list (Op string) :=
  [ OpEntry "main" 10 0; OpEntry "f" 20 0;
    OpExit "f" 20 30 0 0 0; OpExit "main" 10 40 0 0 0 ].

(** [f] is called twice in a row, from no traced function. *)
Definition flatRun : list (Op string) :=
  [ OpEntry "f" 10 0; OpParam "n" "1"; OpReturn "f" ["2"];
    OpExit "f" 10 20 0 0 0;
    OpEntry "f" 30 0; OpParam "n" "2"; OpReturn "f" ["3"];
    OpExit "f" 30 40 0 0 0 ].

(** [main] calls [a] and then [b], and is still running: the state in
    which the instrumented [main] calls [DumpCallGraphDOT]. *)
Definition activeRun : list (Op string) :=
  [ OpEntry "main" 10 0;
    OpEntry "a" 20 0; OpExit "a" 20 30 0 0 0;
    OpEntry "b" 40 0; OpExit "b" 40 50 0 0 0 ].

(** The same run, and [main] has returned: three completed records. *)
Definition completeRun : list (Op string) :=
  activeRun ++ [OpExit "main" 10 60 0 0 0].

Definition sampleReadings : ExitReadings :=
  {| cpuTimeDiff := 5; heapAllocDiff := 64; goroutinesDelta := 0;
     threadsDelta := 0; gcRuns := 0; heapAllocDiff' := 64; netDelta := 0;
     diskDelta := 0; startTime := 20; exitNow := 30; memAfter := 0;
     load := 0; sysMem := 0 |}.

End Samples.

Section SampleFunctions.

Import Instrument.

(** [func add(a, b int) int { return a + b }]. *)
Definition addDecl : FuncDecl :=
  {| Name := "add"; Recv := None;
     Params := Some [Field ["a"; "b"] (Ident "int")];
     Results := Some [Field [] (Ident "int")];
     Body := Some [ReturnStmt
                     [BinaryExpr (Ident "a") (OtherToken "+") (Ident "b")]] |}.

(** [if b == 0 { return 0, fmt.Errorf(...) }; return a / b, nil], the
    body of [divide] in [examples/simple/main.go], as one block. *)
Definition divideBody : stmt :=
  BlockStmt
    [ IfStmt None (BinaryExpr (Ident "b") (OtherToken "==") (BasicLit INT "0"))
        [ReturnStmt
           [ BasicLit INT "0";
             CallExpr (SelectorExpr (Ident "fmt") "Errorf")
               [BasicLit STRING (quoted "cannot divide by zero")] ]]
        None;
      ReturnStmt
        [BinaryExpr (Ident "a") (OtherToken "/") (Ident "b"); Ident "nil"] ].

(** The body of
    [func find(xs []int, t int) int {
       for _, x := range xs { total += x }
       for i := 0; i < n; i++ {
         if xs[i] == t { return i } else if i > t { return limit(i) }
       }
       return -1
     }]:
    a [range] loop without a return, a return under [for] and [if], a
    return of a call under [else], and a last return. *)
Definition findBody : stmt :=
  BlockStmt
    [ RangeStmt (Some (Ident "_")) (Some (Ident "x")) DEFINE (Ident "xs")
        [AssignStmt [Ident "total"] (OtherToken "+=") [Ident "x"]];
      ForStmt
        (Some (AssignStmt [Ident "i"] DEFINE [BasicLit INT "0"]))
        (Some (BinaryExpr (Ident "i") (OtherToken "<") (Ident "n")))
        (Some (IncDecStmt (Ident "i") (OtherToken "++")))
        [ IfStmt None
            (BinaryExpr (IndexExpr (Ident "xs") (Ident "i"))
               (OtherToken "==") (Ident "t"))
            [ReturnStmt [Ident "i"]]
            (Some (IfStmt None
                     (BinaryExpr (Ident "i") (OtherToken ">") (Ident "t"))
                     [ReturnStmt [CallExpr (Ident "limit") [Ident "i"]]]
                     None)) ];
      ReturnStmt [UnaryExpr SUB (BasicLit INT "1")] ].

(** [func g(a, _ret0 int) (int, int) { return a, _ret0 }], and the
    variables in scope in the call [g(1, 2)]. *)
Definition shadowDecl : FuncDecl :=
  {| Name := "g"; Recv := None;
     Params := Some [Field ["a"; "_ret0"] (Ident "int")];
     Results := Some [Field [] (Ident "int"); Field [] (Ident "int")];
     Body := Some [ReturnStmt [Ident "a"; Ident "_ret0"]] |}.

Definition shadowVars : gmap string Z := <["a" := 1]> (<["_ret0" := 2]> ∅).

(** [for _, x := range xs { return x }]. *)
Definition rangeReturn : stmt :=
  RangeStmt (Some (Ident "_")) (Some (Ident "x")) DEFINE (Ident "xs")
    [ReturnStmt [Ident "x"]].

End SampleFunctions.

End Spec.

(** * Further notions: the life of a record *)

Module Notions.
Import Tracer.

Section Records.

Context {value : Type}.

(** An operation other than [RecordEntry] and [RecordExit]. *)
Definition quiet (op : Op value) : bool :=
  match op with
  | OpEntry _ _ _ | OpExit _ _ _ _ _ _ => false
  | _ => true
  end.

(** What [RecordEntry] writes on a record. *)
Definition entryFields (r : TraceRecord value) : Z * string * Z * Z * Z :=
  (UniqueID r, FunctionName r, CallerID r, EntryTime r, MemBefore r).

(** A record [RecordExit] has not written on: its exit fields have
    their zero value. *)
Definition pending (r : TraceRecord value) : Prop :=
  ExitTime r = 0 /\ Duration r = 0 /\ MemAfter r = 0 /\ MemDiff r = 0 /\
  SystemCPULoad r = 0 /\ SystemMemUsage r = 0.

(** A record update that leaves alone what [RecordEntry] wrote and the
    exit fields. *)
Definition keeps (f : TraceRecord value -> TraceRecord value) : Prop :=
  forall r, entryFields (f r) = entryFields r /\ (pending r -> pending (f r)).

(** The exit fields of a completed record agree with each other: the
    duration is the saturated difference of its two times, the memory
    difference is floored at zero. *)
Definition completed (r : TraceRecord value) : Prop :=
  Duration r = time_Sub (ExitTime r) (EntryTime r) /\
  MemDiff r = (if decide (MemBefore r < MemAfter r)
               then sub_uint64 (MemAfter r) (MemBefore r) else 0) /\
  0 <= MemDiff r < 2 ^ 64 /\
  min_int64 <= Duration r <= max_int64 /\
  (EntryTime r <= ExitTime r -> 0 <= Duration r).

(** A call chain, from the bottom of the stack: each record names the
    record below it as its caller, the first one names [below]. *)
Fixpoint chained (below : Z) (st : list (Z * Z)) : Prop :=
  match st with
  | [] => True
  | p :: st' => p.2 = below /\ chained p.1 st'
  end.

(** The number of [RecordExecutionFrequency] calls for [fn] in a run. *)
Fixpoint frequencyCalls (fn : string) (ops : list (Op value)) : nat :=
  match ops with
  | [] => 0%nat
  | OpExecutionFrequency fn' :: ops' =>
      if decide (fn' = fn) then S (frequencyCalls fn ops')
      else frequencyCalls fn ops'
  | _ :: ops' => frequencyCalls fn ops'
  end.

(** The counter kept for [fn], a missing key read as 0. *)
Definition frequency (s : Recorder value) (fn : string) : Z :=
  default 0 (execFrequency s !! fn).

(** The top record of a state, if the stack is not empty. *)
Definition topRecord (s : Recorder value) : option (TraceRecord value) :=
  top_of (callStack s).

End Records.

Section Rewriting.

Import Instrument.

(** The names of the declared parameters, in declaration order; a
    parameter without a name has none. *)
Definition paramNames (params : option (list field)) : list string :=
  match params with
  | Some l => flat_map field_names l
  | None => []
  end.

(** The return statements the traversal reaches (through blocks, [if]
    with [else], and [for]) that it rewrites: those without a call or
    [nil] among their results. *)
Fixpoint rewrittenReturns (s : stmt) : nat :=
  match s with
  | BlockStmt l => list_sum (List.map rewrittenReturns l)
  | IfStmt _ _ body els =>
      (list_sum (List.map rewrittenReturns body)
       + match els with Some e => rewrittenReturns e | None => 0 end)%nat
  | ForStmt _ _ _ body => list_sum (List.map rewrittenReturns body)
  | ReturnStmt results => if keepsReturn results then 0%nat else 1%nat
  | _ => 0%nat
  end.

(** The calls of [tracer.RecordReturn] made as statements, in the same
    places. *)
Fixpoint returnRecordCalls (s : stmt) : nat :=
  match s with
  | BlockStmt l => list_sum (List.map returnRecordCalls l)
  | IfStmt _ _ body els =>
      (list_sum (List.map returnRecordCalls body)
       + match els with Some e => returnRecordCalls e | None => 0 end)%nat
  | ForStmt _ _ _ body => list_sum (List.map returnRecordCalls body)
  | ExprStmt e =>
      match tracerSel e with
      | Some sel => if String.eqb sel "RecordReturn" then 1%nat else 0%nat
      | None => 0%nat
      end
  | _ => 0%nat
  end.

End Rewriting.

End Notions.

(** * Further notions: label texts and the graph written from a log *)

Module TextNotions.
Import GoStrings.

#[local] Open Scope string_scope.

(** What the two replacements of [DumpCallGraphDOT] make of one byte: a
    backslash in front of a backslash and of a double quote, every
    other byte as it is. *)
Definition escapeByte (c : ascii) : string :=
  if Ascii.eqb c backslash then String backslash (String backslash EmptyString)
  else if Ascii.eqb c dquote then String backslash (String dquote EmptyString)
  else String c EmptyString.

(** A record of the log named [main]. *)
Definition isMain (rec : LogGraph.TraceRecord) : bool :=
  String.eqb (LogGraph.FuncName rec) "main".

(** The id of the last record named [main], the empty string when there
    is none. *)
Definition mainIDOf (records : list LogGraph.TraceRecord) : string :=
  from_option LogGraph.ID EmptyString
    (last (filter (fun rec => isMain rec = true) records)).

End TextNotions.

(** * Further notions: the declarations of a file *)

Module FileNotions.
Import GoStrings Instrument InstrumentFile.

#[local] Open Scope string_scope.

(** An import path after the replacement loop. *)
Definition replaced (dynamicTracerImport : string) (v : option string)
    : option string :=
  match v with
  | Some v =>
      if Contains v "ghost/tracer" then Some dynamicTracerImport else Some v
  | None => None
  end.

(** The packages [instrumentFile] calls [ensureImport] for, in order. *)
Definition ensured (dynamicTracerImport : string) : list string :=
  ["time"; "fmt"; "runtime/debug"; "runtime"; Trim dynamicTracerImport dquote].

(** The calls of [ensureImport] in a row. *)
Definition ensureAll (pkgs : list string) (f : File) : File :=
  fold_left (fun f pkg => ensureImport pkg f) pkgs f.

(** The ensured packages that [f.Imports] does not have. *)
Definition missing (dynamicTracerImport : string) (f : File) : list string :=
  List.filter (fun pkg => negb (found pkg f)) (ensured dynamicTracerImport).

(** A file as the parser gives it: the import declarations hold the
    specifications of [f.Imports], in order, and no other. *)
Definition parsedFile (f : File) : Prop :=
  importRefs (Decls f) = Parsed <$> seq 0 (length (Imports f)).

Definition isImportDecl (d : FileDecl) : bool :=
  match d with ImportDecl _ => true | _ => false end.

(** The number of import declarations. *)
Definition importDecls (decls : list FileDecl) : nat :=
  length (List.filter isImportDecl decls).

(** The function declarations, in file order. *)
Definition funcsOf (decls : list FileDecl) : list FuncDecl :=
  flat_map (fun d => match d with FuncDeclD fn => [fn] | _ => [] end) decls.

(** The general declarations other than imports, in file order. *)
Definition othersOf (decls : list FileDecl) : list FileDecl :=
  List.filter (fun d => match d with OtherGenDecl _ _ => true | _ => false end)
    decls.

End FileNotions.

(** * Further notions: the files of a tree *)

Module WalkNotions.
Import GoStrings Workspace.

#[local] Open Scope string_scope.

(** Every file of a tree with its path and its path relative to the
    workspace, in the order of the walk. *)
Fixpoint files (path rel : string) (e : entry) : list (string * string) :=
  match e with
  | FileEntry _ => [(path, rel)]
  | DirEntry _ children =>
      flat_map (fun c => files (joinPath path (entryName c))
                           (joinRel rel (entryName c)) c) children
  end.

(** A file the callback looks at: its relative path does not begin with
    [tracer] and its extension is [.go]. *)
Definition candidate (file : string * string) : bool :=
  negb (HasPrefix file.2 "tracer") && String.eqb (Ext file.1) ".go".

(** What [InstrumentWorkspace] returns for the result of the walk. *)
Definition outcome (r : action * list string)
    : option walkError * list string :=
  match r with
  | (Abort err, done) => (Some err, done)
  | (_, done) => (None, done)
  end.

Section Pass.

Variable matchPattern : string -> string -> option bool.
Variable instrumentFile : string -> option string.
Variable exclude : list string.

(** One pass over a list of files, each with its relative path: a file
    that matches an exclude pattern is passed over, the others are
    instrumented, and the first error ends the pass. *)
Fixpoint process (l : list (string * string))
    : option walkError * list string :=
  match l with
  | [] => (None, [])
  | (path, rel) :: rest =>
      match checkExclude matchPattern exclude rel with
      | BadPattern pattern => (Some (PatternError pattern), [])
      | Excluded => process rest
      | Eligible =>
          match instrumentFile path with
          | Some cause => (Some (InstrumentError path cause), [])
          | None => let (err, done) := process rest in (err, path :: done)
          end
      end
  end.

End Pass.

End WalkNotions.

(** * Further samples *)

Module MoreSamples.
Import Tracer Spec.

(** A state with one active record, as [RecordEntry] leaves it for a
    first call of [f] at time 10. *)
Definition activeRecord : TraceRecord string :=
  {| UniqueID := 1; FunctionName := "f"; CallerID := 0;
     EntryTime := 10; ExitTime := 0; Duration := 0; Params := ∅;
     ReturnValues := []; MemBefore := 0; MemAfter := 0; MemDiff := 0;
     PanicValue := None; StackTrace := EmptyString; GoroutinesDelta := 0;
     ThreadsDelta := 0; GCCountDelta := 0; HeapAllocDelta := 0;
     HeapFreeDelta := 0; NetUsageDelta := 0; DiskUsageDelta := 0;
     SystemCPULoad := 0; SystemMemUsage := 0 |}.

Definition oneActive : Recorder string :=
  {| traceRecords := []; callStack := [activeRecord]; uniqueID := 1;
     execFrequency := ∅; logged := [] |}.

(** Two calls of [f] and one of [g], with the frequency calls of their
    deferred blocks. *)
Definition countedRun : list (Op string) :=
  [ OpEntry "f" 10 0; OpExecutionFrequency "f"; OpExit "f" 10 20 0 0 0;
    OpEntry "g" 30 0; OpExecutionFrequency "g"; OpExit "g" 30 40 0 0 0;
    OpEntry "f" 50 0; OpExecutionFrequency "f"; OpExit "f" 50 60 0 0 0 ].

End MoreSamples.

(** Files and trees the further properties are tried on. *)
Module FileSamples.
Import GoStrings Instrument InstrumentFile Workspace.

#[local] Open Scope string_scope.

(** A file that imports [fmt] and [example.com/ghost/tracer] in one
    declaration and declares the function [add]. *)
Definition ghostFile : File :=
  {| Imports :=
       [ {| ImportName := None; PathValue := Some (quoted "fmt") |};
         {| ImportName := None;
            PathValue := Some (quoted "example.com/ghost/tracer") |} ];
     Decls := [ImportDecl [Parsed 0; Parsed 1]; FuncDeclD Spec.addDecl] |}.

(** [pkg/tracer/t.go] and [pkg/a.txt], below the workspace. *)
Definition pkgTree : entry :=
  DirEntry "pkg" [FileEntry "a.txt"; DirEntry "tracer" [FileEntry "t.go"]].

(** A workspace with [main.go], the directory [pkg] above, a directory
    [tracer] and a file [tracer_test.go]. *)
Definition sampleWorkspace : entry :=
  DirEntry "ws"
    [ FileEntry "main.go"; pkgTree; DirEntry "tracer" [FileEntry "x.go"];
      FileEntry "tracer_test.go" ].

(** No exclude pattern matches, and every file can be instrumented. *)
Definition matchNothing (pattern name : string) : option bool := Some false.

Definition instrumentOk (path : string) : option string := None.

End FileSamples.
(** * Properties of the recorder *)

Module TracerFacts.
Import Tracer.

Section Stack.

Context {value : Type}.
Implicit Types (st : list (TraceRecord value)) (s : Recorder value).

Lemma top_of_snoc st r : top_of (st ++ [r]) = Some r.
Proof. apply last_snoc. Qed.

Lemma pop_of_snoc st r : pop_of (st ++ [r]) = st.
Proof. apply removelast_last. Qed.

Lemma top_of_nil_inv st : top_of st = None -> st = [].
Proof. apply last_None. Qed.

Lemma stack_cases st : st = [] \/ exists st0 top, st = st0 ++ [top].
Proof.
  destruct st as [|r st] using rev_ind; [by left|right; eauto].
Qed.

Lemma on_top_empty (f : TraceRecord value -> TraceRecord value) s :
  callStack s = [] -> on_top f s = s.
Proof. unfold on_top. intros ->. reflexivity. Qed.

Lemma on_top_snoc (f : TraceRecord value -> TraceRecord value) s st0 top :
  callStack s = st0 ++ [top] ->
  on_top f s = set_callStack (st0 ++ [f top]) s.
Proof.
  unfold on_top. intros ->. by rewrite top_of_snoc, pop_of_snoc.
Qed.

Lemma stored_println line s : stored (println line s) = stored s.
Proof. reflexivity. Qed.

End Stack.

Section NoOps.

Context {value : Type}.
Variable fmt_v : value -> string.
Implicit Types (s : Recorder value).

(** On an empty stack [RecordExit] does nothing at all: the whole body is
    under [if len(callStack) > 0], the log lines included. *)
Lemma RecordExit_empty s fn startTime now memAfter load sysMem :
  callStack s = [] ->
  RecordExit fn startTime now memAfter load sysMem s = s.
Proof. unfold RecordExit. intros ->. reflexivity. Qed.

(** The other three print their line also when the stack is empty. *)
Lemma RecordPanic_empty_logged s fn v stack :
  callStack s = [] ->
  logged (RecordPanic fn v stack s) = logged s ++ [LogPanic fn v stack].
Proof. intros H. unfold RecordPanic. by rewrite on_top_empty. Qed.

(** C7: when the call stack is empty, [RecordParam], [RecordReturn],
    [RecordExit] and [RecordPanic] leave everything the recorder stores
    as it was: the stack (still empty), the aggregate list, the id
    counter and the frequency map. *)
Theorem empty_stack_operations_keep_state s :
  callStack s = [] ->
  (forall paramName v, stored (RecordParam fmt_v paramName v s) = stored s) /\
  (forall fn returns, stored (RecordReturn fmt_v fn returns s) = stored s) /\
  (forall fn startTime now memAfter load sysMem,
     stored (RecordExit fn startTime now memAfter load sysMem s) = stored s) /\
  (forall fn v stack, stored (RecordPanic fn v stack s) = stored s).
Proof.
  intros Hempty. repeat split; intros.
  - unfold RecordParam. by rewrite stored_println, on_top_empty.
  - unfold RecordReturn. by rewrite stored_println, on_top_empty.
  - by rewrite RecordExit_empty.
  - unfold RecordPanic. by rewrite stored_println, on_top_empty.
Qed.

(** C9: [RecordResourceUsage] stores nothing; it appends one log line. *)
Theorem RecordResourceUsage_keeps_state s fn cpuTimeDiff heapAllocDiff :
  stored (RecordResourceUsage fn cpuTimeDiff heapAllocDiff s) = stored s /\
  logged (RecordResourceUsage fn cpuTimeDiff heapAllocDiff s)
  = logged s ++ [LogResourceUsage fn cpuTimeDiff heapAllocDiff].
Proof. split; reflexivity. Qed.

(** C10: on a non-empty stack, what [RecordExit] stores does not depend
    on [functionName] and [startTime]: both calls pop the same top record
    and append the same finalized record, whose duration is taken from
    the record's own entry time. *)
Theorem RecordExit_ignores_name_and_startTime s fn1 startTime1 fn2 startTime2
    now memAfter load sysMem :
  callStack s <> [] ->
  stored (RecordExit fn1 startTime1 now memAfter load sysMem s)
  = stored (RecordExit fn2 startTime2 now memAfter load sysMem s) /\
  exists rest top,
    callStack s = rest ++ [top] /\
    callStack (RecordExit fn1 startTime1 now memAfter load sysMem s) = rest /\
    traceRecords (RecordExit fn1 startTime1 now memAfter load sysMem s)
    = traceRecords s ++ [finalize now memAfter load sysMem top] /\
    Duration (finalize now memAfter load sysMem top)
    = time_Sub now (EntryTime top).
Proof.
  intros Hne.
  destruct (stack_cases (callStack s)) as [E|(rest & top & E)]; [done|].
  unfold RecordExit. rewrite E, top_of_snoc, pop_of_snoc.
  split; [reflexivity|]. exists rest, top. by repeat split.
Qed.

End NoOps.

Section Invariant.

Import Spec.

Lemma wrap_int64_small z : min_int64 <= z <= max_int64 -> wrap_int64 z = z.
Proof.
  unfold wrap_int64, min_int64, max_int64. intros H.
  rewrite Z.mod_small; lia.
Qed.

Lemma increasing_snoc l x :
  increasing l -> Forall (fun y => y < x) l -> increasing (l ++ [x]).
Proof.
  unfold increasing. intros Hl Hx. apply StronglySorted_app_2; [|done|].
  - intros y z Hy Hz. apply list_elem_of_singleton in Hz as ->.
    by eapply Forall_forall in Hx.
  - repeat constructor.
Qed.

Lemma ids_ok_initial : ids_ok 0 [] [].
Proof. split; simpl; try constructor; done. Qed.

(** [RecordEntry] on the view: the new pair goes on top of the stack. *)
Lemma ids_ok_entry n st ag :
  ids_ok n st ag ->
  ids_ok (n + 1) (st ++ [(n + 1, from_option fst 0 (last st))]) ag.
Proof.
  intros [Hn Hr Hd Hs Hc].
  assert (Hnew : n + 1 ∉ (st ++ ag).*1).
  { intros (p & E & Hp)%list_elem_of_fmap.
    eapply Forall_forall in Hr; [|exact Hp]. lia. }
  assert (Hperm : (st ++ [(n + 1, from_option fst 0 (last st))]) ++ ag
                  ≡ₚ (n + 1, from_option fst 0 (last st)) :: (st ++ ag)).
  { rewrite <- app_assoc. simpl. symmetry. apply Permutation_middle. }
  split.
  - lia.
  - rewrite Hperm. constructor; [simpl; lia|].
    eapply Forall_impl; [exact Hr|]. simpl. intros; lia.
  - rewrite Hperm. simpl. by apply NoDup_cons.
  - rewrite fmap_app. simpl. apply increasing_snoc; [done|].
    apply Forall_fmap, Forall_forall. intros p Hp. simpl.
    assert (p ∈ st ++ ag) as Hp' by (apply elem_of_app; by left).
    eapply Forall_forall in Hr; [|exact Hp']. lia.
  - assert (Hsub : forall z, z ∈ (st ++ ag).*1 ->
              z ∈ ((st ++ [(n + 1, from_option fst 0 (last st))]) ++ ag).*1).
    { intros z. rewrite !fmap_app, !elem_of_app. tauto. }
    rewrite Hperm. constructor.
    + simpl. destruct (last st) as [q|] eqn:El; simpl; [right|by left].
      assert (q ∈ st ++ ag) as Hq.
      { apply elem_of_app. left. by apply last_Some_elem_of. }
      split.
      * eapply Forall_forall in Hr; [|exact Hq]. lia.
      * apply Hsub. by apply list_elem_of_fmap_2.
    + eapply Forall_impl; [exact Hc|]. simpl.
      intros p [?|[? ?]]; [by left|right]. split; [done|]. by apply Hsub.
Qed.

(** [RecordExit] on the view: the top pair moves to the end of the
    aggregate list. *)
Lemma ids_ok_exit n st p ag :
  ids_ok n (st ++ [p]) ag -> ids_ok n st (ag ++ [p]).
Proof.
  intros [Hn Hr Hd Hs Hc].
  assert (Hperm : st ++ ag ++ [p] ≡ₚ (st ++ [p]) ++ ag).
  { rewrite <- app_assoc. apply Permutation_app_head, Permutation_app_comm. }
  split.
  - done.
  - by rewrite Hperm.
  - by rewrite Hperm.
  - rewrite fmap_app in Hs. by apply StronglySorted_app_1_l in Hs.
  - assert (Hsub : forall z, z ∈ ((st ++ [p]) ++ ag).*1 ->
              z ∈ (st ++ ag ++ [p]).*1).
    { intros z. rewrite !fmap_app, !elem_of_app. tauto. }
    rewrite Hperm. eapply Forall_impl; [exact Hc|]. simpl.
    intros q [?|[? ?]]; [by left|right]. split; [done|]. by apply Hsub.
Qed.

End Invariant.

Section Runs.

Import Spec.

Context {value : Type}.
Variable fmt_v : value -> string.
Variable nodeLabel : TraceRecord value -> string.
Implicit Types (s : Recorder value) (r : TraceRecord value).
Implicit Types (ops : list (Op value)).

#[local] Abbreviation step := (step fmt_v nodeLabel).
#[local] Abbreviation run := (run fmt_v nodeLabel).

(** An operation that keeps the counter, the aggregate list and the ids
    on the stack keeps the invariant. *)
Lemma consistent_same s s' :
  uniqueID s' = uniqueID s ->
  idc <$> callStack s' = idc <$> callStack s ->
  traceRecords s' = traceRecords s ->
  consistent s -> consistent s'.
Proof. unfold consistent. by intros -> -> ->. Qed.

Lemma on_top_same (f : TraceRecord value -> TraceRecord value) s line :
  (forall r, idc (f r) = idc r) ->
  consistent s -> consistent (println line (on_top f s)).
Proof.
  intros Hf. apply consistent_same; simpl.
  - unfold on_top. by destruct (top_of (callStack s)).
  - destruct (stack_cases (callStack s)) as [E|(st0 & top & E)].
    + by rewrite on_top_empty.
    + rewrite (on_top_snoc _ _ _ _ E), E. simpl.
      by rewrite !fmap_app; simpl; rewrite Hf.
  - unfold on_top. by destruct (top_of (callStack s)).
Qed.

Lemma uniqueID_on_top (f : TraceRecord value -> TraceRecord value) s :
  uniqueID (on_top f s) = uniqueID s.
Proof. unfold on_top. by destruct (top_of (callStack s)). Qed.

Lemma fold_set_ReturnValues_idc (returns : list value) r :
  idc (fold_left
         (fun t ret => set_ReturnValues (ReturnValues t ++ [fmt_v ret]) t)
         returns r) = idc r.
Proof.
  revert r. induction returns as [|v l IH]; intros r; simpl; [done|].
  by rewrite IH.
Qed.

(** One operation keeps the invariant, provided the counter does not
    leave the range of [int64]; only [RecordEntry] moves the counter. *)
Lemma step_consistent s op :
  consistent s ->
  uniqueID s + Z.of_nat (entries [op]) <= max_int64 ->
  consistent (step s op) /\
  uniqueID (step s op) = uniqueID s + Z.of_nat (entries [op]).
Proof.
  intros Hs Hb. pose proof (ok_counter _ _ _ Hs) as Hn.
  destruct op; simpl in *; rewrite ?uniqueID_on_top;
    try (split; [|lia]);
    try (by apply on_top_same).
  - (* RecordEntry *)
    assert (Hw : wrap_int64 (uniqueID s + 1) = uniqueID s + 1).
    { apply wrap_int64_small. unfold min_int64, max_int64 in *. lia. }
    split; [|exact Hw]. unfold consistent; simpl.
    rewrite fmap_app; simpl. unfold idc at 2; simpl. rewrite Hw.
    replace (match top_of (callStack s) with
             | Some top => UniqueID top
             | None => 0
             end) with (from_option fst 0 (last (idc <$> callStack s))).
    { by apply ids_ok_entry. }
    rewrite fmap_last. unfold top_of. by destruct (last (callStack s)).
  - (* RecordReturn *)
    apply on_top_same; [|done]. apply fold_set_ReturnValues_idc.
  - (* RecordExit *)
    destruct (stack_cases (callStack s)) as [E|(st0 & top & E)].
    + rewrite RecordExit_empty by done. split; [done|lia].
    + unfold RecordExit. rewrite E, top_of_snoc, pop_of_snoc.
      split; [|simpl; lia].
      unfold consistent in *; simpl. rewrite E in Hs.
      rewrite fmap_app in *; simpl in *. by apply ids_ok_exit.
  - (* RecordExecutionFrequency *) done.
  - (* RecordResourceUsage *) done.
  - (* DumpCallGraphDOT *)
    unfold DumpCallGraphDOT. destruct writeOk; simpl; (split; [done|lia]).
Qed.

Lemma entries_cons (op : Op value) ops :
  entries (op :: ops) = (entries [op] + entries ops)%nat.
Proof. by destruct op. Qed.

(** The invariant along a run. *)
Lemma run_consistent ops s :
  consistent s ->
  uniqueID s + Z.of_nat (entries ops) <= max_int64 ->
  consistent (run ops s) /\
  uniqueID (run ops s) = uniqueID s + Z.of_nat (entries ops).
Proof.
  revert s. induction ops as [|op ops IH]; intros s Hs Hb.
  - split; [done|]. simpl. lia.
  - rewrite entries_cons in Hb |- *.
    change (run (op :: ops) s) with (run ops (step s op)).
    destruct (step_consistent s op Hs) as [Hs' Hu]; [lia|].
    destruct (IH (step s op) Hs') as [Hr Hur]; [lia|].
    split; [done|]. lia.
Qed.

Lemma initial_consistent : consistent (@initial value).
Proof. apply ids_ok_initial. Qed.

Lemma fst_idc (l : list (TraceRecord value)) : (idc <$> l).*1 = UniqueID <$> l.
Proof. rewrite <- list_fmap_compose. reflexivity. Qed.

(** Every held record has an id between 1 and the counter. *)
Lemma held_range s r :
  consistent s -> r ∈ held s -> 1 <= UniqueID r <= uniqueID s.
Proof.
  intros Hc Hr. pose proof (ok_range _ _ _ Hc) as Hrange.
  rewrite <- fmap_app in Hrange.
  eapply Forall_forall in Hrange; [|apply list_elem_of_fmap_2; exact Hr].
  exact Hrange.
Qed.

Lemma on_top_stack (f : TraceRecord value -> TraceRecord value) s :
  (forall r, idc (f r) = idc r) ->
  length (callStack (on_top f s)) = length (callStack s) /\
  UniqueID <$> callStack (on_top f s) = UniqueID <$> callStack s /\
  traceRecords (on_top f s) = traceRecords s.
Proof.
  intros Hf. destruct (stack_cases (callStack s)) as [E|(st0 & top & E)].
  - by rewrite on_top_empty.
  - rewrite (on_top_snoc _ _ _ _ E), E. simpl.
    rewrite !length_app, !fmap_app. simpl.
    specialize (Hf top). unfold idc in Hf. by injection Hf as -> _.
Qed.

Lemma on_top_flat (f : TraceRecord value -> TraceRecord value) s line ops :
  (forall r, idc (f r) = idc r) ->
  flat_ok s -> flat (length (callStack s)) ops = true ->
  flat_ok (println line (on_top f s)) /\
  flat (length (callStack (println line (on_top f s)))) ops = true.
Proof.
  intros Hf [Hlen Hinc] Hflat.
  destruct (on_top_stack f s Hf) as (El & Es & Et).
  unfold flat_ok. simpl. rewrite El, Et. repeat split; [done| |done].
  rewrite fmap_app, Es, <- fmap_app. done.
Qed.

(** One operation of a run without nesting keeps the aggregate list in
    increasing order of ids. *)
Lemma step_flat s op ops :
  consistent s ->
  uniqueID s + Z.of_nat (entries [op]) <= max_int64 ->
  flat_ok s ->
  flat (length (callStack s)) (op :: ops) = true ->
  flat_ok (step s op) /\
  flat (length (callStack (step s op))) ops = true.
Proof.
  intros Hs Hb Hf Hflat.
  destruct op; simpl in Hflat |- *;
    try (by apply on_top_flat);
    try done.
  - (* RecordEntry: the stack is empty *)
    apply andb_prop in Hflat as [Hd Hflat]. apply Nat.eqb_eq in Hd.
    destruct (callStack s) as [|? ?] eqn:E; [|done].
    unfold flat_ok. simpl. rewrite E. simpl. repeat split; [lia| |done].
    rewrite fmap_app. simpl. apply increasing_snoc.
    + destruct Hf as [_ Hinc]. by rewrite E, app_nil_r in Hinc.
    + rewrite wrap_int64_small
        by (pose proof (ok_counter _ _ _ Hs);
            unfold min_int64, max_int64 in *; simpl in *; lia).
      apply Forall_fmap, Forall_forall. intros r Hr. simpl.
      assert (r ∈ held s) as Hh by (apply elem_of_app; by right).
      pose proof (held_range s r Hs Hh). lia.
  - (* RecordReturn *)
    apply on_top_flat; [|done..]. apply fold_set_ReturnValues_idc.
  - (* RecordExit *)
    destruct (stack_cases (callStack s)) as [E|(st0 & top & E)].
    + rewrite RecordExit_empty by done. split; [done|].
      by rewrite E in Hflat |- *.
    + destruct Hf as [Hlen Hinc]. unfold RecordExit. rewrite E, top_of_snoc, pop_of_snoc.
      rewrite E in Hlen, Hinc, Hflat. rewrite length_app in Hlen, Hflat.
      simpl in Hlen, Hflat.
      destruct st0; [|simpl in Hlen; lia]. simpl in *.
      unfold flat_ok. simpl. rewrite app_nil_r.
      repeat split; [lia| |done]. rewrite fmap_app in Hinc |- *. exact Hinc.
  - (* DumpCallGraphDOT *)
    unfold DumpCallGraphDOT. by destruct writeOk.
Qed.

Lemma run_flat ops s :
  consistent s ->
  uniqueID s + Z.of_nat (entries ops) <= max_int64 ->
  flat_ok s ->
  flat (length (callStack s)) ops = true ->
  flat_ok (run ops s).
Proof.
  revert s. induction ops as [|op ops IH]; intros s Hs Hb Hf Hflat; [done|].
  rewrite entries_cons in Hb.
  change (run (op :: ops) s) with (run ops (step s op)).
  destruct (step_consistent s op Hs) as [Hs' Hu]; [lia|].
  destruct (step_flat s op ops Hs) as [Hf' Hflat']; [lia|done..|].
  apply IH; [done|lia|done..].
Qed.

(** C2 (amended): in every run with fewer than 2^63 entries the ids of
    the aggregate list are pairwise distinct, so a record appended by
    [RecordExit] never repeats the id of a record appended before it; the
    ids increase in append order when no activation is entered while
    another one is on the stack; and every id handed out so far is at
    most the counter, so ids increase in the order of [RecordEntry]
    calls.  With nesting the list is in order of completion. *)
Theorem aggregate_ids_distinct ops :
  Z.of_nat (entries ops) < 2 ^ 63 ->
  NoDup (UniqueID <$> traceRecords (run ops initial)) /\
  (flat 0 ops = true ->
   increasing (UniqueID <$> traceRecords (run ops initial))) /\
  uniqueID (run ops initial) = Z.of_nat (entries ops) /\
  (forall r, r ∈ held (run ops initial) ->
     1 <= UniqueID r <= uniqueID (run ops initial)).
Proof.
  intros Hb.
  assert (Hb' : uniqueID (@initial value) + Z.of_nat (entries ops)
                <= max_int64) by (unfold max_int64; simpl; lia).
  destruct (run_consistent ops initial initial_consistent Hb') as [Hc Hu].
  repeat split.
  - pose proof (ok_nodup _ _ _ Hc) as Hd.
    rewrite fmap_app in Hd. apply NoDup_app in Hd as (_ & _ & Hd).
    by rewrite fst_idc in Hd.
  - intros Hflat.
    assert (Hf : flat_ok (run ops initial)).
    { apply run_flat; [apply initial_consistent|done| |done].
      split; simpl; [lia|constructor]. }
    destruct Hf as [_ Hinc]. rewrite fmap_app in Hinc.
    by apply StronglySorted_app_1_l in Hinc.
  - simpl in Hu. lia.
  - by apply (held_range (run ops initial)).
  - by apply (held_range (run ops initial)).
Qed.

(** C8: in every state reached by a run (with fewer than 2^63 - 1
    entries), a caller id that is present is smaller than the record's
    own id and is the id of a held record; and when [RecordEntry] sets a
    caller id on the record it pushes, that caller id is smaller than the
    new id and is the id of a record created before the call. *)
Theorem caller_id_names_earlier_record ops :
  Z.of_nat (entries ops) < max_int64 ->
  (forall r, r ∈ held (run ops initial) -> hasCaller r ->
     CallerID r < UniqueID r /\
     exists r', r' ∈ held (run ops initial) /\ UniqueID r' = CallerID r) /\
  (forall fn now mem r,
     top_of (callStack (RecordEntry fn now mem (run ops initial))) = Some r ->
     hasCaller r ->
     CallerID r < UniqueID r /\
     exists r', r' ∈ held (run ops initial) /\ UniqueID r' = CallerID r).
Proof.
  intros Hb.
  assert (Hb' : uniqueID (@initial value) + Z.of_nat (entries ops)
                <= max_int64) by (simpl; lia).
  destruct (run_consistent ops initial initial_consistent Hb') as [Hc Hu].
  simpl in Hu. set (s := run ops initial) in *. split.
  - intros r Hr Hcall.
    pose proof (ok_caller _ _ _ Hc) as Hcaller. rewrite <- fmap_app in Hcaller.
    eapply Forall_forall in Hcaller; [|apply list_elem_of_fmap_2; exact Hr].
    simpl in Hcaller. destruct Hcaller as [E|[Hlt Hin]]; [done|].
    split; [done|].
    rewrite fst_idc in Hin. apply list_elem_of_fmap in Hin as (r' & E & Hr').
    by exists r'.
  - intros fn now mem r Htop Hcall. unfold RecordEntry in Htop. simpl in Htop.
    rewrite top_of_snoc in Htop. injection Htop as <-.
    unfold hasCaller in Hcall. simpl in *.
    destruct (top_of (callStack s)) as [top|] eqn:Et; [|done].
    assert (Hin : top ∈ held s).
    { apply elem_of_app. left. by apply last_Some_elem_of. }
    split; [|by exists top].
    pose proof (held_range s top Hc Hin) as Hr.
    rewrite wrap_int64_small by (unfold min_int64, max_int64 in *; lia). lia.
Qed.

(** The graph has one node per record, the ids in the order of the
    aggregate list. *)
Lemma dot_nodes_dotText (records : list (TraceRecord value)) :
  dot_nodes (dotText nodeLabel records) = UniqueID <$> records.
Proof.
  unfold dotText, dot_nodes. simpl. rewrite !flat_map_app. simpl.
  rewrite app_nil_r.
  assert (forall l : list (TraceRecord value),
            flat_map (fun l0 => match l0 with DotNode id _ => [id] | _ => [] end)
              (flat_map (fun rec =>
                 if decide (CallerID rec <> 0)
                 then [DotEdge (CallerID rec) (UniqueID rec)] else []) l) = [])
    as ->.
  { induction l as [|r l IH]; simpl; [done|].
    rewrite flat_map_app, IH. by destruct (decide (CallerID r <> 0)). }
  rewrite app_nil_r.
  induction records as [|r l IH]; simpl; [done|]. by rewrite IH.
Qed.

(** The graph has one edge per record with a caller id, from the caller
    id to the record's id. *)
Lemma dot_edges_dotText (records : list (TraceRecord value)) :
  dot_edges (dotText nodeLabel records)
  = (fun r => (CallerID r, UniqueID r))
      <$> filter (fun r => CallerID r <> 0) records.
Proof.
  unfold dotText, dot_edges. simpl. rewrite !flat_map_app. simpl.
  rewrite app_nil_r.
  assert (forall l : list (TraceRecord value),
            flat_map (fun l0 => match l0 with DotEdge c id => [(c, id)] | _ => [] end)
              (map (fun rec => DotNode (UniqueID rec) (nodeLabel rec)) l) = [])
    as ->.
  { induction l as [|r l IH]; simpl; done. }
  simpl.
  induction records as [|r l IH]; simpl; [done|].
  rewrite flat_map_app, IH, filter_cons.
  by destruct (decide (CallerID r <> 0)).
Qed.

End Runs.

End TracerFacts.

(** * More on the recorder: the life of a record *)

Module TracerMore.
Import Tracer Spec Notions TracerFacts.

Section Life.

Context {value : Type}.
Variable fmt_v : value -> string.
Variable nodeLabel : TraceRecord value -> string.
Implicit Types (s : Recorder value) (r : TraceRecord value).
Implicit Types (ops : list (Op value)).

#[local] Abbreviation step := (step fmt_v nodeLabel).
#[local] Abbreviation run := (run fmt_v nodeLabel).

Lemma run_cons op ops s : run (op :: ops) s = run ops (step s op).
Proof. reflexivity. Qed.

Lemma run_app ops1 ops2 s : run (ops1 ++ ops2) s = run ops2 (run ops1 s).
Proof. unfold run, Tracer.run. apply fold_left_app. Qed.

Lemma keeps_fold_returns (returns : list value) :
  keeps (fun top : TraceRecord value =>
    fold_left (fun t ret => set_ReturnValues (ReturnValues t ++ [fmt_v ret]) t)
      returns top).
Proof.
  induction returns as [|v l IH]; intros r; simpl; [done|].
  destruct (IH (set_ReturnValues (ReturnValues r ++ [fmt_v v]) r)) as [E P].
  split; [by rewrite E|]. intros Hp. by apply P.
Qed.

Lemma on_top_keeps (f : TraceRecord value -> TraceRecord value) s line :
  keeps f ->
  let s' := println line (on_top f s) in
  traceRecords s' = traceRecords s /\
  uniqueID s' = uniqueID s /\
  execFrequency s' = execFrequency s /\
  (callStack s = [] -> callStack s' = []) /\
  (forall rest top, callStack s = rest ++ [top] ->
     exists top', callStack s' = rest ++ [top'] /\
                  entryFields top' = entryFields top /\
                  (pending top -> pending top')).
Proof.
  intros Hf s'. subst s'. simpl.
  destruct (stack_cases (callStack s)) as [E|(st0 & t & E)].
  - rewrite on_top_empty by done. repeat split; [done|].
    intros rest top E'. rewrite E in E'. by destruct rest.
  - rewrite (on_top_snoc _ _ _ _ E). simpl. repeat split.
    + intros E'. rewrite E in E'. by destruct st0.
    + intros rest top E'. rewrite E in E'.
      apply app_inj_tail in E' as [-> ->].
      exists (f top). split; [done|]. apply Hf.
Qed.

(** An operation other than [RecordEntry] and [RecordExit] leaves the
    aggregate list, the counter, the length of the stack and every
    record below the top as they are; on the top record it leaves what
    [RecordEntry] wrote and the exit fields. *)
Lemma quiet_step s op :
  quiet op = true ->
  traceRecords (step s op) = traceRecords s /\
  uniqueID (step s op) = uniqueID s /\
  (callStack s = [] -> callStack (step s op) = []) /\
  (forall rest top, callStack s = rest ++ [top] ->
     exists top', callStack (step s op) = rest ++ [top'] /\
                  entryFields top' = entryFields top /\
                  (pending top -> pending top')).
Proof.
  intros Hq.
  assert (Hsame : forall s', traceRecords s' = traceRecords s ->
            uniqueID s' = uniqueID s -> callStack s' = callStack s ->
            traceRecords s' = traceRecords s /\
            uniqueID s' = uniqueID s /\
            (callStack s = [] -> callStack s' = []) /\
            (forall rest top, callStack s = rest ++ [top] ->
               exists top', callStack s' = rest ++ [top'] /\
                            entryFields top' = entryFields top /\
                            (pending top -> pending top'))).
  { intros s' Ht Hu Hc. rewrite Hc. repeat split; try done. eauto. }
  destruct op; try discriminate Hq; simpl.
  - destruct (on_top_keeps
      (fun top => set_Params (<[paramName := fmt_v v]> (Params top)) top)
      s (LogParameter paramName v)) as (? & ? & ? & ? & ?); [by intros r|done].
  - destruct (on_top_keeps _ s (LogReturning functionName returns)
                (keeps_fold_returns returns)) as (? & ? & ? & ? & ?). done.
  - destruct (on_top_keeps (set_Panic (Some panicValue) stack) s
                (LogPanic functionName panicValue stack))
      as (? & ? & ? & ? & ?); [by intros r|done].
  - destruct (on_top_keeps (set_GoroutinesDelta delta) s
                (LogGoroutines functionName delta))
      as (? & ? & ? & ? & ?); [by intros r|done].
  - destruct (on_top_keeps (set_ThreadsDelta delta) s
                (LogThreads functionName delta))
      as (? & ? & ? & ? & ?); [by intros r|done].
  - destruct (on_top_keeps (set_GCCountDelta delta) s
                (LogGC functionName delta))
      as (? & ? & ? & ? & ?); [by intros r|done].
  - destruct (on_top_keeps (set_Heap heapAllocDelta heapFreeDelta) s
                (LogHeap functionName heapAllocDelta heapFreeDelta))
      as (? & ? & ? & ? & ?); [by intros r|done].
  - destruct (on_top_keeps (set_IO netUsageDelta diskUsageDelta) s
                (LogIO functionName netUsageDelta diskUsageDelta))
      as (? & ? & ? & ? & ?); [by intros r|done].
  - by apply Hsame.
  - by apply Hsame.
  - unfold DumpCallGraphDOT. destruct writeOk; by apply Hsame.
Qed.

Lemma op_cases (op : Op value) :
  (exists fn now mem, op = OpEntry fn now mem) \/
  (exists fn startTime now memAfter load sysMem,
     op = OpExit fn startTime now memAfter load sysMem) \/
  quiet op = true.
Proof.
  destruct op; try (right; right; reflexivity).
  - left. by do 3 eexists.
  - right; left. by do 6 eexists.
Qed.

Lemma run_invariant (P : Recorder value -> Prop) :
  (forall s op, P s -> P (step s op)) ->
  forall ops s, P s -> P (run ops s).
Proof.
  intros Hstep. induction ops as [|op ops IH]; intros s Hs; [done|].
  rewrite run_cons. by apply IH, Hstep.
Qed.

(** [RecordExit] on a stack with a top record. *)
Lemma RecordExit_snoc s rest top fn startTime now memAfter load sysMem :
  callStack s = rest ++ [top] ->
  callStack (RecordExit fn startTime now memAfter load sysMem s) = rest /\
  traceRecords (RecordExit fn startTime now memAfter load sysMem s)
  = traceRecords s ++ [finalize now memAfter load sysMem top] /\
  uniqueID (RecordExit fn startTime now memAfter load sysMem s) = uniqueID s /\
  execFrequency (RecordExit fn startTime now memAfter load sysMem s)
  = execFrequency s.
Proof.
  intros E. unfold RecordExit. by rewrite E, top_of_snoc, pop_of_snoc.
Qed.

(** X1: the aggregate list only grows at its end: whatever the
    operations, the list before a run is a prefix of the list after it,
    so a completed record is never changed, moved or removed. *)
Theorem aggregate_is_append_only ops s :
  traceRecords s `prefix_of` traceRecords (run ops s).
Proof.
  revert s. induction ops as [|op ops IH]; intros s; [done|].
  rewrite run_cons. etrans; [|apply IH].
  destruct (op_cases op) as [(fn & now & mem & ->)|
                             [(fn & st & now & ma & ld & sm & ->)|Hq]].
  - done.
  - simpl. destruct (stack_cases (callStack s)) as [E|(rest & top & E)].
    + by rewrite RecordExit_empty.
    + destruct (RecordExit_snoc s rest top fn st now ma ld sm E)
        as (_ & -> & _). by apply prefix_app_r.
  - by destruct (quiet_step s op Hq) as (-> & _).
Qed.

(** X2: no record is lost or made twice: after a run the records on
    the stack and in the aggregate list are as many as before plus one
    for each [RecordEntry] call. *)
Theorem held_records_count ops s :
  length (held (run ops s)) = (length (held s) + entries ops)%nat.
Proof.
  revert s. induction ops as [|op ops IH]; intros s; [simpl; lia|].
  rewrite run_cons, IH, entries_cons. unfold held. rewrite !length_app.
  destruct (op_cases op) as [(fn & now & mem & ->)|
                             [(fn & st & now & ma & ld & sm & ->)|Hq]].
  - simpl. rewrite length_app. simpl. lia.
  - simpl. destruct (stack_cases (callStack s)) as [E|(rest & top & E)].
    + rewrite RecordExit_empty by done. lia.
    + destruct (RecordExit_snoc s rest top fn st now ma ld sm E)
        as (-> & -> & _). rewrite E, !length_app. simpl. lia.
  - destruct (quiet_step s op Hq) as (-> & _ & Hnil & Hsnoc).
    assert (entries [op] = 0%nat) as -> by (by destruct op).
    destruct (stack_cases (callStack s)) as [E|(rest & top & E)].
    + rewrite (Hnil E), E. simpl. lia.
    + destruct (Hsnoc rest top E) as (top' & -> & _).
      rewrite E, !length_app. simpl. lia.
Qed.

Lemma quiet_ids s op :
  quiet op = true ->
  idc <$> callStack (step s op) = idc <$> callStack s.
Proof.
  intros Hq. destruct (quiet_step s op Hq) as (_ & _ & Hnil & Hsnoc).
  destruct (stack_cases (callStack s)) as [E|(rest & top & E)].
  - by rewrite (Hnil E), E.
  - destruct (Hsnoc rest top E) as (top' & -> & Hf & _).
    rewrite E, !fmap_app. simpl. f_equal. f_equal.
    unfold entryFields in Hf. unfold idc. by injection Hf as -> _ -> _ _.
Qed.

(** The ids held after a run are those from 1 to the counter. *)
Lemma run_ids ops s :
  0 <= uniqueID s ->
  uniqueID s + Z.of_nat (entries ops) <= max_int64 ->
  UniqueID <$> held s ≡ₚ seqZ 1 (uniqueID s) ->
  UniqueID <$> held (run ops s) ≡ₚ seqZ 1 (uniqueID (run ops s)).
Proof.
  revert s. induction ops as [|op ops IH]; intros s Hn Hb Hp; [done|].
  rewrite entries_cons in Hb. rewrite run_cons.
  destruct (op_cases op) as [(fn & now & mem & ->)|
                             [(fn & st & now & ma & ld & sm & ->)|Hq]].
  - simpl in Hb.
    assert (Hw : wrap_int64 (uniqueID s + 1) = uniqueID s + 1).
    { apply wrap_int64_small. unfold min_int64, max_int64 in *. lia. }
    apply IH; simpl; rewrite ?Hw; [lia|lia|].
    unfold held in *. simpl. rewrite !fmap_app in *. simpl. rewrite Hw.
    rewrite (seqZ_app 1 (uniqueID s) 1) by lia.
    rewrite <- Hp. rewrite (seqZ_cons _ 1), seqZ_nil by lia.
    rewrite <- !app_assoc. apply Permutation_app_head.
    replace (1 + uniqueID s) with (uniqueID s + 1) by lia.
    symmetry. apply Permutation_app_comm.
  - simpl in *. destruct (stack_cases (callStack s)) as [E|(rest & top & E)].
    + rewrite RecordExit_empty by done. apply IH; [done|lia|done].
    + destruct (RecordExit_snoc s rest top fn st now ma ld sm E)
        as (Hc & Ht & Hu & _).
      apply IH; rewrite ?Hu; [done|lia|].
      unfold held in *. rewrite Hc, Ht, <- Hp, E, !fmap_app. simpl.
      rewrite <- !app_assoc. apply Permutation_app_head, Permutation_app_comm.
  - destruct (quiet_step s op Hq) as (Ht & Hu & _).
    assert (entries [op] = 0%nat) as E0 by (by destruct op).
    apply IH; rewrite ?Hu; [done|lia|].
    unfold held in *. rewrite !fmap_app, Ht, <- fst_idc, (quiet_ids s op Hq),
      fst_idc, <- fmap_app. done.
Qed.

(** X3: ids are handed out without gaps: after any run from the start
    with fewer than 2^63 entries, the ids of the records on the stack
    and in the aggregate list are, up to their order, exactly
    1, 2, ..., n for n the number of [RecordEntry] calls. *)
Theorem held_ids_are_one_to_n ops :
  Z.of_nat (entries ops) < 2 ^ 63 ->
  UniqueID <$> held (run ops initial) ≡ₚ seqZ 1 (Z.of_nat (entries ops)).
Proof.
  intros Hb.
  assert (Hb' : uniqueID (@initial value) + Z.of_nat (entries ops)
                <= max_int64) by (unfold max_int64; simpl; lia).
  destruct (run_consistent fmt_v nodeLabel ops initial initial_consistent Hb')
    as [_ Hu].
  replace (Z.of_nat (entries ops)) with (uniqueID (run ops initial))
    by (rewrite Hu; simpl; lia).
  by apply run_ids.
Qed.

Lemma chained_snoc below st i :
  chained below st ->
  chained below (st ++ [(i, from_option fst below (last st))]).
Proof.
  revert below. induction st as [|p st IH]; intros below; simpl; [done|].
  intros [Hp Hc]. split; [done|].
  replace (from_option fst below (last (p :: st)))
    with (from_option fst p.1 (last st)); [by apply IH|].
  destruct st as [|q st]; [reflexivity|].
  change (last (p :: q :: st)) with (last (q :: st)).
  destruct (last (q :: st)) eqn:El; [done|]. by apply last_None in El.
Qed.

Lemma chained_prefix below st p : chained below (st ++ [p]) -> chained below st.
Proof.
  revert below. induction st as [|q st IH]; intros below; simpl; [done|].
  intros [Hq Hc]. split; [done|]. by apply IH.
Qed.

(** X4: the stack is a call chain: in every state reached from the
    start, the bottom record has no caller id and every other record on
    the stack has the id of the record right below it as its caller id. *)
Theorem stack_is_call_chain ops :
  chained 0 (idc <$> callStack (run ops initial)).
Proof.
  apply (run_invariant (fun s => chained 0 (idc <$> callStack s)));
    [|done].
  intros s op Hc.
  destruct (op_cases op) as [(fn & now & mem & ->)|
                             [(fn & st & now & ma & ld & sm & ->)|Hq]].
  - simpl. rewrite fmap_app. simpl. unfold idc at 2. simpl.
    replace (match top_of (callStack s) with
             | Some top => UniqueID top
             | None => 0
             end) with (from_option fst 0 (last (idc <$> callStack s))).
    { by apply chained_snoc. }
    rewrite fmap_last. unfold top_of. by destruct (last (callStack s)).
  - simpl. destruct (stack_cases (callStack s)) as [E|(rest & top & E)].
    + by rewrite RecordExit_empty.
    + destruct (RecordExit_snoc s rest top fn st now ma ld sm E) as (-> & _).
      rewrite E, fmap_app in Hc. by apply chained_prefix in Hc.
  - by rewrite quiet_ids.
Qed.

Lemma finalize_completed now memAfter load sysMem r :
  completed (finalize now memAfter load sysMem r).
Proof.
  unfold completed, finalize. simpl. repeat split.
  - destruct (decide (MemBefore r < memAfter)); [|lia].
    unfold sub_uint64. apply Z.mod_pos_bound. lia.
  - destruct (decide (MemBefore r < memAfter)); [|lia].
    unfold sub_uint64. apply Z.mod_pos_bound. lia.
  - unfold time_Sub. lia.
  - unfold time_Sub, min_int64, max_int64. lia.
  - unfold time_Sub, min_int64, max_int64. lia.
Qed.

(** X5: a record is finalized once, when it leaves the stack: in every
    state reached from the start, the exit fields of every record on the
    stack still have their zero value, and every record of the aggregate
    list has a duration equal to the saturated difference of its exit
    and entry times (not negative when the clock did not go back) and a
    memory difference floored at zero. *)
Theorem exit_fields_written_at_exit ops :
  Forall pending (callStack (run ops initial)) /\
  Forall completed (traceRecords (run ops initial)).
Proof.
  apply (run_invariant (fun s : Recorder value =>
           Forall pending (callStack s) /\ Forall completed (traceRecords s)));
    [|by split].
  intros s op [Hp Hc].
  destruct (op_cases op) as [(fn & now & mem & ->)|
                             [(fn & st & now & ma & ld & sm & ->)|Hq]].
  - simpl. split; [|done]. apply Forall_app. split; [done|].
    by repeat constructor.
  - simpl. destruct (stack_cases (callStack s)) as [E|(rest & top & E)].
    + by rewrite RecordExit_empty.
    + destruct (RecordExit_snoc s rest top fn st now ma ld sm E)
        as (-> & -> & _).
      rewrite E in Hp. apply Forall_app in Hp as [Hp _]. split; [done|].
      apply Forall_app. split; [done|]. constructor; [|done].
      apply finalize_completed.
  - destruct (quiet_step s op Hq) as (-> & _ & Hnil & Hsnoc).
    split; [|done].
    destruct (stack_cases (callStack s)) as [E|(rest & top & E)].
    + by rewrite (Hnil E).
    + destruct (Hsnoc rest top E) as (top' & -> & _ & Hpend).
      rewrite E in Hp. apply Forall_app in Hp as [Hrest Htop].
      apply Forall_app. split; [done|]. constructor; [|done].
      apply Hpend. by apply Forall_cons in Htop as [? _].
Qed.

Lemma execFrequency_on_top (f : TraceRecord value -> TraceRecord value) s :
  execFrequency (on_top f s) = execFrequency s.
Proof. unfold on_top. by destruct (top_of (callStack s)). Qed.

Lemma execFrequency_RecordExit s fn st now ma ld sm :
  execFrequency (RecordExit fn st now ma ld sm s) = execFrequency s.
Proof.
  destruct (stack_cases (callStack s)) as [E|(rest & top & E)].
  - by rewrite RecordExit_empty.
  - by destruct (RecordExit_snoc s rest top fn st now ma ld sm E)
      as (_ & _ & _ & ->).
Qed.

Lemma run_frequency fn ops s (c : nat) :
  execFrequency s !! fn
  = (if decide (c = 0%nat) then None else Some (Z.of_nat c)) ->
  Z.of_nat (c + frequencyCalls fn ops) < 2 ^ 63 ->
  execFrequency (run ops s) !! fn
  = (if decide ((c + frequencyCalls fn ops)%nat = 0%nat) then None
     else Some (Z.of_nat (c + frequencyCalls fn ops))).
Proof.
  revert s c. induction ops as [|op ops IH]; intros s c Hs Hb.
  - simpl. by rewrite Nat.add_0_r.
  - rewrite run_cons.
    assert (Hother : execFrequency (step s op) = execFrequency s ->
              frequencyCalls fn (op :: ops) = frequencyCalls fn ops ->
              execFrequency (run ops (step s op)) !! fn
              = (if decide ((c + frequencyCalls fn (op :: ops))%nat = 0%nat)
                 then None
                 else Some (Z.of_nat (c + frequencyCalls fn (op :: ops))))).
    { intros He Hc. rewrite Hc in Hb |- *. apply IH; [by rewrite He|done]. }
    destruct op; try (apply Hother; [|reflexivity]; simpl;
                      by rewrite ?execFrequency_on_top).
    + apply Hother; [|reflexivity]. apply execFrequency_RecordExit.
    + simpl in Hb |- *. destruct (decide (functionName = fn)) as [->|Hne].
      * replace (c + S (frequencyCalls fn ops))%nat
          with (S c + frequencyCalls fn ops)%nat in Hb |- * by lia.
        apply IH; [|done]. simpl. rewrite lookup_insert_eq, Hs.
        destruct (decide (c = 0%nat)) as [->|Hc]; simpl.
        -- done.
        -- f_equal. rewrite wrap_int64_small;
             unfold min_int64, max_int64; lia.
      * apply IH; [|done]. simpl. by rewrite lookup_insert_ne.
    + apply Hother; [|reflexivity]. simpl. unfold DumpCallGraphDOT.
      by destruct writeOk.
Qed.

(** X6: the frequency map counts calls: after a run from the start, a
    function name has an entry exactly when [RecordExecutionFrequency]
    was called for it, and the entry is the number of those calls (below
    2^63); no other operation touches the map. *)
Theorem frequency_counts_calls fn ops :
  Z.of_nat (frequencyCalls fn ops) < 2 ^ 63 ->
  execFrequency (run ops initial) !! fn
  = (if decide (frequencyCalls fn ops = 0%nat) then None
     else Some (Z.of_nat (frequencyCalls fn ops))).
Proof.
  intros Hb. by apply (run_frequency fn ops initial 0).
Qed.

Lemma quiet_run mid s rest top :
  forallb quiet mid = true ->
  callStack s = rest ++ [top] ->
  traceRecords (run mid s) = traceRecords s /\
  uniqueID (run mid s) = uniqueID s /\
  exists top', callStack (run mid s) = rest ++ [top'] /\
               entryFields top' = entryFields top /\
               (pending top -> pending top').
Proof.
  revert s top. induction mid as [|op mid IH]; intros s top Hq E.
  - simpl. eauto 10.
  - simpl in Hq. apply andb_prop in Hq as [Hop Hq]. rewrite run_cons.
    destruct (quiet_step s op Hop) as (Ht & Hu & _ & Hsnoc).
    destruct (Hsnoc rest top E) as (top1 & E1 & Hf1 & Hp1).
    destruct (IH (step s op) top1 Hq E1) as (Ht' & Hu' & top' & E' & Hf' & Hp').
    rewrite Ht', Hu', Ht, Hu. repeat split; try done.
    exists top'. split; [done|]. split; [congruence|auto].
Qed.

(** X7: an activation leaves the stack as it found it: [RecordEntry],
    then any operations other than entries and exits, then [RecordExit]
    restore the call stack and append exactly one record; it carries the
    name, id, caller id and entry time given at entry, whatever name and
    start time [RecordExit] is called with, and the duration from its
    own entry time. *)
Theorem activation_restores_stack s fn now mem mid fn' startTime now'
    memAfter load sysMem :
  forallb quiet mid = true ->
  let s' := run ([OpEntry fn now mem] ++ mid
                 ++ [OpExit fn' startTime now' memAfter load sysMem]) s in
  callStack s' = callStack s /\
  exists r,
    traceRecords s' = traceRecords s ++ [r] /\
    FunctionName r = fn /\
    UniqueID r = wrap_int64 (uniqueID s + 1) /\
    CallerID r = from_option UniqueID 0 (top_of (callStack s)) /\
    EntryTime r = now /\
    ExitTime r = now' /\
    Duration r = time_Sub now' now.
Proof.
  intros Hq s'. subst s'. rewrite !run_app.
  change (run [OpEntry fn now mem] s) with (RecordEntry fn now mem s).
  set (s1 := RecordEntry fn now mem s).
  assert (E1 : callStack s1 = callStack s ++ [
    {| UniqueID := wrap_int64 (uniqueID s + 1); FunctionName := fn;
       CallerID := match top_of (callStack s) with
                   | Some top => UniqueID top
                   | None => 0
                   end;
       EntryTime := now; ExitTime := 0; Duration := 0; Params := ∅;
       ReturnValues := []; MemBefore := mem; MemAfter := 0; MemDiff := 0;
       PanicValue := None; StackTrace := EmptyString; GoroutinesDelta := 0;
       ThreadsDelta := 0; GCCountDelta := 0; HeapAllocDelta := 0;
       HeapFreeDelta := 0; NetUsageDelta := 0; DiskUsageDelta := 0;
       SystemCPULoad := 0; SystemMemUsage := 0 |}]) by reflexivity.
  destruct (quiet_run mid s1 _ _ Hq E1) as (Ht & _ & top' & E' & Hf & _).
  change (run [OpExit fn' startTime now' memAfter load sysMem] (run mid s1))
    with (RecordExit fn' startTime now' memAfter load sysMem (run mid s1)).
  destruct (RecordExit_snoc (run mid s1) _ top' fn' startTime now' memAfter
              load sysMem E') as (Hc & Hr & _).
  split; [exact Hc|]. eexists. split; [by rewrite Hr, Ht|].
  unfold entryFields in Hf. simpl in Hf.
  injection Hf as Hid Hname Hcaller Hentry _. simpl.
  rewrite Hid, Hname, Hcaller, Hentry.
  repeat split.
Qed.

Lemma fold_returns_values (returns : list value) r :
  ReturnValues
    (fold_left (fun t ret => set_ReturnValues (ReturnValues t ++ [fmt_v ret]) t)
       returns r)
  = ReturnValues r ++ (fmt_v <$> returns) /\
  Params
    (fold_left (fun t ret => set_ReturnValues (ReturnValues t ++ [fmt_v ret]) t)
       returns r)
  = Params r.
Proof.
  revert r. induction returns as [|v l IH]; intros r; simpl.
  - by rewrite app_nil_r.
  - destruct (IH (set_ReturnValues (ReturnValues r ++ [fmt_v v]) r))
      as [-> ->]. simpl. by rewrite <- app_assoc.
Qed.

(** X8: the parameter map of the top record holds, for each name, the
    rendering of the last value logged under it: after a series of
    [RecordParam] calls the map is the old one overridden by the logged
    pairs, a later pair for a name replacing an earlier one; the return
    values, the rest of the stack and the aggregate list stay. *)
Theorem params_last_write_wins s rest top (kvs : list (string * value)) :
  callStack s = rest ++ [top] ->
  let s' := run ((fun kv => OpParam kv.1 kv.2) <$> kvs) s in
  traceRecords s' = traceRecords s /\
  exists top',
    callStack s' = rest ++ [top'] /\
    Params top'
    = list_to_map (reverse ((fun kv => (kv.1, fmt_v kv.2)) <$> kvs))
      ∪ Params top /\
    ReturnValues top' = ReturnValues top /\
    entryFields top' = entryFields top.
Proof.
  intros E s'. subst s'. induction kvs as [|[k v] kvs IH] using rev_ind.
  - simpl. split; [done|]. exists top. repeat split; [done|].
    by rewrite (left_id_L ∅ (∪)).
  - rewrite fmap_app, run_app. simpl.
    destruct IH as (Ht & top1 & E1 & Hp & Hr & Hf).
    unfold RecordParam. rewrite (on_top_snoc _ _ _ _ E1). simpl.
    split; [done|]. eexists. split; [reflexivity|]. simpl.
    rewrite Hp, fmap_app, reverse_app. simpl.
    by rewrite insert_union_l.
Qed.

(** X9: return values accumulate in call order: after a series of
    [RecordReturn] calls the return list of the top record is the old
    list followed by the renderings of all the values of all the calls,
    in order; the parameter map stays. *)
Theorem returns_accumulate s rest top fn (returnss : list (list value)) :
  callStack s = rest ++ [top] ->
  let s' := run (OpReturn fn <$> returnss) s in
  traceRecords s' = traceRecords s /\
  exists top',
    callStack s' = rest ++ [top'] /\
    ReturnValues top' = ReturnValues top ++ (fmt_v <$> concat returnss) /\
    Params top' = Params top /\
    entryFields top' = entryFields top.
Proof.
  intros E s'. subst s'. induction returnss as [|l ls IH] using rev_ind.
  - simpl. split; [done|]. exists top. by rewrite app_nil_r.
  - rewrite fmap_app, run_app. simpl.
    destruct IH as (Ht & top1 & E1 & Hr & Hp & Hf).
    unfold RecordReturn. rewrite (on_top_snoc _ _ _ _ E1). simpl.
    split; [done|]. eexists. split; [reflexivity|].
    destruct (fold_returns_values l top1) as [-> ->].
    destruct (keeps_fold_returns l top1) as [-> _].
    rewrite Hr, concat_app, fmap_app. simpl. rewrite app_nil_r.
    by rewrite <- app_assoc.
Qed.

(** X10: the graph written from any state reached from the start (with
    fewer than 2^63 entries) has one node per completed record, with
    pairwise distinct ids; every edge ends at a node and starts at a
    smaller id, so no edge is a loop, and it starts at a node or at the
    id of a record that is still on the stack. *)
Theorem graph_of_a_run ops outputFile writeOk :
  Z.of_nat (entries ops) < 2 ^ 63 ->
  let s := run ops initial in
  let text := (DumpCallGraphDOT nodeLabel outputFile writeOk s).1.1 in
  length (dot_nodes text) = length (traceRecords s) /\
  NoDup (dot_nodes text) /\
  forall c i, (c, i) ∈ dot_edges text ->
    i ∈ dot_nodes text /\ 1 <= c < i /\
    (c ∈ dot_nodes text \/ c ∈ UniqueID <$> callStack s).
Proof.
  intros Hb s text.
  assert (Hb' : uniqueID (@initial value) + Z.of_nat (entries ops)
                <= max_int64) by (unfold max_int64; simpl; lia).
  destruct (run_consistent fmt_v nodeLabel ops initial initial_consistent Hb')
    as [Hc _]. fold s in Hc.
  assert (Htext : text = dotText nodeLabel (traceRecords s)).
  { unfold text, DumpCallGraphDOT. by destruct writeOk. }
  rewrite Htext, dot_nodes_dotText, dot_edges_dotText.
  split; [by rewrite length_fmap|]. split.
  - pose proof (ok_nodup _ _ _ Hc) as Hd.
    rewrite fmap_app in Hd. apply NoDup_app in Hd as (_ & _ & Hd).
    by rewrite fst_idc in Hd.
  - intros c i (r & [= -> ->] & Hr)%list_elem_of_fmap.
    apply list_elem_of_filter in Hr as [Hcall Hr].
    split; [by apply list_elem_of_fmap_2|].
    assert (Hheld : r ∈ held s) by (apply elem_of_app; by right).
    pose proof (ok_caller _ _ _ Hc) as Hcaller. rewrite <- fmap_app in Hcaller.
    eapply Forall_forall in Hcaller; [|apply list_elem_of_fmap_2; exact Hheld].
    simpl in Hcaller. destruct Hcaller as [?|[Hlt Hin]]; [done|].
    rewrite fst_idc in Hin.
    apply list_elem_of_fmap in Hin as (r' & E & Hr').
    pose proof (held_range s r' Hc Hr') as Hrange.
    split; [lia|]. rewrite E.
    apply elem_of_app in Hr' as [Hr'|Hr'].
    + right. by apply list_elem_of_fmap_2.
    + left. by apply list_elem_of_fmap_2.
Qed.

(** X11: on a normal exit the resource figures reach the record of the
    activation itself: the deferred block of figures runs before
    [RecordExit], so the record appended has the goroutine, thread, GC,
    heap and I/O figures of the block (the heap-free figure is always 0),
    its parameters and return values are kept, the stack is popped and
    the call counter of the function goes up by one. *)
Theorem normal_exit_records_figures s rest top fn e :
  callStack s = rest ++ [top] ->
  let s' := run (unwindOps fn e None) s in
  callStack s' = rest /\
  execFrequency s' !! fn = Some (wrap_int64 (frequency s fn + 1)) /\
  exists r,
    traceRecords s' = traceRecords s ++ [r] /\
    entryFields r = entryFields top /\
    Params r = Params top /\
    ReturnValues r = ReturnValues top /\
    GoroutinesDelta r = goroutinesDelta e /\
    ThreadsDelta r = threadsDelta e /\
    GCCountDelta r = gcRuns e /\
    HeapAllocDelta r = heapAllocDiff' e /\
    HeapFreeDelta r = 0 /\
    NetUsageDelta r = netDelta e /\
    DiskUsageDelta r = diskDelta e /\
    ExitTime r = exitNow e /\
    Duration r = time_Sub (exitNow e) (EntryTime top).
Proof.
  intros E s'. subst s'. unfold unwindOps, run, Tracer.run. simpl.
  unfold RecordResourceUsage, RecordGoroutineUsage, RecordThreadUsage,
    RecordGCActivity, RecordHeapUsage, RecordIOUsage,
    RecordExecutionFrequency.
  set (s1 := println _ s).
  assert (E1 : callStack s1 = rest ++ [top]) by exact E.
  rewrite (on_top_snoc _ s1 rest _ E1).
  set (s2 := println _ (set_callStack _ s1)).
  rewrite (on_top_snoc _ s2 rest _ eq_refl).
  set (s3 := println _ (set_callStack _ s2)).
  rewrite (on_top_snoc _ s3 rest _ eq_refl).
  set (s4 := println _ (set_callStack _ s3)).
  rewrite (on_top_snoc _ s4 rest _ eq_refl).
  set (s5 := println _ (set_callStack _ s4)).
  rewrite (on_top_snoc _ s5 rest _ eq_refl).
  unfold RecordExit. simpl. rewrite top_of_snoc, pop_of_snoc. simpl.
  split; [done|]. split; [by rewrite lookup_insert_eq|].
  eexists. split; [reflexivity|]. by repeat split.
Qed.

End Life.

End TracerMore.

(** * The graph of a root and the records it called *)

Module GraphFacts.
Import Tracer Spec Notions TracerFacts TracerMore.

Section Order.

Context {value : Type}.
Variable fmt_v : value -> string.
Variable nodeLabel : TraceRecord value -> string.
Implicit Types (s : Recorder value) (r : TraceRecord value).
Implicit Types (ops : list (Op value)).

#[local] Abbreviation step := (step fmt_v nodeLabel).
#[local] Abbreviation run := (run fmt_v nodeLabel).

Lemma callersAfter_push st i ag :
  callersAfter st ag -> callersAfter (st ++ [i]) ag.
Proof.
  induction ag as [|p ag IH]; simpl; [done|].
  intros [H Hag]. split; [|by apply IH].
  rewrite elem_of_app. tauto.
Qed.

Lemma callersAfter_pop st i c ag :
  callersAfter (st ++ [i]) ag ->
  c = 0 \/ c ∈ st ->
  callersAfter st (ag ++ [(i, c)]).
Proof.
  intros Hag Hc. induction ag as [|p ag IH]; simpl in *.
  - split; [|done]. tauto.
  - destruct Hag as [H Hag]. split; [|by apply IH].
    rewrite fmap_app, !elem_of_app in *. simpl.
    rewrite list_elem_of_singleton in *. tauto.
Qed.

Lemma chained_last below st p :
  chained below (st ++ [p]) -> p.2 = from_option fst below (last st).
Proof.
  revert below. induction st as [|q st IH]; intros below; simpl.
  - by intros [? _].
  - intros [_ Hc]. rewrite (IH _ Hc).
    destruct st as [|q' st]; [reflexivity|].
    change (last (q :: q' :: st)) with (last (q' :: st)).
    destruct (last (q' :: st)) eqn:El; [done|]. by apply last_None in El.
Qed.

Lemma step_order s op :
  chained 0 (idc <$> callStack s) /\
  callersAfter (UniqueID <$> callStack s) (idc <$> traceRecords s) ->
  chained 0 (idc <$> callStack (step s op)) /\
  callersAfter (UniqueID <$> callStack (step s op))
    (idc <$> traceRecords (step s op)).
Proof.
  intros [Hc Ha].
  destruct (op_cases op) as [(fn & now & mem & ->)|
                             [(fn & st & now & ma & ld & sm & ->)|Hq]].
  - simpl. rewrite !fmap_app. simpl. split; [|by apply callersAfter_push].
    unfold idc at 2. simpl.
    replace (match top_of (callStack s) with
             | Some top => UniqueID top
             | None => 0
             end) with (from_option fst 0 (last (idc <$> callStack s))).
    { by apply chained_snoc. }
    rewrite fmap_last. unfold top_of. by destruct (last (callStack s)).
  - simpl. destruct (stack_cases (callStack s)) as [E|(rest & top & E)].
    + by rewrite RecordExit_empty.
    + destruct (RecordExit_snoc s rest top fn st now ma ld sm E)
        as (-> & -> & _).
      rewrite E, !fmap_app in *. simpl in *. split.
      * by apply chained_prefix in Hc.
      * change (idc (finalize now ma ld sm top))
          with (UniqueID top, CallerID top).
        apply callersAfter_pop; [done|].
        apply chained_last in Hc. simpl in Hc. rewrite Hc.
        destruct (stack_cases rest) as [->|(rest' & below & ->)];
          [by left|right].
        rewrite !fmap_app. simpl. rewrite last_snoc. simpl.
        apply elem_of_app. right. by apply list_elem_of_singleton.
  - destruct (quiet_step fmt_v nodeLabel s op Hq) as (-> & _).
    rewrite (quiet_ids fmt_v nodeLabel s op Hq).
    split; [done|]. rewrite <- fst_idc, (quiet_ids fmt_v nodeLabel s op Hq).
    by rewrite fst_idc.
Qed.

Lemma run_order ops :
  callersAfter (UniqueID <$> callStack (run ops initial))
    (idc <$> traceRecords (run ops initial)).
Proof.
  apply (run_invariant fmt_v nodeLabel (fun s =>
    chained 0 (idc <$> callStack s) /\
    callersAfter (UniqueID <$> callStack s) (idc <$> traceRecords s)));
    [apply step_order|done].
Qed.


(** What the invariants say of an aggregate list of a reachable state:
    its ids are at least 1, pairwise distinct and not on the stack, and
    a caller id that is present is on the stack or further on. *)
Lemma reachable_aggregate ops :
  Z.of_nat (entries ops) < 2 ^ 63 ->
  let s := run ops initial in
  NoDup (UniqueID <$> held s) /\
  (forall r, r ∈ held s -> 1 <= UniqueID r) /\
  callersAfter (UniqueID <$> callStack s) (idc <$> traceRecords s).
Proof.
  intros Hb s.
  assert (Hb' : uniqueID (@initial value) + Z.of_nat (entries ops)
                <= max_int64) by (unfold max_int64; simpl; lia).
  destruct (run_consistent fmt_v nodeLabel ops initial initial_consistent Hb')
    as [Hc _].
  fold s in Hc. split; [|split].
  - pose proof (ok_nodup _ _ _ Hc) as Hn.
    by rewrite <- fmap_app, fst_idc in Hn.
  - intros r Hr. by destruct (held_range s r Hc Hr).
  - apply run_order.
Qed.

(** C6 (amended): in a state reached by recorder operations (fewer than
    2^63 entries), when the aggregate list holds exactly three records,
    the root with no caller id and two records called by it, the root
    is the last of them, since a record is appended when it exits, and
    [DumpCallGraphDOT] writes three nodes, one per record and the root
    among them, and exactly two edges, both from the root's id.  The
    root is left out only while it is active: when it is on the stack
    and the aggregate list holds the two records called by it, the
    graph has these two nodes, none for the root, and the same two
    edges. *)
Theorem DumpCallGraphDOT_root_and_callees ops outputFile writeOk :
  Z.of_nat (entries ops) < 2 ^ 63 ->
  let s := run ops initial in
  let text := (DumpCallGraphDOT nodeLabel outputFile writeOk s).1.1 in
  (forall x y z root,
     traceRecords s = [x; y; z] ->
     root ∈ [x; y; z] ->
     CallerID root = 0 ->
     (forall r, r ∈ [x; y; z] -> r <> root -> CallerID r = UniqueID root) ->
     z = root /\
     text = [ DotOpen; DotNodeStyle;
              DotNode (UniqueID x) (nodeLabel x);
              DotNode (UniqueID y) (nodeLabel y);
              DotNode (UniqueID root) (nodeLabel root);
              DotEdge (UniqueID root) (UniqueID x);
              DotEdge (UniqueID root) (UniqueID y);
              DotClose ] /\
     dot_nodes text = [UniqueID x; UniqueID y; UniqueID root] /\
     dot_edges text
     = [(UniqueID root, UniqueID x); (UniqueID root, UniqueID y)]) /\
  (forall x y root,
     traceRecords s = [x; y] ->
     root ∈ callStack s ->
     CallerID x = UniqueID root ->
     CallerID y = UniqueID root ->
     text = [ DotOpen; DotNodeStyle;
              DotNode (UniqueID x) (nodeLabel x);
              DotNode (UniqueID y) (nodeLabel y);
              DotEdge (UniqueID root) (UniqueID x);
              DotEdge (UniqueID root) (UniqueID y);
              DotClose ] /\
     dot_nodes text = [UniqueID x; UniqueID y] /\
     (UniqueID root ∉ dot_nodes text) /\
     dot_edges text
     = [(UniqueID root, UniqueID x); (UniqueID root, UniqueID y)]).
Proof.
  intros Hb s text.
  destruct (reachable_aggregate ops Hb) as (Hnd & Hpos & Hord).
  fold s in Hnd, Hpos, Hord.
  assert (Htext : text = dotText nodeLabel (traceRecords s)).
  { unfold text, DumpCallGraphDOT. by destruct writeOk. }
  unfold held in Hnd. rewrite fmap_app in Hnd.
  apply NoDup_app in Hnd as (_ & Hst & Hag).
  split.
  - intros x y z root Hrec Hroot H0 Hcall.
    rewrite Hrec in *. simpl in Hord, Hag.
    destruct Hord as (_ & Hy & Hz & _).
    apply NoDup_cons in Hag as [Hx Hag].
    apply NoDup_cons in Hag as [Hyz _].
    apply not_elem_of_cons in Hx as [Hxy Hxz].
    apply not_elem_of_cons in Hxz as [Hxz _].
    apply not_elem_of_cons in Hyz as [Hyz _].
    assert (Hin : forall r, r ∈ [x; y; z] ->
              1 <= UniqueID r /\ (UniqueID r ∉ UniqueID <$> callStack s)).
    { intros r Hr. split.
      - apply Hpos. unfold held. rewrite Hrec. apply elem_of_app. by right.
      - intros Hs. apply (Hst _ Hs). by apply list_elem_of_fmap_2. }
    assert (Hmem : x ∈ [x; y; z] /\ y ∈ [x; y; z] /\ z ∈ [x; y; z]).
    { split; [|split]; repeat constructor. }
    destruct Hmem as (Mx & My & Mz).
    assert (Hzr : z = root).
    { rewrite !elem_of_cons, elem_of_nil in Hroot.
      destruct Hroot as [->|[->|[->|[]]]]; [| |done].
      - assert (Hne : y <> x) by (intros ->; done).
        rewrite (Hcall y My Hne) in Hy.
        destruct (Hin x Mx) as [? ?].
        rewrite elem_of_cons, elem_of_nil in Hy.
        destruct Hy as [?|[?|[?|[]]]]; [lia|done|done].
      - assert (Hne : z <> y) by (intros ->; done).
        rewrite (Hcall z Mz Hne) in Hz.
        destruct (Hin y My) as [? ?].
        rewrite elem_of_nil in Hz.
        destruct Hz as [?|[?|[]]]; [lia|done]. }
    subst z. split; [done|].
    assert (Hx' : CallerID x = UniqueID root).
    { apply Hcall; [done|]. by intros ->. }
    assert (Hy' : CallerID y = UniqueID root).
    { apply Hcall; [done|]. by intros ->. }
    destruct (Hin root Mz) as [Hr _].
    rewrite Htext. unfold dotText. simpl. rewrite H0, Hx', Hy'.
    destruct (decide (0 <> 0)) as [?|_]; [done|].
    destruct (decide (UniqueID root <> 0)) as [_|?]; [done|lia].
  - intros x y root Hrec Hroot Hx Hy.
    assert (Hr : 1 <= UniqueID root).
    { apply Hpos, elem_of_app. by left. }
    rewrite Htext, Hrec. unfold dotText. simpl. rewrite Hx, Hy.
    destruct (decide (UniqueID root <> 0)) as [_|?]; [|lia].
    repeat split; try done.
    intros Hin. apply (Hst (UniqueID root)).
    + by apply list_elem_of_fmap_2.
    + by rewrite Hrec.
Qed.

End Order.

End GraphFacts.

(** * Properties of the rewrite *)

Module InstrumentFacts.
Import Instrument Spec.

#[local] Open Scope string_scope.

(** Induction along the traversal of [transformReturnsInStmt]: blocks,
    [if] statements with their [else] branch, [for] statements, and
    every other statement as it is. *)
Lemma stmt_traversal_ind (P : stmt -> Prop) :
  (forall l, Forall P l -> P (BlockStmt l)) ->
  (forall init cond body els,
      Forall P body -> (forall e, els = Some e -> P e) ->
      P (IfStmt init cond body els)) ->
  (forall init cond post body,
      Forall P body -> P (ForStmt init cond post body)) ->
  (forall s,
      match s with
      | BlockStmt _ | IfStmt _ _ _ _ | ForStmt _ _ _ _ => False
      | _ => True
      end -> P s) ->
  forall s, P s.
Proof.
  intros Hblock Hif Hfor Hother. fix IH 1. intros s.
  pose (all := fix all (l : list stmt) : Forall P l :=
          match l with
          | [] => @List.Forall_nil stmt P
          | x :: l' => @List.Forall_cons stmt P x l' (IH x) (all l')
          end).
  destruct s; try (apply Hother; exact I).
  - apply Hblock, all.
  - apply Hif; [apply all|].
    destruct els as [e|]; intros e' [= <-]. apply IH.
  - apply Hfor, all.
Qed.

(** The loop over the results stops at a call expression or at [nil]. *)
Lemma keepsReturn_spec results :
  keepsReturn results = true <-> Exists callOrNil results.
Proof.
  induction results as [|e l IH]; simpl.
  - split; [done|]. by intros H%Exists_nil.
  - rewrite Exists_cons. unfold callOrNil at 1.
    destruct e; try (rewrite IH; split; [by right|];
                     intros [[(? & ? & ?)|?]|?]; done).
    + destruct (String.eqb_spec name "nil") as [->|Hne].
      * split; [|done]. intros _. left. by right.
      * rewrite IH. split; [by right|].
        intros [[(? & ? & ?)|[= ?]]|?]; done.
    + split; [|done]. intros _. left. left. eauto.
Qed.

Lemma imap_zip_with {A B C} (g : nat -> A) (F : A -> B -> C) (l : list B) k :
  imap (fun i e => F (g (k + i)%nat) e) l
  = zip_with F (g <$> seq k (length l)) l.
Proof.
  revert k. induction l as [|x l IH]; intros k; [done|].
  rewrite imap_cons. simpl. rewrite Nat.add_0_r. f_equal.
  rewrite <- IH. apply imap_ext. intros i y _. simpl. f_equal. f_equal. lia.
Qed.

(** The block built by [transformReturnStmt] is the recording block. *)
Lemma transformReturnStmt_recorded results functionName :
  transformReturnStmt results functionName
  = recordedReturn functionName results.
Proof.
  unfold transformReturnStmt, recordedReturn, temps, tracerCall.
  assert (E : imap (fun i (_ : expr) => Ident (retName i)) results
              = (fun i => Ident (retName i)) <$> seq 0 (length results)).
  { apply imap_seq_0. }
  rewrite E. f_equal. f_equal.
  apply (imap_zip_with (fun i => Ident (retName i))
           (fun t e => AssignStmt [t] DEFINE [e]) results 0).
Qed.

(** Different indices give different temporaries. *)
Lemma retName_inj i j : retName i = retName j -> i = j.
Proof.
  unfold retName. intros E.
  apply (inj (String.append "_ret")) in E. by apply (inj pretty) in E.
Qed.

(** The temporaries of one return are pairwise distinct. *)
Lemma temps_distinct n : NoDup (temps n).
Proof.
  unfold temps. apply NoDup_fmap_2; [|apply NoDup_seq].
  intros i j [= E]. apply retName_inj. unfold retName. by f_equal.
Qed.

(** The statements of the [default] case stay as they are. *)
Lemma other_unchanged s functionName :
  other s = true -> transformReturnsInStmt s functionName = s.
Proof. by destruct s. Qed.

(** A statement without a return statement is covered, whatever its
    kind. *)
Lemma covered_without_return s : hasReturn s = false -> covered s = true.
Proof.
  induction s as [l IH|init cond body els IHb IHe|init cond post body IH|s Hs]
    using stmt_traversal_ind; simpl.
  - intros H. apply forallb_forall. intros x Hx.
    eapply Forall_forall in IH; [apply IH|by apply list_elem_of_In].
    destruct (hasReturn x) eqn:E; [|done].
    assert (existsb hasReturn l = true); [|congruence].
    apply existsb_exists. eauto.
  - intros H. apply orb_false_elim in H as [H He].
    apply orb_false_elim in H as [Hi Hb]. rewrite Hi. simpl.
    apply andb_true_intro. split.
    + apply forallb_forall. intros x Hx.
      eapply Forall_forall in IHb; [apply IHb|by apply list_elem_of_In].
      destruct (hasReturn x) eqn:E; [|done].
      assert (existsb hasReturn body = true); [|congruence].
      apply existsb_exists. eauto.
    + destruct els as [e|]; [|done]. by apply (IHe e).
  - intros H. apply orb_false_elim in H as [H Hb].
    apply orb_false_elim in H as [Hi Hp]. rewrite Hi, Hp. simpl.
    apply forallb_forall. intros x Hx.
    eapply Forall_forall in IH; [apply IH|by apply list_elem_of_In].
    destruct (hasReturn x) eqn:E; [|done].
    assert (existsb hasReturn body = true); [|congruence].
    apply existsb_exists. eauto.
  - intros H. destruct s; try done; simpl in *; by rewrite ?H.
Qed.

Lemma rewritten_all functionName (l : list stmt) :
  Forall (fun s => covered s = true ->
                   Rewritten functionName s
                     (transformReturnsInStmt s functionName)) l ->
  forallb covered l = true ->
  Forall2 (Rewritten functionName) l
    (List.map (fun x => transformReturnsInStmt x functionName) l).
Proof.
  induction 1 as [|s l Hs _ IH]; simpl; [constructor|].
  intros [Hc Hl]%andb_prop. constructor; auto.
Qed.

(** C3 (amended): in a body whose returns are nested through blocks,
    [if]/[else] and [for] statements (statements of other kinds may
    occur, as long as they hold no return), every return statement is
    replaced by the block that binds each result to its temporary,
    calls [tracer.RecordReturn] with the function name and the
    temporaries and returns the temporaries, unless one of its results
    is a call expression or the identifier [nil]; a return statement is
    left as it is exactly when at least one of its results is such an
    expression. *)
Theorem returns_rewritten functionName s :
  covered s = true ->
  Rewritten functionName s (transformReturnsInStmt s functionName) /\
  (forall results,
     transformReturnsInStmt (ReturnStmt results) functionName
     = ReturnStmt results
     <-> Exists callOrNil results).
Proof.
  intros Hcov. split.
  - revert Hcov. induction s using stmt_traversal_ind; simpl.
    + intros Hc. constructor. by apply rewritten_all.
    + intros [[_ Hb]%andb_prop He]%andb_prop.
      constructor; [by apply rewritten_all|].
      destruct els as [e|]; constructor. by apply (H0 e).
    + intros [_ Hc]%andb_prop. constructor. by apply rewritten_all.
    + intros Hc.
      destruct s; try done;
        try (apply RwOther; [reflexivity|by apply negb_true_iff]).
      simpl. destruct (keepsReturn results) eqn:Ek.
      * apply RwKept. by apply keepsReturn_spec.
      * rewrite transformReturnStmt_recorded. apply RwRecorded.
        apply Forall_forall. intros e He Hcall.
        assert (keepsReturn results = true); [|congruence].
        apply keepsReturn_spec, Exists_exists. eauto.
  - intros results. simpl. rewrite <- keepsReturn_spec.
    destruct (keepsReturn results); [done|].
    split; [|done]. rewrite transformReturnStmt_recorded. discriminate.
Qed.

(** The injected statements hold no return statement: the rewriting of
    the returns leaves them as they are. *)
Lemma newStmts_unchanged fnNameLit functionName :
  transformReturnsInBlock (newStmts fnNameLit) functionName
  = newStmts fnNameLit.
Proof. reflexivity. Qed.

Lemma paramLogs_unchanged params functionName :
  transformReturnsInBlock (paramLogs params) functionName = paramLogs params.
Proof.
  unfold transformReturnsInBlock.
  rewrite <- (map_id (paramLogs params)) at 2. apply map_ext_in.
  intros s Hs. destruct params as [l|]; simpl in Hs; [|done].
  apply in_flat_map in Hs as (f & _ & Hs).
  apply in_map_iff in Hs as (name & <- & _). reflexivity.
Qed.

(** The body of an instrumented function: the injected statements, the
    parameter logs, then the original statements with their returns
    rewritten (and the graph dump at the end of [main]). *)
Lemma instrumentFuncDecl_body fn body :
  Body fn = Some body ->
  Name fn <> "init" ->
  Body (instrumentFuncDecl fn)
  = Some (newStmts (quoted (Name fn)) ++ paramLogs (Params fn)
          ++ transformReturnsInBlock
               (if String.eqb (Name fn) "main" && bool_decide (Recv fn = None)
                then body ++ [dumpCallGraphStmt] else body)
               (Name fn))%list.
Proof.
  intros Hbody Hname. unfold instrumentFuncDecl. rewrite Hbody.
  destruct (String.eqb_spec (Name fn) "init") as [?|_]; [done|].
  cbn [Body]. f_equal. unfold transformReturnsInBlock.
  rewrite !map_app.
  change (map (fun x => transformReturnsInStmt x (Name fn))
            (newStmts (quoted (Name fn))))
    with (newStmts (quoted (Name fn))).
  rewrite <- app_assoc. f_equal. f_equal.
  apply (paramLogs_unchanged (Params fn) (Name fn)).
Qed.

(** C4: in every instrumented function the injected statements come
    first and run in sequence; they register the recovery block, then
    [RecordExit], then the block of resource figures.  Whatever the rest
    of the body defers later, the pending calls therefore end, in the
    order in which they run on any exit, with the block of resource
    figures (resource usage, goroutines, threads, GC, heap, I/O,
    execution frequency), then [RecordExit], then the recovery block. *)
Theorem cleanup_blocks_run_in_order fn body (later : list expr) :
  Body fn = Some body ->
  Name fn <> "init" ->
  let lit := quoted (Name fn) in
  (exists rest,
     Body (instrumentFuncDecl fn) = Some (newStmts lit ++ rest)%list) /\
  forallb straightLine (newStmts lit) = true /\
  DeferStmt <$> registerDefers (newStmts lit) []
  = [newDefer lit; deferExit lit; recoverStmt lit] /\
  deferredRecorderCalls <$> (later ++ registerDefers (newStmts lit) [])%list
  = ((deferredRecorderCalls <$> later)
     ++ [ [ "RecordResourceUsage"; "RecordGoroutineUsage";
            "RecordThreadUsage"; "RecordGCActivity"; "RecordHeapUsage";
            "RecordIOUsage"; "RecordExecutionFrequency" ];
          [ "RecordExit" ];
          [ "RecordPanic" ] ])%list.
Proof.
  intros Hbody Hname lit. repeat split.
  - eexists. by apply instrumentFuncDecl_body.
  - by rewrite fmap_app.
Qed.

End InstrumentFacts.

(** * The values of a rewritten return *)

Module MeaningFacts.
Import Instrument Spec InstrumentFacts.

Section ReturnValues.

Context {V W : Type}.
Variable evalExpr : W -> gmap string V -> expr -> option (V * W).

(** An identifier evaluates to the variable in scope, without effect. *)
Hypothesis evalExpr_Ident : forall w vars x,
  evalExpr w vars (Ident x) = (fun v => (v, w)) <$> (vars !! x).

(** Declaring a variable an expression does not read does not change
    the evaluation of the expression. *)
Hypothesis evalExpr_fresh : forall w vars x v e,
  occurs x e = false ->
  evalExpr w (<[x := v]> vars) e = evalExpr w vars e.

Lemma evalResults_agree w (vars vars' : gmap string V) results :
  (forall w' e, e ∈ results -> evalExpr w' vars' e = evalExpr w' vars e) ->
  evalResults evalExpr w vars' results = evalResults evalExpr w vars results.
Proof.
  revert w. induction results as [|e l IH]; intros w H; simpl; [done|].
  rewrite H by left. destruct (evalExpr w vars e) as [[v w1]|]; [|done].
  rewrite IH; [done|]. intros w' e' He'. apply H. by right.
Qed.

(** The temporaries evaluate to the values they were bound to. *)
Lemma evalResults_temps_from w (vars : gmap string V) vs k :
  (forall i v, vs !! i = Some v -> vars !! retName (k + i) = Some v) ->
  evalResults evalExpr w vars
    ((fun i => Ident (retName i)) <$> seq k (length vs))
  = Some (vs, w).
Proof.
  revert k. induction vs as [|v vs IH]; intros k H; simpl; [done|].
  rewrite evalExpr_Ident.
  rewrite <- (Nat.add_0_r k) at 1. rewrite (H 0%nat v eq_refl). simpl.
  rewrite IH; [done|]. intros i v' Hi.
  replace (S k + i)%nat with (k + S i)%nat by lia. by apply H.
Qed.

Lemma returnedBy_recorded functionName results :
  (forall i e, (i < length results)%nat -> e ∈ results ->
     occurs (retName i) e = false) ->
  forall rest done vs w (vars vars' : gmap string V),
    results = done ++ rest ->
    length vs = length done ->
    (forall i v, vs !! i = Some v -> vars' !! retName i = Some v) ->
    (forall w' e, e ∈ results -> evalExpr w' vars' e = evalExpr w' vars e) ->
    returnedBy evalExpr w vars'
      (zip_with (fun t e => AssignStmt [t] DEFINE [e])
         ((fun i => Ident (retName i)) <$> seq (length done) (length rest))
         rest
       ++ [ ExprStmt (CallExpr (SelectorExpr (Ident "tracer") "RecordReturn")
                        (BasicLit STRING (quoted functionName)
                         :: temps (length results)));
            ReturnStmt (temps (length results)) ])
    = (fun r => (vs ++ r.1, r.2)) <$> evalResults evalExpr w vars rest.
Proof.
  intros Hfresh. induction rest as [|e rest IH];
    intros done vs w vars vars' Hres Hlen Hvs Hagree.
  - simpl. rewrite app_nil_r in Hres. subst done.
    rewrite app_nil_r, <- Hlen. unfold temps.
    apply (evalResults_temps_from w vars' vs 0). exact Hvs.
  - simpl.
    assert (He : e ∈ results) by (subst results; set_solver).
    rewrite (Hagree w e He).
    destruct (evalExpr w vars e) as [[v w1]|]; [|done].
    specialize (IH (done ++ [e]) (vs ++ [v]) w1 vars
                  (<[retName (length done) := v]> vars')).
    assert (Hl : length (done ++ [e]) = S (length done))
      by (rewrite length_app; simpl; lia).
    rewrite Hl in IH. etrans; [apply IH|].
    + by rewrite <- app_assoc.
    + rewrite length_app. simpl. lia.
    + intros i v' Hi.
      destruct (decide (i = length done)) as [->|Hne].
      * rewrite lookup_insert_eq. rewrite <- Hlen in Hi.
        by rewrite list_lookup_middle in Hi.
      * rewrite lookup_insert_ne
          by (intros E; apply Hne; symmetry; by apply retName_inj).
        apply Hvs. apply lookup_app_Some in Hi as [Hi|[Hge Hi]]; [done|].
        apply list_lookup_singleton_Some in Hi as [Hi _]. lia.
    + intros w' e' He'. rewrite evalExpr_fresh; [by apply Hagree|].
      apply Hfresh; [|done]. subst results. rewrite length_app. simpl. lia.
    + destruct (evalResults evalExpr w1 vars rest) as [[vs' w2]|]; [|done].
      simpl. by rewrite <- app_assoc.
Qed.

(** When no result reads a temporary, the block a return is rewritten
    to returns the values of the return, with the same effects. *)
Lemma recorded_return_same_values w (vars : gmap string V) functionName
    results :
  (forall i e, (i < length results)%nat -> e ∈ results ->
     occurs (retName i) e = false) ->
  returned evalExpr w vars
    (transformReturnsInStmt (ReturnStmt results) functionName)
  = returned evalExpr w vars (ReturnStmt results).
Proof.
  intros Hfresh. simpl. destruct (keepsReturn results); [done|].
  rewrite transformReturnStmt_recorded. unfold recordedReturn, returned.
  etrans.
  { apply (returnedBy_recorded functionName results Hfresh results [] []
             w vars vars); done. }
  by destruct (evalResults evalExpr w vars results) as [[? ?]|].
Qed.

End ReturnValues.

(** The evaluation of integer expressions meets both assumptions. *)
Lemma intEval_Ident w vars x :
  intEval w vars (Ident x) = (fun v => (v, w)) <$> (vars !! x).
Proof. unfold intEval. simpl. by destruct (vars !! x). Qed.

Lemma intValue_fresh vars x v :
  forall e, occurs x e = false ->
            intValue (<[x := v]> vars) e = intValue vars e.
Proof.
  fix IH 1. intros e. destruct e; simpl; try done.
  - intros Hx. apply String.eqb_neq in Hx. by apply lookup_insert_ne.
  - apply IH.
  - intros [H1 H2]%orb_false_elim. destruct op; try done.
    by rewrite !IH.
Qed.

Lemma intEval_fresh w vars x v e :
  occurs x e = false -> intEval w (<[x := v]> vars) e = intEval w vars e.
Proof. intros H. unfold intEval. by rewrite intValue_fresh. Qed.

End MeaningFacts.

(** * The recorder calls of an activation that unwinds *)

Module UnwindFacts.
Import Tracer Instrument Spec TracerFacts.

Section Unwind.

Context {value : Type}.
Variable fmt_v : value -> string.
Variable nodeLabel : TraceRecord value -> string.
Implicit Types (s : Recorder value) (r : TraceRecord value).

#[local] Abbreviation run := (run fmt_v nodeLabel).

(** The calls of [unwindOps] are those of the three deferred blocks, in
    the order in which the blocks run. *)
Lemma unwindOps_follow_deferred fn fnNameLit e (v : value) stack :
  op_name <$> unwindOps fn e (Some (v, stack))
  = concat (deferredRecorderCalls
              <$> registerDefers (newStmts fnNameLit) []).
Proof. reflexivity. Qed.

Lemma unwindOps_follow_deferred_normal fn fnNameLit e :
  op_name <$> unwindOps (value := value) fn e None
  = concat (deferredRecorderCalls
              <$> take 2 (registerDefers (newStmts fnNameLit) [])).
Proof. reflexivity. Qed.

(** The calls of the block of resource figures change neither the id,
    nor the panic value, nor the stack trace of the top record, and
    leave the rest of the stack and the aggregate list as they are. *)
Lemma figures_keep_fault s rest top fn e :
  callStack s = rest ++ [top] ->
  let s' := run (take 7 (unwindOps fn e None)) s in
  traceRecords s' = traceRecords s /\
  exists top',
    callStack s' = rest ++ [top'] /\
    UniqueID top' = UniqueID top /\
    EntryTime top' = EntryTime top /\
    PanicValue top' = PanicValue top /\
    StackTrace top' = StackTrace top.
Proof.
  intros E s'. subst s'. unfold unwindOps, run, Tracer.run. simpl.
  unfold RecordResourceUsage, RecordGoroutineUsage, RecordThreadUsage,
    RecordGCActivity, RecordHeapUsage, RecordIOUsage,
    RecordExecutionFrequency.
  set (s1 := println _ s).
  assert (E1 : callStack s1 = rest ++ [top]) by exact E.
  rewrite (on_top_snoc _ s1 rest _ E1).
  set (s2 := println _ (set_callStack _ s1)).
  rewrite (on_top_snoc _ s2 rest _ eq_refl).
  set (s3 := println _ (set_callStack _ s2)).
  rewrite (on_top_snoc _ s3 rest _ eq_refl).
  set (s4 := println _ (set_callStack _ s3)).
  rewrite (on_top_snoc _ s4 rest _ eq_refl).
  set (s5 := println _ (set_callStack _ s4)).
  rewrite (on_top_snoc _ s5 rest _ eq_refl).
  simpl. split; [done|]. eexists. split; [reflexivity|]. by repeat split.
Qed.

(** When an activation unwinds, [RecordExit] has popped and appended
    its record before the recovery block calls [RecordPanic]: the
    appended record keeps the panic value and the stack trace it had, and
    the value goes to the record below it, if there is one. *)
Lemma unwinding_records_fault_below s rest top fn e (v : value) stack :
  callStack s = rest ++ [top] ->
  let s' := run (unwindOps fn e (Some (v, stack))) s in
  (exists r,
     traceRecords s' = traceRecords s ++ [r] /\
     UniqueID r = UniqueID top /\
     PanicValue r = PanicValue top /\
     StackTrace r = StackTrace top) /\
  callStack s'
  = match top_of rest with
    | Some caller => pop_of rest ++ [set_Panic (Some v) stack caller]
    | None => []
    end.
Proof.
  intros E s'. subst s'.
  destruct (figures_keep_fault s rest top fn e E)
    as (Ht & top' & Es & Hid & _ & Hp & Hst).
  change (unwindOps fn e (Some (v, stack)))
    with (take 7 (unwindOps (value := value) fn e None)
          ++ [OpExit fn (startTime e) (exitNow e) (memAfter e) (load e)
                (sysMem e);
              OpPanic fn v stack]).
  unfold run, Tracer.run in *. rewrite fold_left_app.
  set (s7 := fold_left _ (take 7 _) s) in *. clearbody s7.
  simpl. unfold RecordExit. rewrite Es, top_of_snoc, pop_of_snoc.
  unfold RecordPanic, on_top. simpl. rewrite Ht.
  destruct (top_of rest) eqn:Er; simpl.
  - split; [|done]. eexists. split; [reflexivity|]. by repeat split.
  - apply top_of_nil_inv in Er as ->.
    split; [|done]. eexists. split; [reflexivity|]. by repeat split.
Qed.

End Unwind.

End UnwindFacts.

(** * More on the rewrite of a function *)

Module InstrumentMore.
Import Instrument Spec Notions InstrumentFacts.

#[local] Open Scope string_scope.

Lemma paramLogs_names params :
  paramLogs params = paramLog <$> paramNames params.
Proof.
  destruct params as [l|]; [|done]. simpl.
  induction l as [|f l IH]; simpl; [done|].
  by rewrite fmap_app, IH.
Qed.

Lemma recorderCalls_paramLogs names :
  flat_map recorderCalls (paramLog <$> names)
  = replicate (length names) "RecordParam".
Proof.
  induction names as [|n l IH]; simpl; [done|]. f_equal. exact IH.
Qed.

(** X12: an instrumented function records its entry first and then its
    parameters: the statements put in front of the body call
    [RecordEntry] once and then [RecordParam] once for each declared
    parameter name, in declaration order and under that name; a
    parameter without a name is not recorded. *)
Theorem entry_then_parameters fn body :
  Body fn = Some body ->
  Name fn <> "init" ->
  let lit := quoted (Name fn) in
  let names := paramNames (Params fn) in
  (exists rest,
     Body (instrumentFuncDecl fn)
     = Some (newStmts lit ++ (paramLog <$> names) ++ rest)%list) /\
  flat_map recorderCalls (newStmts lit ++ (paramLog <$> names))%list
  = "RecordEntry" :: replicate (length names) "RecordParam" /\
  forall i name, names !! i = Some name ->
    (paramLog <$> names) !! i
    = Some (ExprStmt (tracerCall "RecordParam"
              [ BasicLit STRING (quoted name);
                CallExpr (Ident "fmt.Sprintf")
                  [BasicLit STRING (quoted "%+v"); Ident name] ])).
Proof.
  intros Hbody Hname lit names. repeat split.
  - eexists. rewrite (instrumentFuncDecl_body fn body Hbody Hname).
    by rewrite paramLogs_names.
  - rewrite flat_map_app, recorderCalls_paramLogs. reflexivity.
  - intros i name Hi. by rewrite list_lookup_fmap, Hi.
Qed.

Lemma transformReturnsInBlock_app l1 l2 functionName :
  transformReturnsInBlock (l1 ++ l2) functionName
  = (transformReturnsInBlock l1 functionName
     ++ transformReturnsInBlock l2 functionName)%list.
Proof. apply map_app. Qed.

Lemma transform_injected lit params rest functionName :
  transformReturnsInBlock (newStmts lit ++ paramLogs params ++ rest)
    functionName
  = (newStmts lit ++ paramLogs params
     ++ transformReturnsInBlock rest functionName)%list.
Proof.
  by rewrite !transformReturnsInBlock_app, newStmts_unchanged,
    paramLogs_unchanged.
Qed.

Lemma instrumentFuncDecl_signature fn :
  Name (instrumentFuncDecl fn) = Name fn /\
  Recv (instrumentFuncDecl fn) = Recv fn /\
  Instrument.Params (instrumentFuncDecl fn) = Instrument.Params fn /\
  Results (instrumentFuncDecl fn) = Results fn.
Proof.
  unfold instrumentFuncDecl. destruct (Body fn); [|done].
  by destruct (String.eqb (Name fn) "init").
Qed.

(** X13: the engine does not recognise its own output: instrumenting an
    instrumented function puts the injected statements and the parameter
    logs in front of the body a second time, so that every activation
    would be entered, and its deferred blocks registered, twice. *)
Theorem instrumenting_twice_duplicates fn body :
  Body fn = Some body ->
  Name fn <> "init" ->
  let lit := quoted (Name fn) in
  let logs := paramLog <$> paramNames (Params fn) in
  exists rest,
    Body (instrumentFuncDecl (instrumentFuncDecl fn))
    = Some (newStmts lit ++ logs ++ newStmts lit ++ logs ++ rest)%list /\
    length (registerDefers (newStmts lit ++ logs ++ newStmts lit ++ logs) [])
    = 6%nat.
Proof.
  intros Hbody Hname lit logs.
  destruct (instrumentFuncDecl_signature fn) as (Hn & Hr & Hp & _).
  pose proof (instrumentFuncDecl_body fn body Hbody Hname) as H1.
  pose proof (instrumentFuncDecl_body (instrumentFuncDecl fn) _ H1) as H2.
  rewrite Hn, Hr, Hp in H2. specialize (H2 Hname).
  assert (Hlogs : forall p, registerDefers logs p = p).
  { intros p. unfold logs, registerDefers.
    induction (paramNames (Instrument.Params fn)); [done|]. simpl. done. }
  assert (Hdefers :
    length (registerDefers (newStmts lit ++ logs ++ newStmts lit ++ logs) [])
    = 6%nat).
  { unfold registerDefers in *. rewrite !fold_left_app, !Hlogs. reflexivity. }
  destruct (String.eqb (Name fn) "main" && bool_decide (Recv fn = None)).
  - rewrite (transformReturnsInBlock_app _ [dumpCallGraphStmt]) in H2.
    rewrite transform_injected in H2.
    rewrite !paramLogs_names in H2. fold lit logs in H2.
    eexists. split; [|exact Hdefers].
    rewrite H2. rewrite <- !app_assoc. reflexivity.
  - rewrite transform_injected in H2.
    rewrite !paramLogs_names in H2. fold lit logs in H2.
    eexists. split; [|exact Hdefers]. exact H2.
Qed.

Lemma list_sum_map_ext {A} (f g h : A -> nat) l :
  Forall (fun x => f x = (g x + h x)%nat) l ->
  list_sum (List.map f l)
  = (list_sum (List.map g l) + list_sum (List.map h l))%nat.
Proof. induction 1 as [|x l Hx _ IH]; simpl; lia. Qed.

Lemma list_sum_map_eq {A} (f g : A -> nat) l :
  Forall (fun x => f x = g x) l ->
  list_sum (List.map f l) = list_sum (List.map g l).
Proof. induction 1 as [|x l Hx _ IH]; simpl; lia. Qed.

Lemma keepsReturn_temporaries {A} (results : list A) k :
  keepsReturn (imap (fun i _ => Ident (retName (k + i))) results) = false.
Proof.
  revert k. induction results as [|e l IH]; intros k; [done|].
  cbn [imap keepsReturn].
  destruct (String.eqb_spec (retName (k + 0)) "nil") as [E|_]; [done|].
  rewrite <- (IH (S k)). f_equal. apply imap_ext. intros i x _.
  unfold compose. by rewrite Nat.add_succ_r.
Qed.

Lemma recorded_block_counts results functionName :
  returnRecordCalls (transformReturnStmt results functionName) = 1%nat /\
  rewrittenReturns (transformReturnStmt results functionName) = 1%nat.
Proof.
  unfold transformReturnStmt. cbn [returnRecordCalls rewrittenReturns].
  rewrite !map_app, !list_sum_app.
  assert (Ha : forall (f : stmt -> nat),
    (forall lhs tok rhs, f (AssignStmt lhs tok rhs) = 0%nat) ->
    list_sum (List.map f
      (imap (fun i e => AssignStmt [Ident (retName i)] DEFINE [e]) results))
    = 0%nat).
  { intros f Hf.
    assert (forall k, list_sum (List.map f
      (imap (fun i e => AssignStmt [Ident (retName (k + i))] DEFINE [e]) results)) = 0%nat) as H.
    { induction results as [|e l IH]; intros k; [done|]. cbn [imap List.map list_sum].
      rewrite Hf. simpl. rewrite <- (IH (S k)). do 2 f_equal.
      apply imap_ext. intros i x _. unfold compose.
      by rewrite Nat.add_succ_r. }
    apply (H 0%nat). }
  rewrite !Ha by done. cbn [List.map list_sum returnRecordCalls rewrittenReturns].
  pose proof (keepsReturn_temporaries results 0) as Hk. simpl in Hk.
  rewrite Hk. done.
Qed.

(** X14: a pass of the return rewrite adds one [RecordReturn] call for
    every return statement it rewrites, and leaves as many return
    statements to rewrite as it found: the return of the temporaries
    is rewritten again by the next pass, so that instrumenting twice
    records every such return twice. *)
Theorem each_pass_records_again s functionName :
  returnRecordCalls (transformReturnsInStmt s functionName)
  = (returnRecordCalls s + rewrittenReturns s)%nat /\
  rewrittenReturns (transformReturnsInStmt s functionName)
  = rewrittenReturns s.
Proof.
  induction s as [l IH|init cond body els IHb IHe|init cond post body IH|s Hs]
    using stmt_traversal_ind.
  - cbn [transformReturnsInStmt returnRecordCalls rewrittenReturns].
    rewrite !map_map. split.
    + apply list_sum_map_ext. eapply Forall_impl; [exact IH|]. by intros x [? _].
    + apply list_sum_map_eq. eapply Forall_impl; [exact IH|]. by intros x [_ ?].
  - cbn [transformReturnsInStmt returnRecordCalls rewrittenReturns].
    rewrite !map_map.
    assert (H1 := list_sum_map_ext
      (fun x => returnRecordCalls (transformReturnsInStmt x functionName))
      returnRecordCalls rewrittenReturns body).
    assert (H2 := list_sum_map_eq
      (fun x => rewrittenReturns (transformReturnsInStmt x functionName))
      rewrittenReturns body).
    rewrite H1, H2;
      try (eapply Forall_impl; [exact IHb|]; by intros x [? ?]).
    destruct els as [e|]; [|lia].
    destruct (IHe e eq_refl) as [-> ->]. lia.
  - cbn [transformReturnsInStmt returnRecordCalls rewrittenReturns].
    rewrite !map_map. split.
    + apply list_sum_map_ext. eapply Forall_impl; [exact IH|]. by intros x [? _].
    + apply list_sum_map_eq. eapply Forall_impl; [exact IH|]. by intros x [_ ?].
  - destruct s; try done; try (simpl; lia).
    cbn [transformReturnsInStmt].
    destruct (keepsReturn results) eqn:Ek.
    + simpl. rewrite Ek. lia.
    + destruct (recorded_block_counts results functionName) as [-> ->].
      simpl. by rewrite Ek.
Qed.

End InstrumentMore.

(** * Go strings *)

Module StringFacts.
Import GoStrings.

#[local] Open Scope string_scope.

Lemma append_cons c a b : (String c a ++ b) = String c (a ++ b).
Proof. reflexivity. Qed.

Lemma append_nil a : ("" ++ a) = a.
Proof. reflexivity. Qed.

Lemma length_append a b :
  String.length (a ++ b) = (String.length a + String.length b)%nat.
Proof. induction a as [|c a IH]; [done|]. simpl. by rewrite IH. Qed.

Lemma substring_0_0 s : substring 0 0 s = "".
Proof. by destruct s. Qed.

Lemma substring_0_cons n c s :
  substring 0 (S n) (String c s) = String c (substring 0 n s).
Proof. reflexivity. Qed.

Lemma length_substring_0 n s :
  String.length (substring 0 n s) = Nat.min n (String.length s).
Proof.
  revert n. induction s as [|c s IH]; intros [|n]; simpl; try done.
  by rewrite IH.
Qed.

Lemma substring_0_all n s :
  (String.length s <= n)%nat -> substring 0 n s = s.
Proof.
  revert n. induction s as [|c s IH]; intros [|n] H; simpl in *; try done.
  - lia.
  - f_equal. apply IH. lia.
Qed.

Lemma substring_app_r a b n :
  substring (String.length a) n (a ++ b) = substring 0 n b.
Proof. induction a as [|c a IH]; [done|]. simpl. exact IH. Qed.

Lemma prefix_app p s t :
  String.prefix p s = true -> String.prefix p (s ++ t) = true.
Proof.
  revert s. induction p as [|c p IH]; intros s; [by destruct (s ++ t)|].
  destruct s as [|d s]; simpl; [done|].
  destruct (Ascii.ascii_dec c d); [apply IH|done].
Qed.

(** A prefix without a slash that [s] does not have is not made by
    adding a slash and more to [s]. *)
Lemma prefix_app_slash p s t :
  ~ In slash (list_ascii_of_string p) ->
  String.prefix p s = false ->
  String.prefix p (s ++ String slash t) = false.
Proof.
  revert s. induction p as [|c p IH]; intros s Hs H; [by destruct s|].
  simpl in Hs. destruct s as [|d s]; simpl in *.
  - destruct (Ascii.ascii_dec c slash) as [->|]; [|done]. tauto.
  - destruct (Ascii.ascii_dec c d); [|done]. apply IH; tauto.
Qed.

Lemma HasSuffix_app pre suffix : HasSuffix (pre ++ suffix) suffix = true.
Proof.
  unfold HasSuffix. rewrite length_append.
  apply andb_true_iff. split; [apply Nat.leb_le; lia|].
  replace (String.length pre + String.length suffix - String.length suffix)%nat
    with (String.length pre) by lia.
  rewrite substring_app_r. apply String.eqb_eq.
  induction suffix as [|c s IH]; [done|]. simpl. by rewrite IH.
Qed.

Lemma nth_error_is_lookup {A} (l : list A) i : nth_error l i = l !! i.
Proof. revert i. induction l as [|x l IH]; intros [|i]; simpl; auto. Qed.

End StringFacts.

(** * The values shown in a node label *)

Module LabelFacts.
Import GoStrings TracerLabel TextNotions StringFacts.

#[local] Open Scope string_scope.
#[local] Open Scope Z_scope.

Lemma escapedValue_cons c v :
  escapedValue (String c v) = escapeByte c ++ escapedValue v.
Proof.
  unfold escapedValue, escapeByte. cbn [ReplaceAll].
  destruct (Ascii.eqb_spec c backslash) as [->|Hb].
  - rewrite !append_cons, append_nil. reflexivity.
  - cbn [ReplaceAll]. destruct (Ascii.eqb c dquote); reflexivity.
Qed.

Lemma escapeByte_cases c :
  (c <> backslash /\ c <> dquote /\ escapeByte c = String c "") \/
  (exists d, (c = backslash \/ c = dquote) /\ d = c /\
     escapeByte c = String backslash (String d "")).
Proof.
  unfold escapeByte.
  destruct (Ascii.eqb_spec c backslash) as [->|Hb]; [right; eauto|].
  destruct (Ascii.eqb_spec c dquote) as [->|Hq]; [right; eauto|].
  by left.
Qed.

(** X15: the two replacements in a row escape a value byte by byte: the
    escaping of a concatenation is the concatenation of the escapings,
    and one byte becomes two exactly when it is a backslash or a double
    quote (the second replacement does not touch the backslashes the
    first one wrote). *)
Theorem escaping_is_per_byte :
  (forall a b, escapedValue (a ++ b) = escapedValue a ++ escapedValue b) /\
  (forall c, escapedValue (String c "") = escapeByte c) /\
  escapedValue "" = "".
Proof.
  split; [|split; [|reflexivity]].
  - intros a b. induction a as [|c a IH]; [reflexivity|].
    rewrite append_cons, !escapedValue_cons, IH.
    unfold escapeByte.
    destruct (Ascii.eqb c backslash); [reflexivity|].
    destruct (Ascii.eqb c dquote); reflexivity.
  - intros c. rewrite escapedValue_cons.
    change (escapedValue "") with "".
    unfold escapeByte. destruct (Ascii.eqb c backslash); [reflexivity|].
    destruct (Ascii.eqb c dquote); reflexivity.
Qed.

(** X16: escaping loses nothing: two values with the same escaped text
    are the same value. *)
Theorem escapedValue_inj v1 v2 :
  escapedValue v1 = escapedValue v2 -> v1 = v2.
Proof.
  revert v2. induction v1 as [|c1 v1 IH]; intros [|c2 v2].
  - done.
  - rewrite escapedValue_cons.
    destruct (escapeByte_cases c2) as [(_ & _ & ->)|(d & _ & _ & ->)]; done.
  - rewrite escapedValue_cons.
    destruct (escapeByte_cases c1) as [(_ & _ & ->)|(d & _ & _ & ->)]; done.
  - rewrite !escapedValue_cons.
    destruct (escapeByte_cases c1) as [(Hb1 & Hq1 & ->)|(d1 & H1 & -> & ->)];
    destruct (escapeByte_cases c2) as [(Hb2 & Hq2 & ->)|(d2 & H2 & -> & ->)];
      rewrite ?append_cons, ?append_nil; intros H; simplify_eq.
    + f_equal. by apply IH.
    + f_equal. by apply IH.
Qed.

Lemma escaped_cut v : forall n,
  exists k tail,
    substring 0 n (escapedValue v)
    = escapedValue (substring 0 k v) ++ tail /\
    (tail = "" \/ tail = String backslash "").
Proof.
  induction v as [|c v IH]; intros n.
  - exists 0%nat, "". split; [|by left].
    change (escapedValue "") with "". destruct n; reflexivity.
  - destruct n as [|n].
    { exists 0%nat, "". split; [|by left]. by rewrite !substring_0_0. }
    rewrite escapedValue_cons.
    destruct (escapeByte_cases c) as [(_ & _ & E)|(d & _ & -> & E)].
    + rewrite E, append_cons, append_nil, substring_0_cons.
      destruct (IH n) as (k & tail & -> & Ht).
      exists (S k), tail. split; [|done].
      rewrite substring_0_cons, escapedValue_cons, E. reflexivity.
    + rewrite E, !append_cons, append_nil, substring_0_cons.
      destruct n as [|n].
      * exists 0%nat, (String backslash ""). split; [|by right].
        by rewrite !substring_0_0.
      * rewrite substring_0_cons.
        destruct (IH n) as (k & tail & -> & Ht).
        exists (S k), tail. split; [|done].
        rewrite substring_0_cons, escapedValue_cons, E. reflexivity.
Qed.

(** X17: the value shown in a label is the escaped value cut at 40
    bytes: it has the smaller of the two lengths, it is the whole
    escaped value when that has at most 40 bytes, and the cut falls
    between two bytes of the value or inside one escape, so that the
    shown text is the escaping of a prefix of the value, followed by at
    most one lone backslash. *)
Theorem shown_value_is_cut_escaping v :
  len (shownValue v) = Z.min (len (escapedValue v)) 40 /\
  (len (escapedValue v) <= 40 -> shownValue v = escapedValue v) /\
  exists k tail,
    shownValue v = (escapedValue (substring 0 k v) ++ tail)%string /\
    (tail = "" \/ tail = String backslash "").
Proof.
  unfold shownValue, sliceTo, TracerLabel.min, maxlabelLength, len.
  split; [|split].
  - rewrite length_substring_0.
    destruct (Z.ltb_spec (Z.of_nat (String.length (escapedValue v))) 40); lia.
  - intros H. apply substring_0_all.
    destruct (Z.ltb_spec (Z.of_nat (String.length (escapedValue v))) 40); lia.
  - apply escaped_cut.
Qed.

End LabelFacts.

(** * The graph written from a log *)

Module LogGraphFacts.
Import GoStrings LogGraph TextNotions StringFacts.

#[local] Open Scope string_scope.
#[local] Open Scope Z_scope.

Lemma concatenateAndTruncateString_nonneg stringSlice length :
  0 <= length ->
  exists r, concatenateAndTruncateString stringSlice length = Some r /\
    r = substring 0 (Z.to_nat length) (String.concat "" stringSlice) /\
    len r = Z.min length (len (String.concat "" stringSlice)).
Proof.
  unfold concatenateAndTruncateString, sliceTo, len. intros H.
  destruct (Z.ltb_spec length
              (Z.of_nat (String.length (String.concat "" stringSlice))))
    as [Hlt|Hge].
  - destruct (Z.ltb_spec length 0); [lia|].
    eexists. split; [done|]. split; [done|].
    rewrite length_substring_0. lia.
  - eexists. split; [done|]. split; [|lia].
    symmetry. apply substring_0_all. lia.
Qed.

(** X18: [concatenateAndTruncateString] joins the strings without a
    separator and keeps the first [length] bytes: for a length that is
    not negative the result is the prefix of the joined text of that
    length, or the whole text if it is shorter; a negative length makes
    the slice expression panic, whatever the strings. *)
Theorem truncation_takes_a_prefix stringSlice length :
  (length < 0 -> concatenateAndTruncateString stringSlice length = None) /\
  (0 <= length ->
   exists r, concatenateAndTruncateString stringSlice length = Some r /\
     r = substring 0 (Z.to_nat length) (String.concat "" stringSlice) /\
     len r = Z.min length (len (String.concat "" stringSlice))).
Proof.
  split; [|apply concatenateAndTruncateString_nonneg].
  unfold concatenateAndTruncateString, len. intros H.
  destruct (Z.ltb_spec length
              (Z.of_nat (String.length (String.concat "" stringSlice))));
    [|lia].
  destruct (Z.ltb_spec length 0); [done|lia].
Qed.

Lemma label_total rec : exists l, label rec = Some l.
Proof.
  unfold label.
  destruct (0 <? Z.of_nat (length (Params rec))); [|by eexists].
  destruct (concatenateAndTruncateString_nonneg (Params rec) 20)
    as (r & -> & _); [lia|].
  by eexists.
Qed.

Lemma nodeLoop_spec records : forall mainID,
  exists lines,
    nodeLoop records mainID
    = Some (from_option ID mainID
              (last (filter (fun rec => isMain rec = true) records)), lines) /\
    nodesOf lines = ID <$> filter (fun rec => isMain rec = false) records /\
    edgesOf lines = [].
Proof.
  induction records as [|rec rest IH]; intros mainID; simpl.
  - by eexists.
  - unfold isMain at 1 3. destruct (String.eqb (FuncName rec) "main") eqn:E.
    + destruct (IH (ID rec)) as (lines & -> & Hn & He).
      exists lines. rewrite filter_cons_True by done.
      rewrite filter_cons_False by (unfold isMain; rewrite E; done).
      split; [|done]. f_equal. f_equal.
      rewrite last_cons. by destruct (last _).
    + destruct (label_total rec) as (l & ->).
      destruct (IH mainID) as (lines & -> & Hn & He).
      eexists. rewrite filter_cons_False by (unfold isMain; rewrite E; done).
      rewrite filter_cons_True by (unfold isMain; rewrite E; done).
      split; [done|]. simpl. by rewrite Hn, He.
Qed.

Lemma edgeLoop_spec records m :
  edgeLoop records m
  = (fun rec => Edge m (ID rec))
    <$> filter (fun rec => isMain rec = false) records.
Proof.
  unfold edgeLoop. induction records as [|rec rest IH]; [done|]. simpl.
  unfold isMain at 1. destruct (String.eqb (FuncName rec) "main") eqn:E.
  - rewrite filter_cons_False by (unfold isMain; rewrite E; done). done.
  - rewrite filter_cons_True by (unfold isMain; rewrite E; done).
    simpl. by rewrite IH.
Qed.

(** X19: the graph written from a log is a star, whatever called what:
    the writing never fails, every record not named [main] gets one
    node, in log order, a record named [main] gets none, and the edges
    go from the id of the last record named [main] to every node, in
    the same order; without such a record (or with an empty id) there
    is no edge at all. *)
Theorem log_graph_is_a_star records :
  exists lines,
    writeCallGraph records = Some lines /\
    nodesOf lines = ID <$> filter (fun rec => isMain rec = false) records /\
    edgesOf lines
    = (if String.eqb (mainIDOf records) "" then []
       else (fun id => (mainIDOf records, id)) <$> nodesOf lines).
Proof.
  unfold writeCallGraph.
  destruct (nodeLoop_spec records "") as (nodes & -> & Hn & He).
  fold (mainIDOf records). eexists. split; [done|].
  unfold nodesOf, edgesOf in *.
  rewrite !flat_map_app. simpl. rewrite !app_nil_r, Hn, He. simpl.
  destruct (String.eqb (mainIDOf records) "").
  - simpl. by rewrite app_nil_r.
  - rewrite edgeLoop_spec.
    set (l := filter _ records). clearbody l.
    assert (flat_map (fun l0 => match l0 with Node id _ => [id] | _ => [] end)
              ((fun rec => Edge (mainIDOf records) (ID rec)) <$> l) = []) as ->
      by (induction l; done).
    split; [by rewrite app_nil_r|].
    induction l as [|r l IH]; [done|]. simpl. f_equal. exact IH.
Qed.

End LogGraphFacts.

(** * The declarations of an instrumented file *)

Module FileFacts.
Import GoStrings Instrument InstrumentFile FileNotions StringFacts.

#[local] Open Scope string_scope.

Lemma importRefs_app l1 l2 :
  importRefs (l1 ++ l2) = (importRefs l1 ++ importRefs l2)%list.
Proof. apply flat_map_app. Qed.

Lemma appendToImportDecl_refs new decls :
  match appendToImportDecl new decls with
  | Some decls' =>
      importRefs decls' ≡ₚ importRefs decls ++ [new] /\
      length (List.filter isImportDecl decls')
      = length (List.filter isImportDecl decls) /\
      (0 < length (List.filter isImportDecl decls))%nat /\
      funcsOf decls' = funcsOf decls /\
      othersOf decls' = othersOf decls
  | None => List.filter isImportDecl decls = []
  end.
Proof.
  induction decls as [|d decls IH]; simpl; [done|].
  destruct d as [specs|tok specs|fn]; simpl.
  - split; [|split; [done|split; [lia|done]]].
    unfold importRefs. simpl. rewrite <- !app_assoc.
    apply Permutation_app_head, Permutation_app_comm.
  - destruct (appendToImportDecl new decls); [|done].
    destruct IH as (? & ? & ? & ? & ?). repeat split; try done.
    unfold othersOf in *. simpl. by f_equal.
  - destruct (appendToImportDecl new decls); [|done].
    destruct IH as (? & ? & ? & ? & ?). repeat split; try done.
    simpl. by f_equal.
Qed.

Lemma found_Imports pkg f f' :
  Imports f' = Imports f -> found pkg f' = found pkg f.
Proof. unfold found. by intros ->. Qed.

Lemma ensureImport_spec pkg f :
  Imports (ensureImport pkg f) = Imports f /\
  importRefs (Decls (ensureImport pkg f))
  ≡ₚ importRefs (Decls f)
     ++ (if found pkg f then [] else [Added (quoted pkg)]) /\
  funcsOf (Decls (ensureImport pkg f)) = funcsOf (Decls f) /\
  othersOf (Decls (ensureImport pkg f)) = othersOf (Decls f).
Proof.
  unfold ensureImport. destruct (found pkg f); [by rewrite app_nil_r|].
  pose proof (appendToImportDecl_refs (Added (quoted pkg)) (Decls f)) as H.
  destruct (appendToImportDecl _ _); simpl.
  - destruct H as (? & ? & ? & ? & ?). done.
  - split; [done|]. split; [|done].
    change (importRefs (ImportDecl [Added (quoted pkg)] :: Decls f))
      with (Added (quoted pkg) :: importRefs (Decls f)).
    apply Permutation_cons_append.
Qed.

Lemma ensureAll_spec pkgs : forall f,
  Imports (ensureAll pkgs f) = Imports f /\
  importRefs (Decls (ensureAll pkgs f))
  ≡ₚ importRefs (Decls f)
     ++ (Added ∘ quoted <$> List.filter (fun pkg => negb (found pkg f)) pkgs) /\
  funcsOf (Decls (ensureAll pkgs f)) = funcsOf (Decls f) /\
  othersOf (Decls (ensureAll pkgs f)) = othersOf (Decls f).
Proof.
  induction pkgs as [|pkg pkgs IH]; intros f; simpl.
  - by rewrite app_nil_r.
  - destruct (ensureImport_spec pkg f) as (HI & HR & HF & HO).
    destruct (IH (ensureImport pkg f)) as (HI' & HR' & HF' & HO').
    split; [congruence|]. split; [|split; congruence].
    rewrite HR', HR.
    rewrite (filter_ext (fun pkg0 => negb (found pkg0 (ensureImport pkg f)))
               (fun pkg0 => negb (found pkg0 f)))
      by (intros a; by rewrite (found_Imports a _ _ HI)).
    destruct (found pkg f); simpl; [by rewrite app_nil_r|].
    by rewrite <- app_assoc.
Qed.

Lemma instrumentAST_unfold dyn filePath f :
  instrumentAST dyn filePath f
  = let g := replaceGhostImports dyn (ensureAll (ensured dyn) f) in
    let decls := List.map (fun decl =>
      match decl with
      | FuncDeclD fn => FuncDeclD (instrumentFuncDecl fn)
      | _ => decl
      end) (Decls g) in
    {| Imports := Imports g;
       Decls := if HasSuffix filePath "main.go"
                then (decls ++ [dummyDecl])%list else decls |}.
Proof. reflexivity. Qed.

Lemma importRefs_map (g : FuncDecl -> FuncDecl) decls :
  importRefs (List.map (fun decl =>
     match decl with FuncDeclD fn => FuncDeclD (g fn) | _ => decl end) decls)
  = importRefs decls.
Proof.
  induction decls as [|d l IH]; [done|].
  destruct d; simpl; [|done..].
  unfold importRefs in *. simpl. by rewrite IH.
Qed.

Lemma funcsOf_map (g : FuncDecl -> FuncDecl) decls :
  funcsOf (List.map (fun decl =>
     match decl with FuncDeclD fn => FuncDeclD (g fn) | _ => decl end) decls)
  = g <$> funcsOf decls.
Proof.
  induction decls as [|d l IH]; [done|].
  destruct d; simpl; [done..|]. by rewrite IH.
Qed.

Lemma importRefs_instrumentAST dyn filePath f :
  importRefs (Decls (instrumentAST dyn filePath f))
  ≡ₚ importRefs (Decls f) ++ (Added ∘ quoted <$> missing dyn f).
Proof.
  rewrite instrumentAST_unfold. cbn zeta. cbn [Decls replaceGhostImports].
  destruct (ensureAll_spec (ensured dyn) f) as (_ & HR & _ & _).
  destruct (HasSuffix filePath "main.go").
  - rewrite importRefs_app, importRefs_map.
    change (importRefs [dummyDecl]) with (@nil ImportRef).
    by rewrite app_nil_r.
  - by rewrite importRefs_map.
Qed.

Lemma resolve_instrumentAST dyn filePath f ref :
  resolve (instrumentAST dyn filePath f) ref
  = match ref with
    | Parsed i => replaced dyn (resolve f (Parsed i))
    | Added v => Some v
    end.
Proof.
  destruct ref as [i|v]; [|done].
  rewrite instrumentAST_unfold. cbn zeta. unfold resolve. cbn [Imports].
  unfold replaceGhostImports. cbn [Imports].
  destruct (ensureAll_spec (ensured dyn) f) as (-> & _ & _ & _).
  rewrite nth_error_map.
  destruct (nth_error (Imports f) i) as [imp|]; [|done]. simpl.
  destruct (PathValue imp) as [v|] eqn:E; simpl; [|by rewrite E].
  destruct (Contains v "ghost/tracer"); [done|by rewrite E].
Qed.

(** X20: the import paths written for a file the parser gave are, up to
    their order, the paths it had, each one that contains
    [ghost/tracer] replaced by the tracer import, and the quoted paths
    of the ensured packages that were not found among them; nothing
    else is added and nothing is removed. *)
Theorem imports_written dyn filePath f :
  parsedFile f ->
  importPaths (instrumentAST dyn filePath f)
  ≡ₚ (replaced dyn <$> importPaths f) ++ (Some ∘ quoted <$> missing dyn f).
Proof.
  intros Hp. unfold importPaths at 1.
  change (List.map ?g ?l) with (g <$> l).
  rewrite importRefs_instrumentAST, fmap_app. apply Permutation_app.
  - unfold importPaths. change (List.map ?g ?l) with (g <$> l).
    rewrite <- list_fmap_compose. rewrite Hp, <- !list_fmap_compose.
    apply reflexive_eq, list_fmap_ext. intros i x _. simpl.
    apply (resolve_instrumentAST dyn filePath f (Parsed x)).
  - rewrite <- list_fmap_compose. apply reflexive_eq, list_fmap_ext.
    intros i x _. apply (resolve_instrumentAST dyn filePath f (Added _)).
Qed.

Lemma found_lookup pkg f :
  found pkg f = true ->
  exists i imp, Imports f !! i = Some imp /\ PathValue imp = Some (quoted pkg).
Proof.
  unfold found. intros H. apply existsb_exists in H as (imp & Hin & H).
  apply list_elem_of_In, list_elem_of_lookup in Hin as [i Hi].
  exists i, imp. split; [done|].
  destruct (PathValue imp) as [v|]; [|done].
  by apply String.eqb_eq in H as ->.
Qed.

Lemma parsed_ref f i imp :
  parsedFile f -> Imports f !! i = Some imp ->
  Parsed i ∈ importRefs (Decls f).
Proof.
  intros -> Hi. apply list_elem_of_fmap. exists i. split; [done|].
  apply elem_of_seq. apply lookup_lt_Some in Hi. lia.
Qed.

Lemma resolve_parsed f i imp :
  Imports f !! i = Some imp -> resolve f (Parsed i) = PathValue imp.
Proof. intros Hi. unfold resolve. by rewrite nth_error_is_lookup, Hi. Qed.

Lemma written_parsed dyn filePath f i imp :
  parsedFile f -> Imports f !! i = Some imp ->
  replaced dyn (PathValue imp) ∈ importPaths (instrumentAST dyn filePath f).
Proof.
  intros Hp Hi. unfold importPaths. change (List.map ?g ?l) with (g <$> l).
  apply list_elem_of_fmap. exists (Parsed i). split.
  - by rewrite resolve_instrumentAST, (resolve_parsed f i imp).
  - rewrite importRefs_instrumentAST. apply elem_of_app. left.
    by apply (parsed_ref f i imp).
Qed.

Lemma written_added dyn filePath f pkg :
  pkg ∈ ensured dyn -> found pkg f = false ->
  Some (quoted pkg) ∈ importPaths (instrumentAST dyn filePath f).
Proof.
  intros Hin Hf. unfold importPaths. change (List.map ?g ?l) with (g <$> l).
  apply list_elem_of_fmap. exists (Added (quoted pkg)). split.
  - by rewrite resolve_instrumentAST.
  - rewrite importRefs_instrumentAST. apply elem_of_app. right.
    apply list_elem_of_fmap. exists pkg. split; [done|].
    unfold missing. apply list_elem_of_In, filter_In. split.
    + by apply list_elem_of_In.
    + by rewrite Hf.
Qed.

(** X21: after [instrumentFile] the file imports what the injected code
    uses: for a file as the parser gives it and a tracer import that is
    a quoted path, each of [time], [fmt], [runtime/debug], [runtime]
    and the tracer package is among the import paths the printer
    writes, whether the file had it or not. *)
Theorem imports_ensured dyn filePath f pkg :
  parsedFile f ->
  quoted (Trim dyn dquote) = dyn ->
  pkg ∈ ensured dyn ->
  Some (quoted pkg) ∈ importPaths (instrumentAST dyn filePath f).
Proof.
  intros Hp Hdyn Hin.
  destruct (found pkg f) eqn:Hf; [|by apply written_added].
  apply found_lookup in Hf as (i & imp & Hi & Hv).
  pose proof (written_parsed dyn filePath f i imp Hp Hi) as H.
  rewrite Hv in H. unfold replaced in H.
  assert (Hsame : (if Contains (quoted pkg) "ghost/tracer" then Some dyn
                   else Some (quoted pkg)) = Some (quoted pkg)).
  { unfold ensured in Hin. rewrite !elem_of_cons, elem_of_nil in Hin.
    destruct Hin as [->|[->|[->|[->|[->|[]]]]]]; try reflexivity.
    rewrite Hdyn. by destruct (Contains dyn "ghost/tracer"). }
  by rewrite Hsame in H.
Qed.

(** X22: the tracer import is ensured before the ghost imports are
    replaced, and the search looks at the paths as they are then: a
    file that imports a path containing [ghost/tracer], and not the
    tracer package itself, is written with the tracer import twice,
    once added and once as the replaced ghost import. *)
Theorem ghost_import_written_twice dyn filePath f i imp v :
  parsedFile f ->
  quoted (Trim dyn dquote) = dyn ->
  found (Trim dyn dquote) f = false ->
  Imports f !! i = Some imp ->
  PathValue imp = Some v ->
  Contains v "ghost/tracer" = true ->
  [Some dyn; Some dyn] ⊆+ importPaths (instrumentAST dyn filePath f).
Proof.
  intros Hp Hdyn Hf Hi Hv Hc.
  unfold importPaths. change (List.map ?g ?l) with (g <$> l).
  rewrite importRefs_instrumentAST, fmap_app.
  apply (submseteq_app [Some dyn] _ [Some dyn]).
  - apply singleton_submseteq_l, list_elem_of_fmap. exists (Parsed i). split.
    + by rewrite resolve_instrumentAST, (resolve_parsed f i imp), Hv; simpl;
        rewrite ?Hc.
    + by apply (parsed_ref f i imp).
  - apply singleton_submseteq_l, list_elem_of_fmap.
    exists (Added (quoted (Trim dyn dquote))). split.
    + by rewrite resolve_instrumentAST, Hdyn.
    + apply list_elem_of_fmap. exists (Trim dyn dquote). split; [done|].
      unfold missing. apply list_elem_of_In, filter_In. split.
      * unfold ensured. simpl. tauto.
      * by rewrite Hf.
Qed.

Lemma ensureImport_count pkg f :
  importDecls (Decls (ensureImport pkg f))
  = if found pkg f then importDecls (Decls f)
    else Nat.max 1 (importDecls (Decls f)).
Proof.
  unfold ensureImport, importDecls. destruct (found pkg f); [done|].
  pose proof (appendToImportDecl_refs (Added (quoted pkg)) (Decls f)) as H.
  destruct (appendToImportDecl _ _); simpl.
  - destruct H as (_ & -> & ? & _). lia.
  - by rewrite H.
Qed.

Lemma forallb_found pkgs f f' :
  Imports f' = Imports f ->
  forallb (fun pkg => found pkg f') pkgs
  = forallb (fun pkg => found pkg f) pkgs.
Proof.
  intros H. induction pkgs as [|p l IH]; [done|]. simpl.
  by rewrite IH, (found_Imports p _ _ H).
Qed.

Lemma ensureAll_count pkgs : forall f,
  importDecls (Decls (ensureAll pkgs f))
  = if forallb (fun pkg => found pkg f) pkgs then importDecls (Decls f)
    else Nat.max 1 (importDecls (Decls f)).
Proof.
  induction pkgs as [|pkg pkgs IH]; intros f; simpl; [done|].
  destruct (ensureImport_spec pkg f) as (HI & _ & _ & _).
  rewrite IH, ensureImport_count.
  rewrite (forallb_found pkgs f _ HI).
  destruct (found pkg f), (forallb _ pkgs); simpl; lia.
Qed.

Lemma importDecls_map (g : FuncDecl -> FuncDecl) decls :
  importDecls (List.map (fun decl =>
     match decl with FuncDeclD fn => FuncDeclD (g fn) | _ => decl end) decls)
  = importDecls decls.
Proof.
  unfold importDecls. induction decls as [|d l IH]; [done|].
  destruct d; simpl; by rewrite ?IH.
Qed.

(** X23: the missing imports share one declaration: when every ensured
    package is found the import declarations are as many as before;
    otherwise they are as many as before if the file had one (a new
    specification goes to the first of them), and exactly one if it
    had none, however many packages were missing. *)
Theorem at_most_one_import_declaration_added dyn filePath f :
  importDecls (Decls (instrumentAST dyn filePath f))
  = if forallb (fun pkg => found pkg f) (ensured dyn)
    then importDecls (Decls f)
    else Nat.max 1 (importDecls (Decls f)).
Proof.
  rewrite instrumentAST_unfold. cbn zeta.
  cbn [Decls replaceGhostImports].
  rewrite <- ensureAll_count.
  destruct (HasSuffix filePath "main.go").
  - rewrite <- (importDecls_map instrumentFuncDecl
                  (Decls (ensureAll (ensured dyn) f))).
    unfold importDecls. rewrite List.filter_app, length_app. simpl. lia.
  - apply importDecls_map.
Qed.

Lemma othersOf_map (g : FuncDecl -> FuncDecl) decls :
  othersOf (List.map (fun decl =>
     match decl with FuncDeclD fn => FuncDeclD (g fn) | _ => decl end) decls)
  = othersOf decls.
Proof.
  unfold othersOf. induction decls as [|d l IH]; [done|].
  destruct d; simpl; by rewrite ?IH.
Qed.

Lemma funcsOf_app l1 l2 :
  funcsOf (l1 ++ l2) = (funcsOf l1 ++ funcsOf l2)%list.
Proof. apply flat_map_app. Qed.

Lemma othersOf_app l1 l2 :
  othersOf (l1 ++ l2) = (othersOf l1 ++ othersOf l2)%list.
Proof. apply List.filter_app. Qed.

(** X24: [instrumentFile] passes every function declaration of the
    file through the function rewrite once and keeps them in file
    order, whatever it does to the imports; the other general
    declarations are kept as they are and in order, followed by the
    [_dummy] declaration when the path ends in [main.go]. *)
Theorem file_declarations dyn filePath f :
  funcsOf (Decls (instrumentAST dyn filePath f))
  = instrumentFuncDecl <$> funcsOf (Decls f) /\
  othersOf (Decls (instrumentAST dyn filePath f))
  = (othersOf (Decls f)
     ++ if HasSuffix filePath "main.go" then [dummyDecl] else [])%list.
Proof.
  rewrite instrumentAST_unfold. cbn zeta. cbn [Decls replaceGhostImports].
  destruct (ensureAll_spec (ensured dyn) f) as (_ & _ & HF & HO).
  destruct (HasSuffix filePath "main.go").
  - rewrite funcsOf_app, othersOf_app, funcsOf_map, othersOf_map, HF, HO.
    change (funcsOf [dummyDecl]) with (@nil FuncDecl).
    by rewrite app_nil_r.
  - by rewrite funcsOf_map, othersOf_map, app_nil_r, HF, HO.
Qed.

(** X25: the [_dummy] declaration goes by the end of the path, not by
    the file name: every path that ends in [main.go], whatever stands
    in front of it, gets the declaration as the last one of the file. *)
Theorem dummy_declaration_by_suffix dyn pre f :
  last (Decls (instrumentAST dyn (pre ++ "main.go") f)) = Some dummyDecl.
Proof.
  rewrite instrumentAST_unfold. cbn zeta. cbn [Decls].
  rewrite HasSuffix_app. apply last_snoc.
Qed.

End FileFacts.

(** * The walk over the workspace *)

Module WalkFacts.
Import GoStrings Workspace WalkNotions StringFacts.

#[local] Open Scope string_scope.

Section Walk.

Variable matchPattern : string -> string -> option bool.
Variable instrumentFile : string -> option string.
Variable exclude : list string.

#[local] Abbreviation walk := (walk matchPattern instrumentFile exclude).
#[local] Abbreviation visit := (visit matchPattern instrumentFile exclude).
#[local] Abbreviation process :=
  (process matchPattern instrumentFile exclude).

Lemma entry_nested_ind (P : entry -> Prop) :
  (forall name, P (FileEntry name)) ->
  (forall name children, Forall P children -> P (DirEntry name children)) ->
  forall e, P e.
Proof.
  intros Hf Hd. fix IH 1. intros [name|name children]; [apply Hf|].
  apply Hd. induction children as [|c l IHl].
  - apply List.Forall_nil.
  - apply List.Forall_cons; [apply IH|apply IHl].
Qed.

Lemma joinRel_tracer rel name :
  HasPrefix rel "tracer" = true ->
  HasPrefix (joinRel rel name) "tracer" = true.
Proof.
  unfold HasPrefix, joinRel. intros H.
  destruct (String.eqb_spec rel ".") as [->|_]; [done|].
  by apply prefix_app.
Qed.

Lemma files_tracer e : forall path rel,
  HasPrefix rel "tracer" = true ->
  List.filter candidate (files path rel e) = [].
Proof.
  induction e as [name|name children IH] using entry_nested_ind;
    intros path rel H; simpl.
  - unfold candidate. simpl. by rewrite H.
  - induction IH as [|c l Hc _ IHl]; [done|]. simpl.
    rewrite List.filter_app, IHl, app_nil_r.
    apply Hc. by apply joinRel_tracer.
Qed.

Lemma process_app l1 l2 :
  process (l1 ++ l2)
  = match process l1 with
    | (Some err, done) => (Some err, done)
    | (None, done) =>
        let (err, done') := process l2 in (err, (done ++ done')%list)
    end.
Proof.
  induction l1 as [|[path rel] l1 IH]; simpl.
  - by destruct (process l2).
  - destruct (checkExclude _ _ rel); [|done..].
    destruct (instrumentFile path); [done|].
    rewrite IH. destruct (process l1) as [[err|] done1]; [done|].
    by destruct (process l2).
Qed.

Lemma visit_file path rel :
  outcome (visit path rel false)
  = process (List.filter candidate [(path, rel)]) /\
  (visit path rel false).1 <> SkipDir.
Proof.
  unfold visit, candidate. simpl.
  destruct (HasPrefix rel "tracer"); simpl; [done|].
  destruct (String.eqb (Ext path) ".go"); simpl; [|done].
  destruct (checkExclude _ _ rel); simpl; [|done..].
  destruct (instrumentFile path); done.
Qed.

Lemma walk_spec e : forall path rel,
  outcome (walk path rel e)
  = process (List.filter candidate (files path rel e)) /\
  ((walk path rel e).1 = SkipDir -> isDir e = true).
Proof.
  induction e as [name|name children IH] using entry_nested_ind;
    intros path rel.
  - destruct (visit_file path rel) as [H1 H2]. simpl. split; [exact H1|].
    intros H. by destruct H2.
  - split; [|done]. simpl. unfold Workspace.visit at 1.
    destruct (HasPrefix rel "tracer") eqn:Ht.
    + simpl.
      pose proof (files_tracer (DirEntry name children) path rel Ht) as H.
      simpl in H. by rewrite H.
    + simpl.
      induction IH as [|c l Hc _ IHl]; [done|]. simpl.
      revert IHl.
      match goal with
      | |- outcome (let (a, d') := ?w in _) = _ -> _ =>
          destruct w as [a' d']
      end.
      intros IHl.
      rewrite List.filter_app, process_app, <- IHl.
      destruct (Hc (joinPath path (entryName c)) (joinRel rel (entryName c)))
        as [H1 H2].
      rewrite <- H1.
      destruct (walk (joinPath path (entryName c))
                  (joinRel rel (entryName c)) c)
        as [[| |err] d]; simpl in *.
      * by destruct a'.
      * rewrite (H2 eq_refl). by destruct a'.
      * done.
Qed.

(** X26: [InstrumentWorkspace] is one pass, in walk order, over the
    files of the tree whose relative path does not begin with [tracer]
    and whose extension is [.go]: each is checked against the exclude
    patterns in order and instrumented unless one matches; the first
    malformed pattern or failing file ends the walk with its error,
    and the files instrumented before it stay instrumented.  Skipping a
    directory and filtering its files give the same result. *)
Theorem walk_is_a_pass_over_the_files workspace root :
  InstrumentWorkspace matchPattern instrumentFile exclude workspace root
  = process (List.filter candidate (files workspace "." root)).
Proof.
  rewrite <- (proj1 (walk_spec root workspace ".")).
  unfold InstrumentWorkspace, outcome.
  by destruct (walk workspace "." root) as [[| |err] d].
Qed.

Lemma joinRel_not_tracer rel name :
  rel <> "." ->
  HasPrefix rel "tracer" = false ->
  joinRel rel name <> "." /\ HasPrefix (joinRel rel name) "tracer" = false.
Proof.
  unfold HasPrefix, joinRel. intros Hrel H.
  destruct (String.eqb_spec rel ".") as [?|_]; [done|]. split.
  - destruct rel as [|c [|c' rel]]; simpl; done.
  - apply prefix_app_slash; [|done]. simpl.
    intros [E|[E|[E|[E|[E|[E|[]]]]]]]; discriminate E.
Qed.

Lemma files_not_tracer e : forall path rel,
  rel <> "." ->
  HasPrefix rel "tracer" = false ->
  List.filter candidate (files path rel e)
  = List.filter (fun file => String.eqb (Ext file.1) ".go")
      (files path rel e).
Proof.
  induction e as [name|name children IH] using entry_nested_ind;
    intros path rel Hrel H; simpl.
  - unfold candidate. simpl. by rewrite H.
  - induction IH as [|c l Hc _ IHl]; [done|]. simpl.
    rewrite !List.filter_app, IHl. f_equal.
    by apply Hc; apply joinRel_not_tracer.
Qed.

(** X27: the [tracer] rule goes by the beginning of the relative path:
    the entries right below the workspace whose name begins with
    [tracer], files and whole directories, are as good as absent. *)
Theorem tracer_rule_is_a_top_level_prefix workspace name children :
  InstrumentWorkspace matchPattern instrumentFile exclude workspace
    (DirEntry name children)
  = InstrumentWorkspace matchPattern instrumentFile exclude workspace
      (DirEntry name
         (List.filter (fun c => negb (HasPrefix (entryName c) "tracer"))
            children)).
Proof.
  assert (Hout : forall root,
    InstrumentWorkspace matchPattern instrumentFile exclude workspace root
    = outcome (walk workspace "." root)).
  { intros root. unfold InstrumentWorkspace, outcome.
    by destruct (walk workspace "." root) as [[| |err] d]. }
  rewrite !Hout, !(proj1 (walk_spec _ workspace ".")). f_equal. simpl.
  induction children as [|c l IH]; [done|]. simpl.
  change (joinRel "." (entryName c)) with (entryName c).
  destruct (HasPrefix (entryName c) "tracer") eqn:Ht; simpl.
  - by rewrite List.filter_app, files_tracer.
  - rewrite !List.filter_app. f_equal. exact IH.
Qed.

(** X28: below an entry that is not skipped the [tracer] rule never
    applies again: there every file with the extension [.go] is looked
    at, also in a directory named [tracer]. *)
Theorem nested_tracer_directories_are_walked path rel e :
  rel <> "." ->
  HasPrefix rel "tracer" = false ->
  outcome (walk path rel e)
  = process (List.filter (fun file => String.eqb (Ext file.1) ".go")
               (files path rel e)).
Proof.
  intros Hrel H. rewrite (proj1 (walk_spec e path rel)).
  by rewrite files_not_tracer.
Qed.

End Walk.

End WalkFacts.

(** * The properties on concrete runs and functions *)

Module Samples.
Import Tracer Instrument Spec TracerFacts InstrumentFacts MeaningFacts.
Import UnwindFacts GraphFacts.

(** Two calls of [f(n) = n + 1] give two records named [f], each with
    its one return value. *)
Example flatRun_records :
  (fun r => (UniqueID r, FunctionName r, ReturnValues r))
    <$> traceRecords (sampleRun flatRun)
  = [(1, "f", ["2"]); (2, "f", ["3"])].
Proof. reflexivity. Qed.

(** [return a + b] in [add] becomes the recording block. *)
Example add_return_rewritten :
  transformReturnsInStmt
    (ReturnStmt [BinaryExpr (Ident "a") (OtherToken "+") (Ident "b")]) "add"
  = BlockStmt
      [ AssignStmt [Ident "_ret0"] DEFINE
          [BinaryExpr (Ident "a") (OtherToken "+") (Ident "b")];
        ExprStmt (tracerCall "RecordReturn"
          [BasicLit STRING (quoted "add"); Ident "_ret0"]);
        ReturnStmt [Ident "_ret0"] ].
Proof. reflexivity. Qed.

(** Both returns of [divide] stay: one has a call among its results, the
    other [nil]. *)
Example divide_returns_kept :
  transformReturnsInStmt divideBody "divide" = divideBody.
Proof. reflexivity. Qed.

(** The whole body of the instrumented [add]: the injected statements,
    one parameter log per parameter name, the rewritten return. *)
Example add_instrumented :
  Body (instrumentFuncDecl addDecl)
  = Some (newStmts (quoted "add")
          ++ [ paramLog "a"; paramLog "b";
               BlockStmt
                 [ AssignStmt [Ident "_ret0"] DEFINE
                     [BinaryExpr (Ident "a") (OtherToken "+") (Ident "b")];
                   ExprStmt (tracerCall "RecordReturn"
                     [BasicLit STRING (quoted "add"); Ident "_ret0"]);
                   ReturnStmt [Ident "_ret0"] ] ]).
Proof. reflexivity. Qed.

(** A function named [init] is passed over. *)
Example init_not_instrumented body :
  let fn := {| Name := "init"; Recv := None; Instrument.Params := None;
               Results := None; Body := Some body |} in
  instrumentFuncDecl fn = fn.
Proof. reflexivity. Qed.

(** The instrumented [main] calls [DumpCallGraphDOT] as the last
    statement of its body, before its deferred [RecordExit] runs: its own
    record is still on the stack and has no node, while the records it
    called have theirs and an edge from its id. *)
Example dump_at_end_of_main :
  let s := sampleRun [ OpEntry "main" 10 0;
                       OpEntry "a" 20 0; OpExit "a" 20 30 0 0 0;
                       OpEntry "b" 40 0; OpExit "b" 40 50 0 0 0 ] in
  let text := (DumpCallGraphDOT sampleLabel "tracewrap/callgraph.dot" true
                 s).1.1 in
  dot_nodes text = [2; 3] /\ dot_edges text = [(1, 2); (1, 3)].
Proof. split; reflexivity. Qed.

(** With integer evaluation, a rewritten return whose results read no
    temporary returns the values of the original return. *)
Lemma int_return_same_values w vars functionName results :
  (forall i e, (i < length results)%nat -> e ∈ results ->
     occurs (retName i) e = false) ->
  returned intEval w vars
    (transformReturnsInStmt (ReturnStmt results) functionName)
  = returned intEval w vars (ReturnStmt results).
Proof.
  apply recorded_return_same_values;
    [apply intEval_Ident|apply intEval_fresh].
Qed.

Example subtract_same_value :
  returned intEval () (<["a" := 10]> (<["b" := 5]> ∅))
    (transformReturnsInStmt
       (ReturnStmt [BinaryExpr (Ident "a") SUB (Ident "b")]) "subtract")
  = Some ([5], ()).
Proof. vm_compute. reflexivity. Qed.

(** C1: [func g(a, _ret0 int) (int, int) { return a, _ret0 }] called as
    [g(1, 2)] returns 1 and 2.  The rewritten return is the last
    statement of the instrumented body; it declares [_ret0 := a] in its
    own block, in front of the parameter of that name, and then reads it
    for the second result: the instrumented function returns 1 and 1. *)
Theorem shadowed_temporary_changes_result :
  Body shadowDecl = Some [ReturnStmt [Ident "a"; Ident "_ret0"]] /\
  returned intEval () shadowVars (ReturnStmt [Ident "a"; Ident "_ret0"])
  = Some ([1; 2], ()) /\
  (exists block,
     last <$> Body (instrumentFuncDecl shadowDecl) = Some (Some block) /\
     block
     = BlockStmt
         [ AssignStmt [Ident "_ret0"] DEFINE [Ident "a"];
           AssignStmt [Ident "_ret1"] DEFINE [Ident "_ret0"];
           ExprStmt (tracerCall "RecordReturn"
             [BasicLit STRING (quoted "g"); Ident "_ret0"; Ident "_ret1"]);
           ReturnStmt [Ident "_ret0"; Ident "_ret1"] ] /\
     returned intEval () shadowVars block = Some ([1; 1], ())).
Proof.
  split; [reflexivity|]. split; [vm_compute; reflexivity|].
  eexists. split; [reflexivity|]. split; [reflexivity|].
  vm_compute. reflexivity.
Qed.

(** C2, as stated, fails on a nested call: [f] is entered after [main]
    and completes before it, so the aggregate list holds id 2 before
    id 1. *)
Lemma nested_ids_not_increasing :
  UniqueID <$> traceRecords (sampleRun nestedRun) = [2; 1] /\
  ~ increasing (UniqueID <$> traceRecords (sampleRun nestedRun)).
Proof.
  split; [reflexivity|].
  change (UniqueID <$> traceRecords (sampleRun nestedRun)) with [2; 1].
  intros H. apply StronglySorted_cons in H as [H _].
  apply Forall_cons in H as [H _]. lia.
Qed.

Lemma aggregate_ids_distinct_witness :
  Z.of_nat (entries flatRun) < 2 ^ 63 /\
  (NoDup (UniqueID <$> traceRecords (sampleRun flatRun)) /\
   (flat 0 flatRun = true ->
    increasing (UniqueID <$> traceRecords (sampleRun flatRun))) /\
   uniqueID (sampleRun flatRun) = Z.of_nat (entries flatRun) /\
   (forall r, r ∈ held (sampleRun flatRun) ->
      1 <= UniqueID r <= uniqueID (sampleRun flatRun))).
Proof.
  split; [reflexivity|].
  apply (aggregate_ids_distinct id sampleLabel flatRun). reflexivity.
Defined.

Lemma caller_id_names_earlier_record_witness :
  Z.of_nat (entries nestedRun) < max_int64 /\
  ((forall r, r ∈ held (sampleRun nestedRun) -> hasCaller r ->
      CallerID r < UniqueID r /\
      exists r', r' ∈ held (sampleRun nestedRun) /\
                 UniqueID r' = CallerID r) /\
   (forall fn now mem r,
      top_of (callStack (RecordEntry fn now mem (sampleRun nestedRun)))
      = Some r ->
      hasCaller r ->
      CallerID r < UniqueID r /\
      exists r', r' ∈ held (sampleRun nestedRun) /\
                 UniqueID r' = CallerID r)).
Proof.
  split; [reflexivity|].
  apply (caller_id_names_earlier_record id sampleLabel nestedRun).
  reflexivity.
Defined.

(** C6, as stated, fails: when the root and the two records it called
    are completed, the aggregate list holds the three of them, the
    root last (no run puts it first), and the root is written as a node
    like every other record: the graph has three nodes. *)
Lemma completed_root_is_written :
  let s := sampleRun completeRun in
  let text := (DumpCallGraphDOT sampleLabel "tracewrap/callgraph.dot" true
                 s).1.1 in
  callStack s = [] /\
  (fun r => (UniqueID r, FunctionName r, CallerID r)) <$> traceRecords s
  = [(2, "a", 1); (3, "b", 1); (1, "main", 0)] /\
  dot_nodes text = [2; 3; 1] /\
  dot_nodes text <> [2; 3] /\
  text !! 4%nat = Some (DotNode 1 "main") /\
  dot_edges text = [(1, 2); (1, 3)].
Proof. repeat split. discriminate. Qed.

Lemma DumpCallGraphDOT_root_and_callees_witness :
  (Z.of_nat (entries completeRun) < 2 ^ 63 /\
   exists x y z,
     traceRecords (sampleRun completeRun) = [x; y; z] /\
     z ∈ [x; y; z] /\
     CallerID z = 0 /\
     (forall r, r ∈ [x; y; z] -> r <> z -> CallerID r = UniqueID z) /\
     dot_nodes (DumpCallGraphDOT sampleLabel "tracewrap/callgraph.dot" true
                  (sampleRun completeRun)).1.1
     = [UniqueID x; UniqueID y; UniqueID z] /\
     dot_edges (DumpCallGraphDOT sampleLabel "tracewrap/callgraph.dot" true
                  (sampleRun completeRun)).1.1
     = [(UniqueID z, UniqueID x); (UniqueID z, UniqueID y)]) /\
  (Z.of_nat (entries activeRun) < 2 ^ 63 /\
   exists x y root,
     traceRecords (sampleRun activeRun) = [x; y] /\
     root ∈ callStack (sampleRun activeRun) /\
     CallerID x = UniqueID root /\
     CallerID y = UniqueID root /\
     dot_nodes (DumpCallGraphDOT sampleLabel "tracewrap/callgraph.dot" true
                  (sampleRun activeRun)).1.1
     = [UniqueID x; UniqueID y] /\
     (UniqueID root
      ∉ dot_nodes (DumpCallGraphDOT sampleLabel "tracewrap/callgraph.dot"
                     true (sampleRun activeRun)).1.1)).
Proof.
  split.
  - split; [reflexivity|].
    assert (Hcall : forall x y z : TraceRecord string,
      CallerID x = UniqueID z -> CallerID y = UniqueID z ->
      forall r, r ∈ [x; y; z] -> r <> z -> CallerID r = UniqueID z).
    { intros x y z Hx Hy r Hr Hne.
      apply elem_of_cons in Hr as [->|Hr]; [done|].
      apply elem_of_cons in Hr as [->|Hr]; [done|].
      apply elem_of_cons in Hr as [->|Hr]; [done|].
      by apply elem_of_nil in Hr. }
    pose proof (DumpCallGraphDOT_root_and_callees id sampleLabel completeRun
                  "tracewrap/callgraph.dot" true) as H.
    cbv zeta in H. destruct H as [H _]; [reflexivity|].
    do 3 eexists. split; [reflexivity|].
    split; [repeat constructor|]. split; [reflexivity|].
    split; [by apply Hcall|].
    lazymatch goal with
    | |- dot_nodes _ = [UniqueID ?x; UniqueID ?y; UniqueID ?z] /\ _ =>
        destruct (H x y z z) as (_ & _ & Hn & He);
          [reflexivity|repeat constructor|reflexivity|by apply Hcall|
           exact (conj Hn He)]
    end.
  - split; [reflexivity|].
    pose proof (DumpCallGraphDOT_root_and_callees id sampleLabel activeRun
                  "tracewrap/callgraph.dot" true) as H.
    cbv zeta in H. destruct H as [_ H]; [reflexivity|].
    do 3 eexists. split; [reflexivity|].
    split; [repeat constructor|]. split; [reflexivity|].
    split; [reflexivity|].
    lazymatch goal with
    | |- dot_nodes _ = [UniqueID ?x; UniqueID ?y] /\ (UniqueID ?r ∉ _) =>
        destruct (H x y r) as (_ & Hn & Hr & _);
          [reflexivity|repeat constructor|reflexivity|reflexivity|
           exact (conj Hn Hr)]
    end.
Defined.

Lemma empty_stack_operations_keep_state_witness :
  callStack (sampleRun flatRun) = [] /\
  stored (RecordExit "f" 0 50 0 0 0 (sampleRun flatRun))
  = stored (sampleRun flatRun).
Proof.
  split; [reflexivity|].
  apply (empty_stack_operations_keep_state id (sampleRun flatRun)).
  reflexivity.
Defined.

Lemma RecordExit_ignores_name_and_startTime_witness :
  callStack (sampleRun [OpEntry "f" 10 0]) <> [] /\
  stored (RecordExit "f" 10 20 0 0 0 (sampleRun [OpEntry "f" 10 0]))
  = stored (RecordExit "g" 99 20 0 0 0 (sampleRun [OpEntry "f" 10 0])).
Proof.
  split; [discriminate|].
  apply (RecordExit_ignores_name_and_startTime (sampleRun [OpEntry "f" 10 0])
           "f" 10 "g" 99 20 0 0 0).
  discriminate.
Defined.

(** C3, as stated, fails in both directions of its last sentence, and on
    a return under a [range] loop: [return x, f()] stays although [x] is
    neither a call nor [nil]; a bare [return] is rewritten although it
    has no result that is not a call or [nil]; the return inside
    [for ... range] is not rewritten. *)
Lemma return_kept_with_one_call :
  (let results := [Ident "x"; CallExpr (Ident "f") []] in
   transformReturnsInStmt (ReturnStmt results) "g" = ReturnStmt results /\
   ~ Forall callOrNil results) /\
  (transformReturnsInStmt (ReturnStmt []) "g" <> ReturnStmt [] /\
   Forall callOrNil []) /\
  transformReturnsInStmt rangeReturn "g" = rangeReturn.
Proof.
  repeat split.
  - intros H. apply Forall_cons in H as [[(? & ? & ?)|?] _]; discriminate.
  - discriminate.
  - constructor.
Qed.

(** The returns of [find]: the one under [for] and [if] and the last
    one are replaced by their recording blocks, the return of a call
    stays, and the [range] loop, which holds no return, stays. *)
Example find_returns_rewritten :
  transformReturnsInStmt findBody "find"
  = BlockStmt
      [ RangeStmt (Some (Ident "_")) (Some (Ident "x")) DEFINE (Ident "xs")
          [AssignStmt [Ident "total"] (OtherToken "+=") [Ident "x"]];
        ForStmt
          (Some (AssignStmt [Ident "i"] DEFINE [BasicLit INT "0"]))
          (Some (BinaryExpr (Ident "i") (OtherToken "<") (Ident "n")))
          (Some (IncDecStmt (Ident "i") (OtherToken "++")))
          [ IfStmt None
              (BinaryExpr (IndexExpr (Ident "xs") (Ident "i"))
                 (OtherToken "==") (Ident "t"))
              [recordedReturn "find" [Ident "i"]]
              (Some (IfStmt None
                       (BinaryExpr (Ident "i") (OtherToken ">") (Ident "t"))
                       [ReturnStmt [CallExpr (Ident "limit") [Ident "i"]]]
                       None)) ];
        recordedReturn "find" [UnaryExpr SUB (BasicLit INT "1")] ].
Proof. reflexivity. Qed.

(** A body with a [range] loop and a [switch] that hold no return is
    covered, and its return is rewritten; with a return inside the
    [range] loop it is not covered. *)
Example covered_with_other_statements :
  covered
    (BlockStmt
       [ RangeStmt None None DEFINE (Ident "xs") [ExprStmt (Ident "x")];
         SwitchStmt None (Some (Ident "x"))
           [CaseClause [BasicLit INT "1"] [ExprStmt (Ident "y")]];
         ReturnStmt [BasicLit INT "0"] ]) = true /\
  transformReturnsInStmt
    (BlockStmt
       [ RangeStmt None None DEFINE (Ident "xs") [ExprStmt (Ident "x")];
         ReturnStmt [BasicLit INT "0"] ]) "f"
  = BlockStmt
      [ RangeStmt None None DEFINE (Ident "xs") [ExprStmt (Ident "x")];
        recordedReturn "f" [BasicLit INT "0"] ] /\
  covered rangeReturn = false.
Proof. repeat split. Qed.

Lemma returns_rewritten_witness :
  covered findBody = true /\
  Rewritten "find" findBody (transformReturnsInStmt findBody "find").
Proof.
  split; [reflexivity|].
  apply (returns_rewritten "find" findBody). reflexivity.
Defined.

Lemma cleanup_blocks_run_in_order_witness :
  Body addDecl
  = Some [ReturnStmt [BinaryExpr (Ident "a") (OtherToken "+") (Ident "b")]] /\
  Name addDecl <> "init" /\
  DeferStmt <$> registerDefers (newStmts (quoted "add")) []
  = [ newDefer (quoted "add"); deferExit (quoted "add");
      recoverStmt (quoted "add") ].
Proof.
  split; [reflexivity|]. split; [discriminate|].
  apply (cleanup_blocks_run_in_order addDecl
           [ReturnStmt [BinaryExpr (Ident "a") (OtherToken "+") (Ident "b")]]
           []);
    [reflexivity|discriminate].
Defined.

(** C5: [main] calls [f] and [f] panics with the value [boom].  The
    deferred calls of [f] run in the order of the instrumented code: the
    record of [f] is popped and appended by [RecordExit] before
    [RecordPanic] is called, so the appended record of [f] has no panic
    value and no stack trace, and both are written on the record of
    [main], the caller.  When [main] itself panics, no record gets the
    value. *)
Theorem fault_recorded_on_caller :
  let entered := sampleRun [OpEntry "main" 10 0; OpEntry "f" 20 0] in
  let s :=
    run id sampleLabel
      (unwindOps "f" sampleReadings (Some ("boom", "goroutine 1 [running]")))
      entered in
  (fun r => (FunctionName r, PanicValue r, StackTrace r)) <$> traceRecords s
  = [("f", None, EmptyString)] /\
  (fun r => (FunctionName r, PanicValue r, StackTrace r)) <$> callStack s
  = [("main", Some "boom", "goroutine 1 [running]")] /\
  let top := sampleRun [OpEntry "main" 10 0] in
  let s' :=
    run id sampleLabel
      (unwindOps "main" sampleReadings
         (Some ("boom", "goroutine 1 [running]")))
      top in
  (fun r => (FunctionName r, PanicValue r, StackTrace r)) <$> traceRecords s'
  = [("main", None, EmptyString)] /\
  callStack s' = [].
Proof. repeat split. Qed.

End Samples.

(** * The further properties on concrete runs and functions *)

Module MoreWitnesses.
Import Tracer Instrument Spec Notions MoreSamples TracerMore InstrumentMore.

Lemma held_ids_are_one_to_n_witness :
  Z.of_nat (entries nestedRun) < 2 ^ 63 /\
  UniqueID <$> held (sampleRun nestedRun)
  ≡ₚ seqZ 1 (Z.of_nat (entries nestedRun)).
Proof.
  split; [reflexivity|].
  apply (held_ids_are_one_to_n id sampleLabel nestedRun). reflexivity.
Defined.

Lemma frequency_counts_calls_witness :
  Z.of_nat (frequencyCalls "f" countedRun) < 2 ^ 63 /\
  execFrequency (sampleRun countedRun) !! "f" = Some 2.
Proof.
  split; [reflexivity|].
  apply (frequency_counts_calls id sampleLabel "f" countedRun). reflexivity.
Defined.

Lemma activation_restores_stack_witness :
  forallb quiet [OpParam "n" "1"; OpReturn "g" ["2"]] = true /\
  callStack
    (run id sampleLabel
       ([OpEntry "g" 20 0] ++ [OpParam "n" "1"; OpReturn "g" ["2"]]
        ++ [OpExit "h" 99 30 0 0 0]) oneActive)
  = callStack oneActive.
Proof.
  split; [reflexivity|].
  apply (activation_restores_stack id sampleLabel oneActive "g" 20 0
           [OpParam "n" "1"; OpReturn "g" ["2"]] "h" 99 30 0 0 0).
  reflexivity.
Defined.

Lemma params_last_write_wins_witness :
  callStack oneActive = [] ++ [activeRecord] /\
  traceRecords
    (run id sampleLabel
       ((fun kv => OpParam kv.1 kv.2) <$> [("n", "1"); ("n", "2")])
       oneActive)
  = traceRecords oneActive.
Proof.
  split; [reflexivity|].
  apply (params_last_write_wins id sampleLabel oneActive [] activeRecord
           [("n", "1"); ("n", "2")]).
  reflexivity.
Defined.

Lemma returns_accumulate_witness :
  callStack oneActive = [] ++ [activeRecord] /\
  traceRecords
    (run id sampleLabel (OpReturn "f" <$> [["1"; "2"]; ["3"]]) oneActive)
  = traceRecords oneActive.
Proof.
  split; [reflexivity|].
  apply (returns_accumulate id sampleLabel oneActive [] activeRecord "f"
           [["1"; "2"]; ["3"]]).
  reflexivity.
Defined.

Lemma graph_of_a_run_witness :
  Z.of_nat (entries nestedRun) < 2 ^ 63 /\
  length (dot_nodes (DumpCallGraphDOT sampleLabel "tracewrap/callgraph.dot"
                       true (sampleRun nestedRun)).1.1)
  = length (traceRecords (sampleRun nestedRun)).
Proof.
  split; [reflexivity|].
  apply (graph_of_a_run id sampleLabel nestedRun "tracewrap/callgraph.dot"
           true).
  reflexivity.
Defined.

Lemma normal_exit_records_figures_witness :
  callStack oneActive = [] ++ [activeRecord] /\
  callStack (run id sampleLabel (unwindOps "f" sampleReadings None) oneActive)
  = [].
Proof.
  split; [reflexivity|].
  apply (normal_exit_records_figures id sampleLabel oneActive [] activeRecord
           "f" sampleReadings).
  reflexivity.
Defined.

Lemma entry_then_parameters_witness :
  Body addDecl
  = Some [ReturnStmt [BinaryExpr (Ident "a") (OtherToken "+") (Ident "b")]] /\
  Name addDecl <> "init" /\
  flat_map recorderCalls
    (newStmts (quoted "add") ++ (paramLog <$> ["a"; "b"]))
  = ["RecordEntry"; "RecordParam"; "RecordParam"].
Proof.
  split; [reflexivity|]. split; [discriminate|].
  apply (entry_then_parameters addDecl
           [ReturnStmt [BinaryExpr (Ident "a") (OtherToken "+") (Ident "b")]]);
    [reflexivity|discriminate].
Defined.

Lemma instrumenting_twice_duplicates_witness :
  Body addDecl
  = Some [ReturnStmt [BinaryExpr (Ident "a") (OtherToken "+") (Ident "b")]] /\
  Name addDecl <> "init" /\
  exists rest,
    Body (instrumentFuncDecl (instrumentFuncDecl addDecl))
    = Some (newStmts (quoted "add") ++ (paramLog <$> ["a"; "b"])
            ++ newStmts (quoted "add") ++ (paramLog <$> ["a"; "b"]) ++ rest) /\
    length (registerDefers
              (newStmts (quoted "add") ++ (paramLog <$> ["a"; "b"])
               ++ newStmts (quoted "add") ++ (paramLog <$> ["a"; "b"])) [])
    = 6%nat.
Proof.
  split; [reflexivity|]. split; [discriminate|].
  apply (instrumenting_twice_duplicates addDecl
           [ReturnStmt [BinaryExpr (Ident "a") (OtherToken "+") (Ident "b")]]);
    [reflexivity|discriminate].
Defined.

Lemma escapedValue_inj_witness :
  TracerLabel.escapedValue (String GoStrings.backslash "n")
  = TracerLabel.escapedValue (String GoStrings.backslash "n") /\
  String GoStrings.backslash "n" = String GoStrings.backslash "n".
Proof.
  split; [reflexivity|].
  apply (LabelFacts.escapedValue_inj (String GoStrings.backslash "n")
           (String GoStrings.backslash "n")).
  reflexivity.
Defined.

End MoreWitnesses.

Module FileWitnesses.
Import GoStrings Instrument InstrumentFile Workspace.
Import FileNotions WalkNotions FileSamples FileFacts WalkFacts.

#[local] Open Scope string_scope.

(** The ghost import of the sample file becomes the tracer import, and
    the tracer import is added as well: the file is written with the
    tracer import twice. *)
Example ghostFile_imports :
  importPaths (instrumentAST tracerImport "pkg/a.go" ghostFile)
  = [ Some (quoted "fmt"); Some tracerImport; Some (quoted "time");
      Some (quoted "runtime/debug"); Some (quoted "runtime");
      Some tracerImport ].
Proof. reflexivity. Qed.

(** Of the sample workspace, [main.go] and the file in [pkg/tracer] are
    instrumented; the directory [tracer] and the file [tracer_test.go]
    right below the workspace are not. *)
Example sampleWorkspace_instrumented :
  InstrumentWorkspace matchNothing instrumentOk [] "ws" sampleWorkspace
  = (None, ["ws/main.go"; "ws/pkg/tracer/t.go"]).
Proof. reflexivity. Qed.

Lemma imports_written_witness :
  parsedFile ghostFile /\
  importPaths (instrumentAST tracerImport "main.go" ghostFile)
  ≡ₚ (replaced tracerImport <$> importPaths ghostFile)
     ++ (Some ∘ quoted <$> missing tracerImport ghostFile).
Proof.
  split; [reflexivity|].
  apply (imports_written tracerImport "main.go" ghostFile). reflexivity.
Defined.

Lemma imports_ensured_witness :
  parsedFile ghostFile /\
  quoted (Trim tracerImport dquote) = tracerImport /\
  "runtime" ∈ ensured tracerImport /\
  Some (quoted "runtime")
  ∈ importPaths (instrumentAST tracerImport "main.go" ghostFile).
Proof.
  split; [reflexivity|]. split; [reflexivity|].
  split; [apply (bool_decide_unpack _); reflexivity|].
  apply (imports_ensured tracerImport "main.go" ghostFile "runtime");
    [reflexivity|reflexivity|apply (bool_decide_unpack _); reflexivity].
Defined.

Lemma ghost_import_written_twice_witness :
  parsedFile ghostFile /\
  quoted (Trim tracerImport dquote) = tracerImport /\
  found (Trim tracerImport dquote) ghostFile = false /\
  Contains (quoted "example.com/ghost/tracer") "ghost/tracer" = true /\
  [Some tracerImport; Some tracerImport]
  ⊆+ importPaths (instrumentAST tracerImport "main.go" ghostFile).
Proof.
  split; [reflexivity|]. split; [reflexivity|]. split; [reflexivity|].
  split; [reflexivity|].
  apply (ghost_import_written_twice tracerImport "main.go" ghostFile 1
           {| ImportName := None;
              PathValue := Some (quoted "example.com/ghost/tracer") |}
           (quoted "example.com/ghost/tracer"));
    reflexivity.
Defined.

Lemma nested_tracer_directories_are_walked_witness :
  "pkg" <> "." /\
  HasPrefix "pkg" "tracer" = false /\
  outcome (walk matchNothing instrumentOk [] "ws/pkg" "pkg" pkgTree)
  = process matchNothing instrumentOk []
      (List.filter (fun file => String.eqb (Ext file.1) ".go")
         (files "ws/pkg" "pkg" pkgTree)).
Proof.
  split; [discriminate|]. split; [reflexivity|].
  apply (nested_tracer_directories_are_walked matchNothing instrumentOk []
           "ws/pkg" "pkg" pkgTree);
    [discriminate|reflexivity].
Defined.

End FileWitnesses.
